(** * Cerebro MCP server: the dependency resolver and its collaborators

    A shallow embedding of the Go sources of the project service
    ([GetProjectDetails], [GetProjectDependencies], [filterDependencies],
    [fetchDependenciesAsync]), of the catalog client ([buildURL],
    [makeRequest]), of the error types and of the validator, followed by
    the properties of the resolver: slot-addressed results, failure
    isolation, outcome classification, fail-fast paths and cancellation.

    Go's [int] is modelled as [Z], a slice as a [list] indexed by [nat],
    a nilable pointer or interface as an [option], a pair [(T, error)] as
    the sum [error + T].  Goroutines are modelled by a small-step
    machine whose interleaving is chosen by a schedule. *)

From Stdlib Require Import ZArith Lia String Ascii List.
From Stdlib Require OrderedTypeEx.
From stdpp Require Import base option list gmap strings pretty sorting.

Local Open Scope string_scope.
Local Open Scope list_scope.
Local Open Scope Z_scope.

(** ** errors.go *)

(** The dynamic type of a Go [error] value.  The three first
    constructors are the error structs of errors.go; [Errorf_w] is
    [fmt.Errorf("<prefix>%w", err)], which wraps [err]; [errorString]
    stands for the errors made by the standard library (net/http, io,
    encoding/json, context). *)
Inductive error : Type :=
| ProjectNotFoundError (Permalink : string)
| ValidationError (Field Message : string)
| APIError (StatusCode : Z) (Message : string)
| Errorf_w (prefix : string) (err : error)
| errorString (s : string).

#[global] Instance error_eq_dec : EqDecision error.
Proof. solve_decision. Defined.

(** The [Error() string] methods. *)
Fixpoint Error (e : error) : string :=
  match e with
  | ProjectNotFoundError Permalink => "project not found: " +:+ Permalink
  | ValidationError Field Message =>
      "validation error for " +:+ Field +:+ ": " +:+ Message
  | APIError StatusCode Message =>
      "API error " +:+ pretty StatusCode +:+ ": " +:+ Message
  | Errorf_w prefix err => prefix +:+ Error err
  | errorString s => s
  end.

(** [errors.Is]: [target] is found along the chain of wrapped errors. *)
Fixpoint errors_Is (err target : error) : bool :=
  if decide (err = target) then true
  else match err with
       | Errorf_w _ inner => errors_Is inner target
       | _ => false
       end.

(** ** context.Context *)

(** What the service observes of a context: [ctx.Err()], nil while the
    context is live, and the cause once it is canceled or expired. *)
Record Context : Type := { Err : option error }.

Definition context_Canceled : error := errorString "context canceled".
Definition context_DeadlineExceeded : error :=
  errorString "context deadline exceeded".
Definition context_Background : Context := {| Err := None |}.

(** ** Types of the API *)

Record CerebroAPIParameters : Type := {
  searchKey : string;
  searchValue : string;
  inlines : string;
  includes : string
}.

Module Project.
Record t : Type := {
  ID : Z;
  Name : string;
  Permalink : string;
  Description : string;
  StartedOn : string;
  CreatedAt : string;
  UpdatedAt : string;
  SlackChannel : string;
  Nickname : string;
  CPUUsage : string;
  MemoryUsage : string;
  Category : string;
  DeployTarget : string;
  InScopeForSOC2 : string;
  RunsOn : string;
  TFA : string;
  CriticalityTier : string;
  CalculatedCriticalityTier : string;
  ReleaseState : string;
  LinkRepositoryURLs : list string;
  ProjectRepositoryURLs : list string;
  ProjectStakeholderOwner : string;
  ProjectStakeholderOncall : string;
  DependentProjectDependenciesIds : list Z;
  PrimaryDeploymentUrl : string;
  AdditionalDeploymentUrls : list string
}.
End Project.

Module ProjectDependency.
Record t : Type := {
  ID : Z;
  DependentProjectID : Z;
  ProvidingProjectID : Z;
  CreatedAt : string;
  UpdatedAt : string;
  Description : string;
  Optional : bool;
  DeletedAt : option string
}.

(** The zero value of the struct. *)
Definition zero : t :=
  {| ID := 0; DependentProjectID := 0; ProvidingProjectID := 0;
     CreatedAt := ""; UpdatedAt := ""; Description := "";
     Optional := false; DeletedAt := None |}.
End ProjectDependency.

(** [Pagination] is never read by the service and is left out. *)
Record APIResponse : Type := {
  Projects : list Project.t;
  ProjectDependencies : list ProjectDependency.t
}.

Record ProjectDetailsResult : Type := {
  pdr_Project : Project.t;
  pdr_FormattedText : string
}.

Record ProjectDependenciesResult : Type := {
  pdsr_Project : Project.t;
  pdsr_ProjectDependencies : list ProjectDependency.t;
  pdsr_FormattedText : string
}.

(** ** Strings: unicode/utf8, unicode and strings of the Go library

    A Go string is a sequence of bytes; [strings.TrimSpace] reads it as
    UTF-8.  The functions below follow the library's code on the bytes
    of the string, each byte a [Z] in [0, 255]. *)

Definition bytes_of_string (s : string) : list Z :=
  map (λ a, Z.of_N (N_of_ascii a)) (list_ascii_of_string s).

Definition string_of_bytes (l : list Z) : string :=
  string_of_list_ascii (map (λ b, ascii_of_N (Z.to_N b)) l).

(** The slice expression [s[lo:hi]]. *)
Definition slice (s : list Z) (lo hi : nat) : list Z :=
  take (hi - lo)%nat (drop lo s).

Module utf8.
Definition RuneError : Z := 0xFFFD.
Definition RuneSelf : Z := 0x80.
Definition UTFMax : Z := 4.

Definition maskx : Z := 0x3F.
Definition mask2 : Z := 0x1F.
Definition mask3 : Z := 0x0F.
Definition mask4 : Z := 0x07.
Definition locb : Z := 0x80.
Definition hicb : Z := 0xBF.

Definition xx : Z := 0xF1.
Definition as_ : Z := 0xF0.
Definition s1 : Z := 0x02.
Definition s2 : Z := 0x13.
Definition s3 : Z := 0x03.
Definition s4 : Z := 0x23.
Definition s5 : Z := 0x34.
Definition s6 : Z := 0x04.
Definition s7 : Z := 0x44.

(** The table [first], by ranges of the leading byte. *)
Definition first (b : Z) : Z :=
  if b <? 0x80 then as_
  else if b <? 0xC2 then xx
  else if b <? 0xE0 then s1
  else if b =? 0xE0 then s2
  else if b <? 0xED then s3
  else if b =? 0xED then s4
  else if b <? 0xF0 then s3
  else if b =? 0xF0 then s5
  else if b <? 0xF4 then s6
  else if b =? 0xF4 then s7
  else xx.

(** The table [acceptRanges]: sixteen entries, the last eleven zero. *)
Definition acceptRanges (i : Z) : Z * Z :=
  match i with
  | 0 => (locb, hicb)
  | 1 => (0xA0, hicb)
  | 2 => (locb, 0x9F)
  | 3 => (0x90, hicb)
  | 4 => (locb, 0x8F)
  | _ => (0, 0)
  end.

Definition DecodeRuneInString (s : list Z) : Z * nat :=
  let n := length s in
  if (n <? 1)%nat then (RuneError, 0%nat)
  else
    let s0 := s !!! 0%nat in
    let x := first s0 in
    if as_ <=? x then
      (* [mask := rune(x) << 31 >> 31]: all ones when bit 0 of x is set *)
      let mask := if Z.testbit x 0 then -1 else 0 in
      (Z.lor (Z.land s0 (Z.lnot mask)) (Z.land RuneError mask), 1%nat)
    else
      let sz := Z.to_nat (Z.land x 7) in
      let accept := acceptRanges (Z.shiftr x 4) in
      if (n <? sz)%nat then (RuneError, 1%nat)
      else
        let s1 := s !!! 1%nat in
        if (s1 <? fst accept) || (snd accept <? s1) then (RuneError, 1%nat)
        else if (sz <=? 2)%nat then
          (Z.lor (Z.shiftl (Z.land s0 mask2) 6) (Z.land s1 maskx), 2%nat)
        else
          let s2 := s !!! 2%nat in
          if (s2 <? locb) || (hicb <? s2) then (RuneError, 1%nat)
          else if (sz <=? 3)%nat then
            (Z.lor (Z.lor (Z.shiftl (Z.land s0 mask3) 12)
                          (Z.shiftl (Z.land s1 maskx) 6))
                   (Z.land s2 maskx), 3%nat)
          else
            let s3 := s !!! 3%nat in
            if (s3 <? locb) || (hicb <? s3) then (RuneError, 1%nat)
            else
              (Z.lor (Z.lor (Z.lor (Z.shiftl (Z.land s0 mask4) 18)
                                   (Z.shiftl (Z.land s1 maskx) 12))
                            (Z.shiftl (Z.land s2 maskx) 6))
                     (Z.land s3 maskx), 4%nat).

Definition RuneStart (b : Z) : bool := negb (Z.land b 0xC0 =? 0x80).

(** The loop [for start--; start >= lim; start-- { if RuneStart(s[start])
    { break } }] of [DecodeLastRuneInString], entered with [start]
    already decremented; it runs at most [UTFMax - 1] times. *)
Fixpoint backToRuneStart (fuel : nat) (s : list Z) (start lim : Z) : Z :=
  match fuel with
  | O => start
  | S fuel' =>
      if start <? lim then start
      else if RuneStart (s !!! Z.to_nat start) then start
      else backToRuneStart fuel' s (start - 1) lim
  end.

Definition DecodeLastRuneInString (s : list Z) : Z * nat :=
  let end_ := Z.of_nat (length s) in
  if end_ =? 0 then (RuneError, 0%nat)
  else
    let start := end_ - 1 in
    let r := s !!! Z.to_nat start in
    if r <? RuneSelf then (r, 1%nat)
    else
      let lim := end_ - UTFMax in
      let lim := if lim <? 0 then 0 else lim in
      let start := backToRuneStart 4 s (start - 1) lim in
      let start := if start <? 0 then 0 else start in
      let '(r, size) :=
        DecodeRuneInString (slice s (Z.to_nat start) (Z.to_nat end_)) in
      if negb (start + Z.of_nat size =? end_) then (RuneError, 1%nat)
      else (r, size).
End utf8.

Module unicode.
Definition MaxLatin1 : Z := 0xFF.

(** The 16-bit ranges [(Lo, Hi, Stride)] of the table [White_Space];
    the table has no 32-bit range and its [LatinOffset] is 4. *)
Definition White_Space_R16 : list (Z * Z * Z) :=
  [ (0x0009, 0x000d, 1); (0x0020, 0x0020, 1); (0x0085, 0x0085, 1);
    (0x00a0, 0x00a0, 1); (0x1680, 0x1680, 1); (0x2000, 0x200a, 1);
    (0x2028, 0x2029, 1); (0x202f, 0x202f, 1); (0x205f, 0x205f, 1);
    (0x3000, 0x3000, 1) ].
Definition White_Space_LatinOffset : nat := 4.

(** [is16] on a table short enough for the linear search. *)
Fixpoint is16 (ranges : list (Z * Z * Z)) (r : Z) : bool :=
  match ranges with
  | [] => false
  | (Lo, Hi, Stride) :: ranges' =>
      if r <? Lo then false
      else if r <=? Hi then (Stride =? 1) || ((r - Lo) mod Stride =? 0)
      else is16 ranges' r
  end.

Definition isExcludingLatin (r16 : list (Z * Z * Z)) (off : nat) (r : Z)
  : bool :=
  (* both sides of the comparison are converted to uint32; the table has
     no 32-bit range *)
  if (off <? length r16)%nat
     && (r mod 2 ^ 32 <=? snd (fst (List.last r16 (0, 0, 0))))
  then is16 (drop off r16) (r mod 2 ^ 16)
  else false.

Definition IsSpace (r : Z) : bool :=
  if r mod 2 ^ 32 <=? MaxLatin1 then
    (r =? 9) || (r =? 10) || (r =? 11) || (r =? 12) || (r =? 13)
    || (r =? 32) || (r =? 0x85) || (r =? 0xA0)
  else isExcludingLatin White_Space_R16 White_Space_LatinOffset r.
End unicode.

Module strings.
(** The table [asciiSpace]. *)
Definition asciiSpace (c : Z) : bool :=
  (c =? 9) || (c =? 10) || (c =? 11) || (c =? 12) || (c =? 13) || (c =? 32).

(** [indexFunc]: [for i, r := range s { if f(r) == truth { return i } }
    return -1], the range loop decoding one rune at each turn; [rest]
    is [s[i:]]. *)
Fixpoint indexFunc_loop (fuel : nat) (rest : list Z) (i : nat)
    (f : Z → bool) (truth : bool) : Z :=
  match fuel with
  | O => -1
  | S fuel' =>
      match rest with
      | [] => -1
      | _ =>
          let '(r, size) := utf8.DecodeRuneInString rest in
          if Bool.eqb (f r) truth then Z.of_nat i
          else indexFunc_loop fuel' (drop size rest) (i + size) f truth
      end
  end.

Definition indexFunc (s : list Z) (f : Z → bool) (truth : bool) : Z :=
  indexFunc_loop (length s) s 0 f truth.

(** [lastIndexFunc]: [for i := len(s); i > 0; { r, size :=
    DecodeLastRuneInString(s[0:i]); i -= size; if f(r) == truth
    { return i } } return -1]. *)
Fixpoint lastIndexFunc_loop (fuel : nat) (s : list Z) (i : nat)
    (f : Z → bool) (truth : bool) : Z :=
  match fuel with
  | O => -1
  | S fuel' =>
      if (0 <? i)%nat then
        let '(r, size) := utf8.DecodeLastRuneInString (slice s 0 i) in
        let i := (i - size)%nat in
        if Bool.eqb (f r) truth then Z.of_nat i
        else lastIndexFunc_loop fuel' s i f truth
      else -1
  end.

Definition lastIndexFunc (s : list Z) (f : Z → bool) (truth : bool) : Z :=
  lastIndexFunc_loop (length s) s (length s) f truth.

Definition TrimLeftFunc (s : list Z) (f : Z → bool) : list Z :=
  let i := indexFunc s f false in
  if i =? -1 then [] else slice s (Z.to_nat i) (length s).

Definition TrimRightFunc (s : list Z) (f : Z → bool) : list Z :=
  let i := lastIndexFunc s f false in
  let i :=
    if (0 <=? i) && (utf8.RuneSelf <=? s !!! Z.to_nat i) then
      let '(_, wid) :=
        utf8.DecodeRuneInString (slice s (Z.to_nat i) (length s)) in
      i + Z.of_nat wid
    else i + 1 in
  slice s 0 (Z.to_nat i).

Definition TrimFunc (s : list Z) (f : Z → bool) : list Z :=
  TrimRightFunc (TrimLeftFunc s f) f.

(** First loop of [TrimSpace]: the index of the first byte that is not
    an ASCII space, or [inl] of the index of the first byte that is not
    ASCII at all. *)
Fixpoint TrimSpace_start (rest : list Z) (start : nat) : nat + nat :=
  match rest with
  | [] => inr start
  | c :: rest' =>
      if utf8.RuneSelf <=? c then inl start
      else if negb (asciiSpace c) then inr start
      else TrimSpace_start rest' (S start)
  end.

(** Second loop of [TrimSpace], from the end: [stop] runs down to
    [start]. *)
Fixpoint TrimSpace_stop (fuel : nat) (s : list Z) (start stop : nat)
  : nat + nat :=
  match fuel with
  | O => inr stop
  | S fuel' =>
      if (start <? stop)%nat then
        let c := s !!! (stop - 1)%nat in
        if utf8.RuneSelf <=? c then inl stop
        else if negb (asciiSpace c) then inr stop
        else TrimSpace_stop fuel' s start (stop - 1)
      else inr stop
  end.

Definition TrimSpace_bytes (s : list Z) : list Z :=
  match TrimSpace_start s 0 with
  | inl start => TrimFunc (slice s start (length s)) unicode.IsSpace
  | inr start =>
      match TrimSpace_stop (length s) s start (length s) with
      | inl stop => TrimRightFunc (slice s start stop) unicode.IsSpace
      | inr stop => slice s start stop
      end
  end.

Definition TrimSpace (s : string) : string :=
  string_of_bytes (TrimSpace_bytes (bytes_of_string s)).
End strings.

(** [for _, r := range s]: the runes that a range loop reads from the
    bytes of a string. *)
Fixpoint runes_loop (fuel : nat) (rest : list Z) : list Z :=
  match fuel with
  | O => []
  | S fuel' =>
      match rest with
      | [] => []
      | _ =>
          let '(r, size) := utf8.DecodeRuneInString rest in
          r :: runes_loop fuel' (drop size rest)
      end
  end.

Definition runes (s : list Z) : list Z := runes_loop (length s) s.

(** The string holds white space only: every rune of it is a space for
    [unicode.IsSpace].  The empty string does. *)
Definition onlyWhitespace (s : string) : bool :=
  forallb unicode.IsSpace (runes (bytes_of_string s)).

Definition is_byte (b : Z) : Prop := 0 ≤ b < 256.

(** ** The validator *)

(** A value of Go's [interface{}] as the JSON decoder makes it; a number
    is kept as the bits of its float64. *)
#[warnings="-register-all"]
Inductive any : Type :=
| any_nil
| any_bool (b : bool)
| any_float64 (bits : Z)
| any_string (s : string)
| any_slice (l : list any)
| any_map (m : list (string * any)).

Definition ValidateProjectPermalink (permalink : string) : option error :=
  if decide (strings.TrimSpace permalink = "") then
    Some (ValidationError "project_permalink" "cannot be empty")
  else None.

Definition ValidateToolArguments (arguments : gmap string any)
  : string * option error :=
  match arguments !! "project_permalink" with
  | Some (any_string projectPermalink) =>
      (projectPermalink, ValidateProjectPermalink projectPermalink)
  | _ => ("", Some (ValidationError "project_permalink" "must be a string"))
  end.

(** ** net/http as the client sees it *)

Record Request : Type := {
  req_ctx : Context;
  Method : string;
  URL : string;
  Header : gmap string string
}.

(** [Body] is what [io.ReadAll(resp.Body)] gives. *)
Record Response : Type := {
  StatusCode : Z;
  Body : error + string
}.

Definition Header_Set (key value : string) (req : Request) : Request :=
  {| req_ctx := req_ctx req; Method := Method req; URL := URL req;
     Header := <[key := value]> (Header req) |}.

(** ** The types of the service *)

(** The client's [httpClient] field is the transport [http_Client_Do]
    of the collaborators below. *)
Record CerebroClient : Type := {
  baseURL : string;
  token : string
}.

Record Validator : Type := NewValidator {}.

Record ProjectService : Type := {
  client : CerebroClient;
  validator : Validator
}.

(** [dependencyResult]: the result of fetching a single dependency. *)
Record dependencyResult : Type := {
  index : nat;
  dep : ProjectDependency.t;
  providingProject : option Project.t;
  err : option error
}.

(** The zero value, which [make] puts in every slot. *)
Definition dependencyResult_zero : dependencyResult :=
  {| index := 0; dep := ProjectDependency.zero;
     providingProject := None; err := None |}.

#[global] Instance Project_eq_dec : EqDecision Project.t.
Proof. solve_decision. Defined.
#[global] Instance ProjectDependency_eq_dec : EqDecision ProjectDependency.t.
Proof. solve_decision. Defined.
#[global] Instance dependencyResult_eq_dec : EqDecision dependencyResult.
Proof. solve_decision. Defined.

(** The network as the service drives it: the state [W] of the outside
    world and the log of the requests handed to the transport. *)
Record Net (W : Type) : Type := {
  world : W;
  calls : list Request
}.

Arguments world {W} _.
Arguments calls {W} _.

(** *** The goroutines of [fetchDependenciesAsync]

    A goroutine is either about to call [makeRequest] or holds the value
    it is about to store in its slot before [wg.Done()]. *)
Inductive goroutine : Type :=
| Started (index : nat) (dependency : ProjectDependency.t)
| Responded (index : nat) (res : dependencyResult).

(** The state of one call: the slice [results], the counter [i] of the
    [for i, dep := range dependencies] loop ([loop_i]), the live
    goroutines, the counter of the [sync.WaitGroup], the context (which
    its owner may cancel at any time) and the network. *)
Record State (W : Type) : Type := {
  results : list dependencyResult;
  dependencies : list ProjectDependency.t;
  loop_i : nat;
  goroutines : list goroutine;
  wg : Z;
  ctx : Context;
  net : Net W
}.

Arguments results {W} _.
Arguments dependencies {W} _.
Arguments loop_i {W} _.
Arguments goroutines {W} _.
Arguments wg {W} _.
Arguments ctx {W} _.
Arguments net {W} _.

(** What the scheduler and the environment may do next: run one turn of
    the loop of the calling goroutine ([wg.Add(1)] and the [go]
    statement), run the [k]-th live goroutine up to its next step, or
    cancel the context. *)
Inductive Action : Type :=
| Spawn
| Run (k : nat)
| Cancel (cause : error).

Inductive StepResult (W : Type) : Type :=
| Stepped (σ : State W)
| Disabled
| Panicked.

Arguments Stepped {W} σ.
Arguments Disabled {W}.
Arguments Panicked {W}.

(** The collaborators the repository does not implement: the URL parser
    and escaper of net/url, the transport behind [http.Client.Do] and
    the JSON decoder.  The remote catalog may answer differently over
    time, so the transport threads a [World]. *)
Class Collaborators : Type := {
  World : Type;
  url_Parse : string → option error;
  url_QueryEscape : string → string;
  http_Client_Do : World → Request → World * (error + Response);
  json_Unmarshal : string → error + APIResponse
}.

Section Service.
Context `{Collaborators}.

(** [http.NewRequestWithContext(ctx, "GET", url, nil)]: the method is
    valid and the context is not nil, so it fails only when the URL does
    not parse. *)
Definition http_NewRequestWithContext (ctx : Context) (method url : string)
  : error + Request :=
  match url_Parse url with
  | Some err => inl err
  | None => inr {| req_ctx := ctx; Method := method; URL := url; Header := ∅ |}
  end.

(** ** The catalog client *)

(** [url.Values] with [Set], [Add] and [Encode]; [Encode] writes the
    keys in sorted order. *)
Definition Values_Set (key value : string) (v : gmap string (list string))
  : gmap string (list string) := <[key := [value]]> v.

Definition Values_Add (key value : string) (v : gmap string (list string))
  : gmap string (list string) := <[key := default [] (v !! key) ++ [value]]> v.

Definition string_le (a b : string) : Prop := String.leb a b = true.

#[local] Instance string_le_dec (a b : string) : Decision (string_le a b).
Proof. unfold string_le; apply _. Defined.

Fixpoint join (sep : string) (l : list string) : string :=
  match l with
  | [] => ""
  | [x] => x
  | x :: l' => x +:+ sep +:+ join sep l'
  end.

Definition Values_Encode (v : gmap string (list string)) : string :=
  let keys := merge_sort string_le (map fst (map_to_list v)) in
  join "&"
    (mbind (λ k, map (λ x, url_QueryEscape k +:+ "=" +:+ url_QueryEscape x)
                        (default [] (v !! k))) keys).

Definition buildURL (c : CerebroClient) (params : CerebroAPIParameters)
  : string :=
  let urlParams : gmap string (list string) := ∅ in
  let urlParams :=
    Values_Set ("search[" +:+ searchKey params +:+ "]") (searchValue params)
               urlParams in
  let urlParams :=
    if decide (String.length (includes params) ≠ 0%nat)
    then Values_Add "includes" (includes params) urlParams else urlParams in
  let urlParams :=
    if decide (String.length (inlines params) ≠ 0%nat)
    then Values_Add "inlines" (inlines params) urlParams else urlParams in
  baseURL c +:+ "?" +:+ Values_Encode urlParams.

Definition makeRequest (c : CerebroClient) (n : Net World) (ctx : Context)
    (apiURL : string) : Net World * (error + APIResponse) :=
  match http_NewRequestWithContext ctx "GET" apiURL with
  | inl err => (n, inl (Errorf_w "failed to create request: " err))
  | inr req =>
    let req := Header_Set "Authorization" ("Token " +:+ token c) req in
    let req := Header_Set "Accept" "application/json" req in
    let '(w, resp) := http_Client_Do (world n) req in
    let n' := {| world := w; calls := calls n ++ [req] |} in
    match resp with
    | inl err => (n', inl (Errorf_w "failed to execute request: " err))
    | inr resp =>
      match Body resp with
      | inl err => (n', inl (Errorf_w "failed to read response: " err))
      | inr body =>
        if (StatusCode resp <? 200) || (300 <=? StatusCode resp)
        then (n', inl (APIError (StatusCode resp) body))
        else match json_Unmarshal body with
             | inl err =>
                 (n', inl (Errorf_w "failed to parse JSON response: " err))
             | inr apiResponse => (n', inr apiResponse)
             end
      end
    end
  end.

(** ** The project service *)

(** [filterDependencies] keeps the dependencies where the project is the
    dependent, in the order of the source. *)
Fixpoint filterDependencies (deps : list ProjectDependency.t) (projectID : Z)
  : list ProjectDependency.t :=
  match deps with
  | [] => []
  | dep :: deps' =>
      if decide (ProjectDependency.DependentProjectID dep = projectID)
      then dep :: filterDependencies deps' projectID
      else filterDependencies deps' projectID
  end.

(** The body of the goroutine of [fetchDependenciesAsync] up to the
    store into [results[index]]: the lookup of the providing project and
    the value that the goroutine will store. *)
Definition fetchDependenciesAsync_func1 (s : ProjectService) (n : Net World)
    (ctx : Context) (index : nat) (dependency : ProjectDependency.t)
  : Net World * dependencyResult :=
  let params :=
    {| searchKey := "id";
       searchValue := pretty (ProjectDependency.ProvidingProjectID dependency);
       inlines := ""; includes := "" |} in
  let apiURL := buildURL (client s) params in
  let '(n', response) := makeRequest (client s) n ctx apiURL in
  match response with
  | inl err =>
      (n', {| index := index; dep := dependency;
              providingProject := None; err := Some err |})
  | inr response =>
      match Projects response with
      | [] =>
          (n', {| index := index; dep := dependency;
                  providingProject := None; err := None |})
      | project :: _ =>
          (n', {| index := index; dep := dependency;
                  providingProject := Some project; err := None |})
      end
  end.

(** *** The step function of the goroutines

    One step of the call.  A goroutine makes two steps: its lookup (the
    whole of [makeRequest], so that the order of the lookups is the
    order in which the world sees the requests), then the store into
    its slot together with the deferred [wg.Done()]. *)

Definition step (s : ProjectService) (a : Action) (σ : State World)
  : StepResult World :=
  match a with
  | Spawn =>
      match dependencies σ !! loop_i σ with
      | Some dep =>
          Stepped {| results := results σ; dependencies := dependencies σ;
                     loop_i := S (loop_i σ);
                     goroutines := goroutines σ ++ [Started (loop_i σ) dep];
                     wg := wg σ + 1; ctx := ctx σ; net := net σ |}
      | None => Disabled
      end
  | Run k =>
      match goroutines σ !! k with
      | None => Disabled
      | Some (Started index dependency) =>
          let '(n', res) :=
            fetchDependenciesAsync_func1 s (net σ) (ctx σ) index dependency in
          Stepped {| results := results σ; dependencies := dependencies σ;
                     loop_i := loop_i σ;
                     goroutines := <[k := Responded index res]> (goroutines σ);
                     wg := wg σ; ctx := ctx σ; net := n' |}
      | Some (Responded index res) =>
          (* results[index] = res panics out of range; wg.Done() panics
             on a negative counter *)
          if decide (index < length (results σ))%nat then
            if decide (0 < wg σ) then
              Stepped {| results := <[index := res]> (results σ);
                         dependencies := dependencies σ; loop_i := loop_i σ;
                         goroutines := delete k (goroutines σ);
                         wg := wg σ - 1; ctx := ctx σ; net := net σ |}
            else Panicked
          else Panicked
      end
  | Cancel cause =>
      match Err (ctx σ) with
      | None =>
          Stepped {| results := results σ; dependencies := dependencies σ;
                     loop_i := loop_i σ; goroutines := goroutines σ; wg := wg σ;
                     ctx := {| Err := Some cause |}; net := net σ |}
      | Some _ => Disabled
      end
  end.

(** A schedule is a list of actions; one that is not enabled is skipped.
    [None] is a panic. *)
Fixpoint exec (s : ProjectService) (sched : list Action) (σ : State World)
  : option (State World) :=
  match sched with
  | [] => Some σ
  | a :: sched' =>
      match step s a σ with
      | Stepped σ' => exec s sched' σ'
      | Disabled => exec s sched' σ
      | Panicked => None
      end
  end.

(** [results := make([]dependencyResult, len(dependencies))] and an
    empty wait group. *)
Definition fetchDependenciesAsync_init (n : Net World) (c : Context)
    (deps : list ProjectDependency.t) : State World :=
  {| results := replicate (length deps) dependencyResult_zero;
     dependencies := deps; loop_i := 0; goroutines := []; wg := 0;
     ctx := c; net := n |}.

(** [wg.Wait()] returns once the loop is over and the counter is zero. *)
Definition returned (σ : State World) : Prop :=
  loop_i σ = length (dependencies σ) ∧ wg σ = 0.

(** The rest of a fair run: the loop spawns what it has not spawned yet
    and every live goroutine runs to its end. *)
Definition completion (deps : list ProjectDependency.t) : list Action :=
  replicate (length deps) Spawn ++ replicate (2 * length deps) (Run 0).

(** [fetchDependenciesAsync]: the goroutines interleave as [sched] says
    and then run to their end; the function returns [results] after
    [wg.Wait()].  It also gives back the network and the context as the
    call leaves them. *)
Definition fetchDependenciesAsync (s : ProjectService) (sched : list Action)
    (n : Net World) (c : Context) (deps : list ProjectDependency.t)
  : option (Net World * Context * list dependencyResult) :=
  match exec s (sched ++ completion deps)
             (fetchDependenciesAsync_init n c deps) with
  | Some σ => Some (net σ, ctx σ, results σ)
  | None => None
  end.

(** *** Formatting *)

Definition nl : string := String (ascii_of_nat 10) "".

Definition sprintf_t (b : bool) : string := if b then "true" else "false".

Definition formatProjectDetails (project : Project.t) (permalink : string)
  : string :=
  let result := "# Project Details for: " +:+ permalink +:+ nl +:+ nl in
  let result :=
    result +:+ "**Project Name:** " +:+ Project.Name project +:+ nl in
  let result :=
    result +:+ "**Description:** " +:+ Project.Description project +:+ nl in
  let result :=
    result +:+ "**Category:** " +:+ Project.Category project +:+ nl in
  let result :=
    result +:+ "**Calculated Criticality Tier:** "
           +:+ Project.CalculatedCriticalityTier project +:+ nl in
  let result :=
    result +:+ "**Release State:** " +:+ Project.ReleaseState project +:+ nl in
  let result :=
    result +:+ "**Owner:** " +:+ Project.ProjectStakeholderOwner project
           +:+ nl in
  let result :=
    result +:+ "**Slack Channel:** " +:+ Project.SlackChannel project +:+ nl in
  if decide (length (Project.ProjectRepositoryURLs project) = 0%nat) then
    result +:+ "No project repository URLs found." +:+ nl
  else
    let result :=
      result +:+ nl +:+ "**Project Repository URLs ("
             +:+ pretty (Z.of_nat (length (Project.ProjectRepositoryURLs project)))
             +:+ "):**" +:+ nl in
    result +:+
      String.concat ""
        (imap (λ i repoURL,
                 pretty (Z.of_nat i + 1) +:+ ". " +:+ repoURL +:+ nl)
              (Project.ProjectRepositoryURLs project)).

(** One turn of the loop of [formatDependencies]. *)
Definition formatDependency (i : nat) (res : dependencyResult) : string :=
  let n := pretty (Z.of_nat i + 1) in
  let pid := pretty (ProjectDependency.ProvidingProjectID (dep res)) in
  match err res with
  | Some e =>
      "### " +:+ n +:+ ". Error fetching project ID " +:+ pid +:+ nl
      +:+ "- **Error:** " +:+ Error e +:+ nl +:+ nl
  | None =>
      match providingProject res with
      | None =>
          "### " +:+ n +:+ ". Project ID " +:+ pid +:+ " (Not Found)" +:+ nl
          +:+ "- **Dependency ID:** "
          +:+ pretty (ProjectDependency.ID (dep res)) +:+ nl
          +:+ "- **Optional:** "
          +:+ sprintf_t (ProjectDependency.Optional (dep res)) +:+ nl +:+ nl
      | Some providingProject =>
          "### " +:+ n +:+ ". " +:+ Project.Name providingProject +:+ nl
          +:+ "- **Dependency ID:** "
          +:+ pretty (ProjectDependency.ID (dep res)) +:+ nl
          +:+ "- **Providing Project ID:** " +:+ pid +:+ nl
          +:+ "- **Permalink:** " +:+ Project.Permalink providingProject +:+ nl
          +:+ "- **Description:** "
          +:+ Project.Description providingProject +:+ nl
          +:+ "- **Category:** " +:+ Project.Category providingProject +:+ nl
          +:+ "- **Criticality Tier:** "
          +:+ Project.CalculatedCriticalityTier providingProject +:+ nl
          +:+ "- **Release State:** "
          +:+ Project.ReleaseState providingProject +:+ nl
          +:+ "- **Owner Team:** "
          +:+ Project.ProjectStakeholderOwner providingProject +:+ nl
          +:+ "- **Slack Channel:** "
          +:+ Project.SlackChannel providingProject +:+ nl
          +:+ "- **Optional Dependency:** "
          +:+ sprintf_t (ProjectDependency.Optional (dep res)) +:+ nl
          +:+ (if decide (ProjectDependency.Description (dep res) ≠ "")
               then "- **Dependency Description:** "
                    +:+ ProjectDependency.Description (dep res) +:+ nl
               else "")
          +:+ nl
      end
  end.

Definition formatDependencies (project : Project.t)
    (dependencyResults : list dependencyResult) : string :=
  let result :=
    "# Dependencies for Project: " +:+ Project.Name project +:+ nl +:+ nl in
  let result :=
    result +:+ "**Project ID:** " +:+ pretty (Project.ID project) +:+ nl in
  let result :=
    result +:+ "**Permalink:** " +:+ Project.Permalink project +:+ nl in
  let result :=
    result +:+ "**Description:** " +:+ Project.Description project
           +:+ nl +:+ nl in
  let result :=
    result +:+ "## Dependencies ("
           +:+ pretty (Z.of_nat (length dependencyResults)) +:+ ")"
           +:+ nl +:+ nl in
  result +:+ String.concat "" (imap formatDependency dependencyResults).

(** *** The two operations of the service

    Both give back the network as they leave it, so that the requests
    they made can be counted. *)

Definition detailsInlines : string :=
  "project_repository_urls,project_stakeholder_owner_name,project_stakeholder_oncall_name,link_deployment_url,link_deployment_urls".

Definition GetProjectDetails (s : ProjectService) (n : Net World)
    (ctx : Context) (permalink : string)
  : Net World * (error + ProjectDetailsResult) :=
  match ValidateProjectPermalink permalink with
  | Some err => (n, inl err)
  | None =>
    let params :=
      {| searchKey := "permalink"; searchValue := permalink;
         inlines := detailsInlines; includes := "" |} in
    let apiURL := buildURL (client s) params in
    let '(n', response) := makeRequest (client s) n ctx apiURL in
    match response with
    | inl err => (n', inl err)
    | inr response =>
      match Projects response with
      | [] => (n', inl (ProjectNotFoundError permalink))
      | project :: _ =>
          (n', inr {| pdr_Project := project;
                      pdr_FormattedText :=
                        formatProjectDetails project permalink |})
      end
    end
  end.

(** [sched] is the interleaving of the goroutines of the fan-out; [None]
    is a panic. *)
Definition GetProjectDependencies (s : ProjectService) (sched : list Action)
    (n : Net World) (ctx : Context) (permalink : string)
  : option (Net World * (error + ProjectDependenciesResult)) :=
  match ValidateProjectPermalink permalink with
  | Some err => Some (n, inl err)
  | None =>
    let params :=
      {| searchKey := "permalink"; searchValue := permalink;
         inlines := detailsInlines;
         includes := "dependent_project_dependencies" |} in
    let apiURL := buildURL (client s) params in
    let '(n', response) := makeRequest (client s) n ctx apiURL in
    match response with
    | inl err => Some (n', inl err)
    | inr response =>
      match Projects response with
      | [] => Some (n', inl (ProjectNotFoundError permalink))
      | project :: _ =>
        if decide (length (ProjectDependencies response) = 0%nat) then
          Some (n', inr {| pdsr_Project := project;
                           pdsr_ProjectDependencies := [];
                           pdsr_FormattedText :=
                             "# No dependencies found for project: "
                             +:+ Project.Name project +:+ nl +:+ nl |})
        else
          let relevantDependencies :=
            filterDependencies (ProjectDependencies response)
                               (Project.ID project) in
          match fetchDependenciesAsync s sched n' ctx relevantDependencies with
          | None => None
          | Some (n'', _, dependenciesWithDetails) =>
              Some (n'', inr {| pdsr_Project := project;
                                pdsr_ProjectDependencies :=
                                  relevantDependencies;
                                pdsr_FormattedText :=
                                  formatDependencies project
                                    dependenciesWithDetails |})
          end
      end
    end
  end.

(** *** Names for what the properties below speak of *)

(** The URL that the goroutine of an edge requests. *)
Definition lookupURL (s : ProjectService) (d : ProjectDependency.t) : string :=
  buildURL (client s)
    {| searchKey := "id";
       searchValue := pretty (ProjectDependency.ProvidingProjectID d);
       inlines := ""; includes := "" |}.

(** The URLs of the root queries of the two operations. *)
Definition detailsURL (s : ProjectService) (permalink : string) : string :=
  buildURL (client s)
    {| searchKey := "permalink"; searchValue := permalink;
       inlines := detailsInlines; includes := "" |}.

Definition dependenciesURL (s : ProjectService) (permalink : string)
  : string :=
  buildURL (client s)
    {| searchKey := "permalink"; searchValue := permalink;
       inlines := detailsInlines;
       includes := "dependent_project_dependencies" |}.

(** The transport answers a request the same way whatever the state of
    the world. *)
Definition stable : Prop :=
  ∀ w w' req, (http_Client_Do w req).2 = (http_Client_Do w' req).2.

(** The transport fails a request whose context is done, with an error
    that wraps the cause of the context, as net/http does. *)
Definition honours_context : Prop :=
  ∀ w req cause,
    Err (req_ctx req) = Some cause →
    ∃ e, (http_Client_Do w req).2 = inl e ∧ errors_Is e cause = true.

(** A failure of the lookup of edge [k] under a done context: no
    project, and an error that wraps the cause when the request could be
    made at all. *)
Definition canceled_failure (s : ProjectService) (cause : error) (k : nat)
    (d : ProjectDependency.t) (r : dependencyResult) : Prop :=
  index r = k ∧ dep r = d ∧ providingProject r = None
  ∧ ∃ e, err r = Some e
         ∧ (url_Parse (lookupURL s d) = None → errors_Is e cause = true).

(** Two results agree up to the lookups of [u] when they are equal or
    belong to the same edge, whose lookup goes to [u]. *)
Definition agree (u : string) (s : ProjectService) (r r' : dependencyResult)
  : Prop :=
  r = r' ∨ (index r = index r' ∧ dep r = dep r' ∧ lookupURL s (dep r) = u).

Definition gagree (u : string) (s : ProjectService) (g g' : goroutine)
  : Prop :=
  match g, g' with
  | Started k d, Started k' d' => k = k' ∧ d = d'
  | Responded k r, Responded k' r' => k = k' ∧ agree u s r r'
  | _, _ => False
  end.

(** Two runs in step: all is equal but the results of the lookups of
    [u]. *)
Record lockstep (u : string) (s : ProjectService) (σ σ' : State World)
  : Prop := {
  ls_results : Forall2 (agree u s) (results σ) (results σ');
  ls_deps : dependencies σ = dependencies σ';
  ls_loop : loop_i σ = loop_i σ';
  ls_goroutines : Forall2 (gagree u s) (goroutines σ) (goroutines σ');
  ls_wg : wg σ = wg σ';
  ls_ctx : ctx σ = ctx σ';
  ls_net : net σ = net σ'
}.

End Service.

(** The same collaborators with another transport. *)
Definition with_transport `{Collaborators}
    (Do' : World → Request → World * (error + Response)) : Collaborators :=
  {| World := World; url_Parse := url_Parse;
     url_QueryEscape := url_QueryEscape; http_Client_Do := Do';
     json_Unmarshal := json_Unmarshal |}.

(** ** Reading a state of the machine

    Where the edge of index [k] stands in a state: its lookup is still
    to be made ([outstanding]: the loop has not reached it, or its
    goroutine has not called [makeRequest] yet), its goroutine holds the
    result it is about to store ([holding]), or the result is in its
    slot and the goroutine is gone ([stored]). *)

Definition is_Cancel (a : Action) : Prop :=
  match a with Cancel _ => True | _ => False end.

Definition gindex (g : goroutine) : nat :=
  match g with Started k _ => k | Responded k _ => k end.

Definition outstanding {W} (σ : State W) (k : nat) : Prop :=
  (loop_i σ ≤ k)%nat ∨ ∃ d, Started k d ∈ goroutines σ.

Definition holding {W} (σ : State W) (k : nat) (r : dependencyResult) : Prop :=
  Responded k r ∈ goroutines σ.

Definition stored {W} (σ : State W) (k : nat) : Prop :=
  (k < loop_i σ)%nat ∧ k ∉ gindex <$> goroutines σ.

(** What slot [k] may hold at the end of a run that goes through [σ1],
    when every lookup made after [σ1] satisfies [Q]. *)
Definition settles {W}
    (Q : nat → ProjectDependency.t → dependencyResult → Prop)
    (σ1 : State W) (k : nat) (d : ProjectDependency.t) (r : dependencyResult)
  : Prop :=
  (outstanding σ1 k ∧ Q k d r) ∨ holding σ1 k r
  ∨ (stored σ1 k ∧ results σ1 !! k = Some r).

(** The shape of every reachable state. *)
Record wf {W} (σ : State W) : Prop := {
  wf_length : length (results σ) = length (dependencies σ);
  wf_loop : (loop_i σ ≤ length (dependencies σ))%nat;
  wf_live : (length (goroutines σ) ≤ loop_i σ)%nat;
  wf_wg : wg σ = Z.of_nat (length (goroutines σ));
  wf_nodup : NoDup (gindex <$> goroutines σ);
  wf_spawned : ∀ g, g ∈ goroutines σ → (gindex g < loop_i σ)%nat;
  wf_started : ∀ k d, Started k d ∈ goroutines σ → dependencies σ !! k = Some d
}.

(** The invariant of a run from [σ1]. *)
Record Inv {W} (Q : nat → ProjectDependency.t → dependencyResult → Prop)
    (σ1 σ : State W) : Prop := {
  inv_wf : wf σ;
  inv_deps : dependencies σ = dependencies σ1;
  inv_loop : (loop_i σ1 ≤ loop_i σ)%nat;
  inv_started : ∀ k d, Started k d ∈ goroutines σ → outstanding σ1 k;
  inv_holding : ∀ k r, Responded k r ∈ goroutines σ →
    ∃ d, dependencies σ !! k = Some d ∧ settles Q σ1 k d r;
  inv_stored : ∀ k d, dependencies σ !! k = Some d → stored σ k →
    ∃ r, results σ !! k = Some r ∧ settles Q σ1 k d r
}.

(** The steps a goroutine still has to make. *)
Definition weight (g : goroutine) : nat :=
  match g with Started _ _ => 2 | Responded _ _ => 1 end.

Definition work {W} (σ : State W) : nat := sum_list (weight <$> goroutines σ).

(** ** A small catalog to run the service on

    Projects 8 and 10 exist, 999 does not, the lookup of 500 is answered
    with status 500 and the lookup of 503 fails in the transport.  The
    project "classic" (id 1) depends on 8, 10 and 999.  The world counts
    the requests; a request whose context is done fails with the cause
    of the context, as net/http does. *)
Module Catalog.
Definition project (id : Z) (name : string) : Project.t :=
  {| Project.ID := id; Project.Name := name; Project.Permalink := name;
     Project.Description := ""; Project.StartedOn := "";
     Project.CreatedAt := ""; Project.UpdatedAt := "";
     Project.SlackChannel := ""; Project.Nickname := "";
     Project.CPUUsage := ""; Project.MemoryUsage := "";
     Project.Category := ""; Project.DeployTarget := "";
     Project.InScopeForSOC2 := ""; Project.RunsOn := ""; Project.TFA := "";
     Project.CriticalityTier := ""; Project.CalculatedCriticalityTier := "";
     Project.ReleaseState := ""; Project.LinkRepositoryURLs := [];
     Project.ProjectRepositoryURLs := [];
     Project.ProjectStakeholderOwner := "";
     Project.ProjectStakeholderOncall := "";
     Project.DependentProjectDependenciesIds := [];
     Project.PrimaryDeploymentUrl := "";
     Project.AdditionalDeploymentUrls := [] |}.

Definition edge (id dependent providing : Z) : ProjectDependency.t :=
  {| ProjectDependency.ID := id;
     ProjectDependency.DependentProjectID := dependent;
     ProjectDependency.ProvidingProjectID := providing;
     ProjectDependency.CreatedAt := ""; ProjectDependency.UpdatedAt := "";
     ProjectDependency.Description := "";
     ProjectDependency.Optional := false;
     ProjectDependency.DeletedAt := None |}.

Definition base : string := "https://cerebro.zende.sk/projects.json".

Definition ends_with (suffix s : string) : bool :=
  bool_decide
    (String.substring (String.length s - String.length suffix)
                      (String.length suffix) s = suffix).

Definition answer (url : string) : error + Response :=
  if ends_with "search[id]=8" url
  then inr {| StatusCode := 200; Body := inr "p8" |}
  else if ends_with "search[id]=10" url
  then inr {| StatusCode := 200; Body := inr "p10" |}
  else if ends_with "search[id]=500" url
  then inr {| StatusCode := 500; Body := inr "internal error" |}
  else if ends_with "search[id]=503" url
  then inl (errorString "connection refused")
  else if ends_with "search[permalink]=classic" url
  then inr {| StatusCode := 200; Body := inr "classic" |}
  else if ends_with "search[permalink]=lonely" url
  then inr {| StatusCode := 200; Body := inr "lonely" |}
  else inr {| StatusCode := 200; Body := inr "none" |}.

Definition decode (body : string) : error + APIResponse :=
  if bool_decide (body = "p8")
  then inr {| Projects := [project 8 "eight"]; ProjectDependencies := [] |}
  else if bool_decide (body = "p10")
  then inr {| Projects := [project 10 "ten"]; ProjectDependencies := [] |}
  else if bool_decide (body = "classic")
  then inr {| Projects := [project 1 "classic"];
              ProjectDependencies :=
                [edge 100 1 8; edge 101 7 1; edge 102 1 10;
                 edge 103 1 999] |}
  else if bool_decide (body = "lonely")
  then inr {| Projects := [project 2 "lonely"]; ProjectDependencies := [] |}
  else if bool_decide (body = "none")
  then inr {| Projects := []; ProjectDependencies := [] |}
  else inl (errorString "invalid character").

#[export] Instance collaborators : Collaborators :=
  {| World := nat;
     url_Parse := λ _, None;
     url_QueryEscape := λ x, x;
     http_Client_Do := λ w req,
       (S w, match Err (req_ctx req) with
             | Some cause => inl (Errorf_w "Get: " cause)
             | None => answer (URL req)
             end);
     json_Unmarshal := decode |}.

Definition service : ProjectService :=
  {| client := {| baseURL := base; token := "secret" |};
     validator := NewValidator |}.

Definition net0 : Net World := {| world := 0%nat; calls := [] |}.

Definition edges : list ProjectDependency.t :=
  [edge 100 1 8; edge 102 1 10; edge 103 1 999].

Definition canceled : Context := {| Err := Some context_Canceled |}.

Definition sched : list Action :=
  [Spawn; Spawn; Spawn; Run 2; Run 1; Run 2; Run 0; Run 0; Run 0].

(** A run that is canceled after the first edge is stored and while the
    goroutine of the second holds its result. *)
Definition canceled_midway : list Action :=
  [Spawn; Spawn; Run 0; Run 0; Run 0; Cancel context_Canceled].

(** The same catalog, where the lookup of project 10 times out. *)
Definition url10 : string := lookupURL service (edge 102 1 10).

Definition flaky (w : nat) (req : Request) : nat * (error + Response) :=
  if bool_decide (URL req = url10)
  then (S w, inl (errorString "i/o timeout"))
  else http_Client_Do w req.

(** What a report shows of a result. *)
Definition summary (r : dependencyResult)
  : nat * Z * option string * option string :=
  (index r, ProjectDependency.ProvidingProjectID (dep r),
   Project.Name <$> providingProject r, Error <$> err r).

Definition lonely_response : APIResponse :=
  {| Projects := [project 2 "lonely"]; ProjectDependencies := [] |}.

Definition empty_response : APIResponse :=
  {| Projects := []; ProjectDependencies := [] |}.
End Catalog.

(** * The rest of the program: configuration, server and wiring *)

(** ** config.go *)

(** The environment of the process: [os.Getenv] gives the empty string
    for a variable that is not set. *)
Definition os_Getenv (env : gmap string string) (key : string) : string :=
  default "" (env !! key).

(** [HTTPTimeout] is a [time.Duration], a number of nanoseconds. *)
Record Config : Type := {
  CerebroAPIBaseURL : string;
  HTTPTimeout : Z;
  ServerPort : string;
  MCPEndpoint : string;
  CerebroToken : string;
  HTTPMode : bool
}.

Definition time_Second : Z := 1000000000.

Definition getEnvOrDefault (env : gmap string string)
    (key defaultValue : string) : string :=
  let value := os_Getenv env key in
  if decide (value ≠ "") then value else defaultValue.

Definition LoadConfig (env : gmap string string) : error + Config :=
  let cerebroToken := os_Getenv env "CEREBRO_TOKEN" in
  if decide (cerebroToken = "") then
    inl (errorString "CEREBRO_TOKEN environment variable is required")
  else
    inr {| CerebroAPIBaseURL := "https://cerebro.zende.sk/projects.json";
           HTTPTimeout := 30 * time_Second;
           ServerPort := getEnvOrDefault env "SERVER_PORT" ":8080";
           MCPEndpoint := getEnvOrDefault env "MCP_ENDPOINT" "/mcp";
           CerebroToken := cerebroToken;
           HTTPMode := bool_decide (os_Getenv env "HTTP_MODE" = "true") |}.

(** ** The constructors *)

(** [NewCerebroClient]; the [http.Client] it makes, with its timeout of
    thirty seconds, is the transport of the collaborators. *)
Definition NewCerebroClient (baseURL token : string) : CerebroClient :=
  {| baseURL := baseURL; token := token |}.

Definition NewProjectService (client : CerebroClient) (validator : Validator)
  : ProjectService :=
  {| client := client; validator := validator |}.

(** ** The server *)

Definition ToolProjectGetDetails : string := "project_get_details".
Definition ToolProjectGetDependencies : string := "project_get_dependencies".

Module ProjectServer.
Record t : Type := {
  service : ProjectService;
  validator : Validator
}.
End ProjectServer.

Definition NewProjectServer (service : ProjectService) (validator : Validator)
  : ProjectServer.t :=
  {| ProjectServer.service := service; ProjectServer.validator := validator |}.

(** The part of mcp-go that the server uses: a tool result is a list of
    contents, each a text content here; the arguments of a call are
    the dynamic value of [Params.Arguments] when it is a
    [map[string]any], which [GetArguments] returns, and no map (nil)
    otherwise. *)
Record TextContent : Type := {
  Type_ : string;
  Text : string
}.

Record CallToolResult : Type := {
  Content : list TextContent
}.

Record CallToolRequest : Type := {
  Params_Name : string;
  Params_Arguments : option (gmap string any)
}.

Definition GetArguments (request : CallToolRequest) : gmap string any :=
  default ∅ (Params_Arguments request).

Definition createMCPResult (text : string) : CallToolResult :=
  {| Content := [ {| Type_ := "text"; Text := text |} ] |}.

(** The request and the response of the HTTP mode. *)
Record HTTPRequest : Type := {
  Tool : string;
  Arguments : gmap string any
}.

(** [Data] is left out of the JSON when it is nil. *)
Record HTTPResponse : Type := {
  Success : bool;
  Data : option CallToolResult;
  Error_ : string
}.

(** What the handler reads of the [*http.Request]. *)
Record HTTPInput : Type := {
  r_Method : string;
  r_Body : string
}.

(** An [http.ResponseWriter]: the header map, the status code once
    [WriteHeader] was called, and the values encoded to the body. *)
Record ResponseWriter : Type := {
  w_Header : gmap string string;
  w_Status : option Z;
  w_Body : list HTTPResponse
}.

Definition w_Header_Set (key value : string) (w : ResponseWriter)
  : ResponseWriter :=
  {| w_Header := <[key := value]> (w_Header w); w_Status := w_Status w;
     w_Body := w_Body w |}.

(** Only the first call of [WriteHeader] sets the status. *)
Definition WriteHeader (statusCode : Z) (w : ResponseWriter) : ResponseWriter :=
  {| w_Header := w_Header w;
     w_Status := match w_Status w with
                 | Some code => Some code
                 | None => Some statusCode
                 end;
     w_Body := w_Body w |}.

(** [json.NewEncoder(w).Encode(v)]: the first write sends the status 200
    when none was set. *)
Definition Encode (v : HTTPResponse) (w : ResponseWriter) : ResponseWriter :=
  {| w_Header := w_Header w;
     w_Status := match w_Status w with
                 | Some code => Some code
                 | None => Some 200
                 end;
     w_Body := w_Body w ++ [v] |}.

Definition http_MethodPost : string := "POST".
Definition http_StatusOK : Z := 200.
Definition http_StatusBadRequest : Z := 400.
Definition http_StatusNotFound : Z := 404.
Definition http_StatusMethodNotAllowed : Z := 405.
Definition http_StatusInternalServerError : Z := 500.

(** A schedule without its [Cancel] actions. *)
Definition uncancelled (sched : list Action) : list Action :=
  List.filter (λ a, match a with Cancel _ => false | _ => true end) sched.

Section Server.
Context `{Collaborators}.

(** [json.NewDecoder(r.Body).Decode(&httpReq)], which the repository
    does not implement. *)
Variable json_Decode : string → error + HTTPRequest.

Definition handleGetProjectDetails (ps : ProjectServer.t) (n : Net World)
    (ctx : Context) (request : CallToolRequest)
  : Net World * (error + CallToolResult) :=
  let arguments := GetArguments request in
  match ValidateToolArguments arguments with
  | (_, Some err) => (n, inl err)
  | (projectPermalink, None) =>
      match GetProjectDetails (ProjectServer.service ps) n ctx
              projectPermalink with
      | (n', inl err) => (n', inl err)
      | (n', inr result) =>
          (n', inr (createMCPResult (pdr_FormattedText result)))
      end
  end.

Definition handleGetProjectDependencies (ps : ProjectServer.t)
    (sched : list Action) (n : Net World) (ctx : Context)
    (request : CallToolRequest)
  : option (Net World * (error + CallToolResult)) :=
  let arguments := GetArguments request in
  match ValidateToolArguments arguments with
  | (_, Some err) => Some (n, inl err)
  | (projectPermalink, None) =>
      match GetProjectDependencies (ProjectServer.service ps) sched n ctx
              projectPermalink with
      | None => None
      | Some (n', inl err) => Some (n', inl err)
      | Some (n', inr result) =>
          Some (n', inr (createMCPResult (pdsr_FormattedText result)))
      end
  end.

(** [ServeHTTP]; [sched] is the interleaving of the goroutines of the
    fan-out when the tool is the dependencies one, and [None] is a
    panic.  The handlers run under [context.Background()], which nobody
    can cancel: the [Cancel] actions of [sched] are left out.  The
    [switch] has no default: for another tool it leaves [result] and
    [err] nil. *)
Definition ServeHTTP (ps : ProjectServer.t) (sched : list Action)
    (n : Net World) (w : ResponseWriter) (r : HTTPInput)
  : option (Net World * ResponseWriter) :=
  let w := w_Header_Set "Content-Type" "application/json" w in
  if decide (r_Method r ≠ http_MethodPost) then
    let w := WriteHeader http_StatusMethodNotAllowed w in
    Some (n, Encode {| Success := false; Data := None;
                       Error_ := "Only POST method is allowed" |} w)
  else
    match json_Decode (r_Body r) with
    | inl err =>
        let w := WriteHeader http_StatusBadRequest w in
        Some (n, Encode {| Success := false; Data := None;
                           Error_ := "Failed to parse request: "
                                     +:+ Error err |} w)
    | inr httpReq =>
        if decide (Tool httpReq ≠ ToolProjectGetDetails
                   ∧ Tool httpReq ≠ ToolProjectGetDependencies) then
          let w := WriteHeader http_StatusNotFound w in
          Some (n, Encode {| Success := false; Data := None;
                             Error_ := "Tool not found: "
                                       +:+ Tool httpReq |} w)
        else
          let mcpRequest :=
            {| Params_Name := Tool httpReq;
               Params_Arguments := Some (Arguments httpReq) |} in
          let called : option (Net World * option CallToolResult
                               * option error) :=
            if decide (Tool httpReq = ToolProjectGetDetails) then
              match handleGetProjectDetails ps n context_Background
                      mcpRequest with
              | (n', inl err) => Some (n', None, Some err)
              | (n', inr result) => Some (n', Some result, None)
              end
            else if decide (Tool httpReq = ToolProjectGetDependencies) then
              match handleGetProjectDependencies ps (uncancelled sched) n
                      context_Background mcpRequest with
              | None => None
              | Some (n', inl err) => Some (n', None, Some err)
              | Some (n', inr result) => Some (n', Some result, None)
              end
            else Some (n, None, None) in
          match called with
          | None => None
          | Some (n', _, Some err) =>
              let w := WriteHeader http_StatusInternalServerError w in
              Some (n', Encode {| Success := false; Data := None;
                                  Error_ := "Tool execution failed: "
                                            +:+ Error err |} w)
          | Some (n', result, None) =>
              let w := WriteHeader http_StatusOK w in
              Some (n', Encode {| Success := true; Data := result;
                                  Error_ := "" |} w)
          end
    end.

End Server.

(** The first lines of [main]: the configuration and the values built
    from it; [log.Fatalf] ends the process on the error. *)
Definition main_dependencies (env : gmap string string)
  : error + ProjectServer.t :=
  match LoadConfig env with
  | inl err => inl err
  | inr config =>
      let client :=
        NewCerebroClient (CerebroAPIBaseURL config) (CerebroToken config) in
      let validator := NewValidator in
      let service := NewProjectService client validator in
      inr (NewProjectServer service validator)
  end.

(** ** The requests of the client *)

(** The request that [makeRequest] hands to the transport for a URL: a
    GET under the context of the call, with the two headers it sets. *)
Definition requestFor (c : CerebroClient) (ctx : Context) (apiURL : string)
  : Request :=
  {| req_ctx := ctx; Method := "GET"; URL := apiURL;
     Header := <["Accept" := "application/json"]>
                 (<["Authorization" := "Token " +:+ token c]> ∅) |}.

(** A request of the client [c], whatever its context and URL. *)
Definition request_of (c : CerebroClient) (req : Request) : Prop :=
  req = requestFor c (req_ctx req) (URL req).

(** The edges of the goroutines that have not made their lookup yet. *)
Definition started_deps (gs : list goroutine) : list ProjectDependency.t :=
  omap (λ g, match g with Started _ d => Some d | Responded _ _ => None end)
       gs.

Section Requests.
Context `{Collaborators}.

(** The URLs that [http.NewRequestWithContext] accepts. *)
Definition parses (u : string) : Prop := url_Parse u = None.

#[export] Instance parses_dec u : Decision (parses u).
Proof. unfold parses. apply _. Defined.

(** A request of the client [c] for a URL that [buildURL] made. *)
Definition built_by (c : CerebroClient) (req : Request) : Prop :=
  request_of c req ∧ ∃ params, URL req = buildURL c params.

(** The invariant of the log of requests in a run of
    [fetchDependenciesAsync] from the network [n0] on the edges [deps]:
    the requests made so far, with the lookups still to be made, are the
    lookups of the edges. *)
Definition log_inv (s : ProjectService) (n0 : Net World)
    (deps : list ProjectDependency.t) (σ : State World) : Prop :=
  dependencies σ = deps
  ∧ ∃ L, calls (net σ) = calls n0 ++ L
         ∧ Forall (request_of (client s)) L
         ∧ (URL <$> L)
           ++ filter parses (lookupURL s <$> started_deps (goroutines σ))
           ++ filter parses (lookupURL s <$> drop (loop_i σ) deps)
           ≡ₚ filter parses (lookupURL s <$> deps).

End Requests.

(** The slots of the edges whose goroutine has not finished hold the
    zero value of [make]. *)
Definition unwritten {W} (σ : State W) : Prop :=
  ∀ k, (k < length (results σ))%nat → ¬ stored σ k →
       results σ !! k = Some dependencyResult_zero.

(** What the catalog asks of a request: the method, the token and the
    Accept header, and a URL under the base URL. *)
Definition authorized (base token : string) (req : Request) : Prop :=
  Method req = "GET"
  ∧ Header req !! "Authorization" = Some ("Token " +:+ token)
  ∧ Header req !! "Accept" = Some "application/json"
  ∧ ∃ query, URL req = base +:+ "?" +:+ query.

Section Query.
Context `{Collaborators}.

(** One key and value of a query string, as [url.Values.Encode] writes
    them. *)
Definition queryPair (key value : string) : string :=
  url_QueryEscape key +:+ "=" +:+ url_QueryEscape value.

End Query.

(** A decoder of request bodies for the runs on the small catalog: the
    name of the tool, a space, and the permalink. *)
Definition Catalog_json_Decode (body : string) : error + HTTPRequest :=
  match String.index 0 " " body with
  | Some i =>
      inr {| Tool := String.substring 0 i body;
             Arguments :=
               {[ "project_permalink" :=
                    any_string (String.substring (S i)
                                  (String.length body - S i) body) ]} |}
  | None => inl (errorString "unexpected end of JSON input")
  end.

Definition fresh_writer : ResponseWriter :=
  {| w_Header := ∅; w_Status := None; w_Body := [] |}.

Definition Catalog_server : ProjectServer.t :=
  NewProjectServer Catalog.service NewValidator.

(** * Properties *)

Local Open Scope nat_scope.

(** ** The service on the small catalog

    Edges to 8, 10 and 999: the two first resolve, the third is not
    found, whatever the order in which the goroutines run. *)

Section OnCatalogRuns.
#[local] Existing Instance Catalog.collaborators.

Example run_in_order :
  (λ x, map Catalog.summary x.2) <$>
    fetchDependenciesAsync Catalog.service [] Catalog.net0
      context_Background Catalog.edges
  = Some [(0, 8%Z, Some "eight", None); (1, 10%Z, Some "ten", None);
          (2, 999%Z, None, None)].
Proof. vm_compute. reflexivity. Qed.

Example run_last_first :
  (λ x, (map URL (calls x.1.1), map Catalog.summary x.2)) <$>
    fetchDependenciesAsync Catalog.service Catalog.sched Catalog.net0
      context_Background Catalog.edges
  = Some (["https://cerebro.zende.sk/projects.json?search[id]=999";
           "https://cerebro.zende.sk/projects.json?search[id]=10";
           "https://cerebro.zende.sk/projects.json?search[id]=8"],
          [(0, 8%Z, Some "eight", None); (1, 10%Z, Some "ten", None);
           (2, 999%Z, None, None)]).
Proof. vm_compute. reflexivity. Qed.

Example run_with_failures :
  (λ x, map Catalog.summary x.2) <$>
    fetchDependenciesAsync Catalog.service [] Catalog.net0 context_Background
      [Catalog.edge 1 1 500; Catalog.edge 2 1 503; Catalog.edge 3 1 8]
  = Some [(0, 500%Z, None, Some "API error 500: internal error");
          (1, 503%Z, None,
           Some "failed to execute request: connection refused");
          (2, 8%Z, Some "eight", None)].
Proof. vm_compute. reflexivity. Qed.

Example run_canceled_midway :
  (λ x, map Catalog.summary x.2) <$>
    fetchDependenciesAsync Catalog.service Catalog.canceled_midway
      Catalog.net0 context_Background Catalog.edges
  = Some [(0, 8%Z, Some "eight", None); (1, 10%Z, Some "ten", None);
          (2, 999%Z, None,
           Some "failed to execute request: Get: context canceled")].
Proof. vm_compute. reflexivity. Qed.

Example root_query_of_classic :
  (λ x, map URL (calls x.1)) <$>
    GetProjectDependencies Catalog.service [] Catalog.net0
      context_Background "classic"
  = Some ["https://cerebro.zende.sk/projects.json?includes=dependent_project_dependencies&inlines=project_repository_urls,project_stakeholder_owner_name,project_stakeholder_oncall_name,link_deployment_url,link_deployment_urls&search[permalink]=classic";
          "https://cerebro.zende.sk/projects.json?search[id]=8";
          "https://cerebro.zende.sk/projects.json?search[id]=10";
          "https://cerebro.zende.sk/projects.json?search[id]=999"].
Proof. vm_compute. reflexivity. Qed.

Example missing_root :
  (λ x, (length (calls x.1), x.2)) <$>
    GetProjectDependencies Catalog.service [] Catalog.net0
      context_Background "missing-permalink"
  = Some (1, inl (ProjectNotFoundError "missing-permalink")).
Proof. vm_compute. reflexivity. Qed.

End OnCatalogRuns.

Example TrimSpace_ascii :
  strings.TrimSpace "  classic  " = "classic".
Proof. vm_compute. reflexivity. Qed.

(** U+2000 and U+3000 are white space, U+200B is not. *)
Example TrimSpace_unicode :
  strings.TrimSpace_bytes
    [0x20; 0xE2; 0x80; 0x80; 0x41; 0xE3; 0x80; 0x80]%Z = [0x41]%Z
  ∧ strings.TrimSpace_bytes [0x20; 0xE2; 0x80; 0x8B; 0x20]%Z
    = [0xE2; 0x80; 0x8B]%Z
  ∧ strings.TrimSpace_bytes [0xE2; 0x80; 0x80; 0xC2; 0xA0]%Z = [].
Proof. vm_compute. done. Qed.

(** A byte that is no UTF-8 is read as U+FFFD, which is not a space. *)
Example TrimSpace_invalid :
  strings.TrimSpace_bytes [0x20; 0xFF; 0x20]%Z = [0xFF]%Z
  ∧ strings.TrimSpace_bytes [0xE2; 0xE2; 0x80; 0x80]%Z = [0xE2]%Z.
Proof. vm_compute. done. Qed.

(** ** The validator and [strings.TrimSpace] *)

Section Utf8.
Import utf8.

Lemma first_cases b :
  first b = as_ ∧ (b < 0x80)%Z ∨ first b = xx ∨ first b = s1 ∨ first b = s2 ∨ first b = s3
  ∨ first b = s4 ∨ first b = s5 ∨ first b = s6 ∨ first b = s7.
Proof.
  unfold first. repeat case_match; try lia; tauto.
Qed.

Lemma first_ascii c : (c < 0x80)%Z → first c = as_.
Proof. intros Hc. unfold first. case_match; [done|lia]. Qed.

Lemma Decode_ascii c rest :
  (c < 0x80)%Z → DecodeRuneInString (c :: rest) = (c, 1).
Proof.
  intros Hc. unfold DecodeRuneInString. simpl length.
  change ((c :: rest) !!! 0) with c. rewrite (first_ascii c Hc).
  cbn. by rewrite Z.land_m1_r, Z.lor_0_r.
Qed.

Ltac first_case b0 :=
  let E := fresh "E" in
  destruct (first_cases b0) as [[E _]|[E|[E|[E|[E|[E|[E|[E|E]]]]]]]];
  rewrite E;
  repeat match goal with
  | |- context [(as_ <=? ?x)%Z] =>
      let v := eval vm_compute in (as_ <=? x)%Z in
      change (as_ <=? x)%Z with v
  | |- context [Z.testbit ?x 0] =>
      let v := eval vm_compute in (Z.testbit x 0) in
      change (Z.testbit x 0) with v
  | |- context [Z.to_nat (Z.land ?x 7)] =>
      let v := eval vm_compute in (Z.to_nat (Z.land x 7)) in
      change (Z.to_nat (Z.land x 7)) with v
  | |- context [acceptRanges (Z.shiftr ?x 4)] =>
      let v := eval vm_compute in (acceptRanges (Z.shiftr x 4)) in
      change (acceptRanges (Z.shiftr x 4)) with v
  end;
  cbn [length Nat.ltb Nat.leb fst snd].

Lemma Decode_size s :
  s ≠ [] → 1 ≤ (DecodeRuneInString s).2 ≤ length s.
Proof.
  destruct s as [|b0 s]; [done|]. intros _.
  unfold DecodeRuneInString.
  change ((b0 :: s) !!! 0) with b0. cbv zeta.
  destruct s as [|b1 [|b2 [|b3 s]]]; first_case b0;
    repeat case_match; simpl; lia.
Qed.

(** A rune decoded from the whole of [u] is decoded from any string that
    starts with [u]. *)
Lemma Decode_prefix u v r :
  DecodeRuneInString u = (r, length u) → r ≠ RuneError →
  DecodeRuneInString (u ++ v) = (r, length u).
Proof.
  destruct u as [|b0 u]; [by intros [= <-]|].
  unfold DecodeRuneInString. rewrite <- !app_comm_cons.
  change ((b0 :: ?l) !!! 0) with b0. cbv zeta.
  destruct u as [|b1 [|b2 [|b3 [|b4 u]]]]; simpl app;
    (destruct v as [|c1 [|c2 [|c3 v]]]; simpl app);
    first_case b0;
    change ((?x0 :: ?x1 :: ?l) !!! 1) with x1;
    change ((?x0 :: ?x1 :: ?x2 :: ?l) !!! 2) with x2;
    change ((?x0 :: ?x1 :: ?x2 :: ?x3 :: ?l) !!! 3) with x3;
    repeat case_match; intros; simplify_eq; try done.
Qed.

Lemma IsSpace_ascii c :
  (0 ≤ c < 0x80)%Z → unicode.IsSpace c = strings.asciiSpace c.
Proof.
  intros Hc. unfold unicode.IsSpace, strings.asciiSpace, unicode.MaxLatin1.
  rewrite Z.mod_small by lia.
  destruct (Z.leb_spec c 255); [|lia].
  destruct (Z.eqb_spec c 133); [lia|]. destruct (Z.eqb_spec c 160); [lia|].
  by rewrite !orb_false_r.
Qed.

Lemma IsSpace_RuneError : unicode.IsSpace RuneError = false.
Proof. reflexivity. Qed.

Lemma IsSpace_not_RuneError r : unicode.IsSpace r = true → r ≠ RuneError.
Proof. intros Hr ->. by rewrite IsSpace_RuneError in Hr. Qed.

Lemma drop_last (u : list Z) :
  u ≠ [] → drop (length u - 1) u = [u !!! (length u - 1)].
Proof.
  intros Hu. destruct (exists_last Hu) as (u' & x & ->).
  rewrite length_app. simpl. replace (length u' + 1 - 1) with (length u') by lia.
  rewrite drop_app_length.
  by rewrite (list_lookup_total_middle u' [] x (length u')).
Qed.

Lemma DecodeLast_spec u r size :
  u ≠ [] → DecodeLastRuneInString u = (r, size) → r ≠ RuneError →
  1 ≤ size ≤ length u ∧ DecodeRuneInString (drop (length u - size) u) = (r, size).
Proof.
  intros Hu. unfold DecodeLastRuneInString.
  assert (Hlen : 0 < length u) by (destruct u; [done|simpl; lia]).
  destruct (Z.eqb_spec (Z.of_nat (length u)) 0) as [|_]; [lia|].
  replace (Z.to_nat (Z.of_nat (length u) - 1)) with (length u - 1) by lia.
  destruct (Z.ltb_spec (u !!! (length u - 1)) RuneSelf) as [Hlt|_].
  - intros [= <- <-] _. split; [lia|].
    rewrite drop_last by done. by apply Decode_ascii.
  - cbv zeta.
    set (start := backToRuneStart _ _ _ _).
    set (start' := if (start <? 0)%Z then 0%Z else start).
    assert (Hs : (0 ≤ start')%Z).
    { unfold start'. destruct (Z.ltb_spec start 0); lia. }
    destruct (DecodeRuneInString _) as [r' size'] eqn:Hd.
    destruct (Z.eqb_spec (start' + Z.of_nat size') (Z.of_nat (length u)))
      as [Heq|_]; simpl; [|by intros [= <- <-]].
    intros [= <- <-] Hr.
    assert (Hst : Z.to_nat start' = length u - size') by lia.
    unfold slice in Hd. rewrite Nat2Z.id, Hst in Hd.
    rewrite take_ge in Hd by (rewrite length_drop; lia).
    split; [|done].
    destruct (drop (length u - size') u) as [|b l] eqn:Hdrop.
    { by injection Hd as <- <-. }
    pose proof (Decode_size (b :: l) ltac:(done)) as Hsz.
    rewrite Hd in Hsz. simpl in Hsz. lia.
Qed.

Lemma runes_loop_fuel fuel1 fuel2 s :
  length s ≤ fuel1 → length s ≤ fuel2 →
  runes_loop fuel1 s = runes_loop fuel2 s.
Proof.
  revert fuel2 s. induction fuel1 as [|fuel1 IH]; intros fuel2 s H1 H2.
  - destruct s; [|simpl in H1; lia]. by destruct fuel2.
  - destruct s as [|b s]; [by destruct fuel2|].
    destruct fuel2 as [|fuel2]; [simpl in H2; lia|]. simpl.
    pose proof (Decode_size (b :: s) ltac:(done)) as Hsz.
    destruct (DecodeRuneInString (b :: s)) as [r size]. simpl in Hsz.
    f_equal. apply IH; rewrite length_drop; simpl in *; lia.
Qed.

Lemma runes_cons s :
  s ≠ [] →
  runes s = (DecodeRuneInString s).1
            :: runes (drop (DecodeRuneInString s).2 s).
Proof.
  intros Hs. unfold runes. destruct s as [|b s]; [done|]. simpl length.
  cbn [runes_loop].
  pose proof (Decode_size (b :: s) ltac:(done)) as Hsz.
  destruct (DecodeRuneInString (b :: s)) as [r size]. simpl in *.
  f_equal. apply runes_loop_fuel; rewrite ?length_drop; simpl; lia.
Qed.

Lemma runes_ascii c s :
  (c < 0x80)%Z → runes (c :: s) = c :: runes s.
Proof.
  intros Hc. rewrite runes_cons by done. by rewrite Decode_ascii.
Qed.

Lemma indexFunc_loop_spec fuel rest i :
  length rest ≤ fuel →
  (strings.indexFunc_loop fuel rest i unicode.IsSpace false = (-1)%Z
   ∧ forallb unicode.IsSpace (runes rest) = true)
  ∨ (∃ j, strings.indexFunc_loop fuel rest i unicode.IsSpace false
          = Z.of_nat (i + j)
          ∧ j < length rest
          ∧ unicode.IsSpace (DecodeRuneInString (drop j rest)).1 = false
          ∧ forallb unicode.IsSpace (runes rest) = false).
Proof.
  revert rest i. induction fuel as [|fuel IH]; intros rest i Hfuel.
  - destruct rest; [|simpl in Hfuel; lia]. by left.
  - destruct rest as [|b rest]; [by left|].
    cbn [strings.indexFunc_loop]. rewrite runes_cons by done.
    pose proof (Decode_size (b :: rest) ltac:(done)) as Hsz.
    destruct (DecodeRuneInString (b :: rest)) as [r size] eqn:Hd.
    simpl in Hsz. cbn [fst snd forallb].
    destruct (unicode.IsSpace r) eqn:Hr; simpl.
    + destruct (IH (drop size (b :: rest)) (i + size)) as [[-> Hall]|Hj].
      { rewrite length_drop. simpl in *. lia. }
      * by left.
      * destruct Hj as (j & -> & Hlt & Hns & Hall). right.
        exists (size + j). rewrite length_drop in Hlt.
        rewrite drop_drop in Hns.
        split_and!; [f_equal; lia|simpl in *; lia|done..].
    + right. exists 0. rewrite Nat.add_0_r. split_and!; try done.
      * simpl. lia.
      * simpl. by rewrite Hd.
Qed.

Lemma TrimLeftFunc_spec s :
  (strings.TrimLeftFunc s unicode.IsSpace = []
   ∧ forallb unicode.IsSpace (runes s) = true)
  ∨ (∃ t, strings.TrimLeftFunc s unicode.IsSpace = t ∧ t ≠ []
          ∧ unicode.IsSpace (DecodeRuneInString t).1 = false
          ∧ forallb unicode.IsSpace (runes s) = false).
Proof.
  unfold strings.TrimLeftFunc, strings.indexFunc.
  destruct (indexFunc_loop_spec (length s) s 0 (le_n _))
    as [[-> Hall]|(j & -> & Hlt & Hns & Hall)]; [by left|].
  right. destruct (Z.eqb_spec (Z.of_nat (0 + j)) (-1)); [lia|].
  unfold slice. rewrite Nat2Z.id. simpl.
  rewrite take_ge by (rewrite length_drop; lia).
  eexists. split; [done|]. split; [|done].
  intros Hnil. apply (f_equal length) in Hnil. rewrite length_drop in Hnil.
  simpl in Hnil. lia.
Qed.

Lemma lastIndexFunc_loop_range fuel s i :
  (-1 ≤ strings.lastIndexFunc_loop fuel s i unicode.IsSpace false)%Z.
Proof.
  revert i. induction fuel as [|fuel IH]; intros i; simpl; [lia|].
  destruct (0 <? i); [|lia].
  destruct (DecodeLastRuneInString _) as [r size].
  destruct (Bool.eqb _ _); [lia|apply IH].
Qed.

(** When the scan from the end finds white space only, the rune at the
    start of the string is white space too. *)
Lemma lastIndexFunc_loop_all_space fuel s i rest :
  i ≤ fuel → 0 < i ≤ length s →
  strings.lastIndexFunc_loop fuel s i unicode.IsSpace false = (-1)%Z →
  unicode.IsSpace (DecodeRuneInString (take i s ++ rest)).1 = true.
Proof.
  revert i rest. induction fuel as [|fuel IH]; intros i rest Hfuel Hi; [lia|].
  cbn [strings.lastIndexFunc_loop].
  destruct (Nat.ltb_spec 0 i) as [_|]; [|lia].
  unfold slice. rewrite drop_0, Nat.sub_0_r.
  assert (Hne : take i s ≠ []).
  { intros Hnil. apply (f_equal length) in Hnil.
    rewrite length_take in Hnil. simpl in Hnil. lia. }
  assert (Hlen : length (take i s) = i) by (rewrite length_take; lia).
  destruct (DecodeLastRuneInString (take i s)) as [r size] eqn:Hd.
  destruct (unicode.IsSpace r) eqn:Hr; simpl; [|lia].
  destruct (DecodeLast_spec _ _ _ Hne Hd (IsSpace_not_RuneError _ Hr))
    as [Hsz Hdec].
  rewrite Hlen in Hsz, Hdec.
  destruct (decide (i - size = 0)) as [Hz|Hnz].
  - intros _. rewrite Hz, drop_0 in Hdec.
    assert (size = length (take i s)) as -> by lia.
    rewrite (Decode_prefix _ rest r Hdec (IsSpace_not_RuneError _ Hr)).
    done.
  - intros Hloop.
    assert (Hsplit : take i s = take (i - size) s ++ drop (i - size) (take i s)).
    { rewrite <- (take_drop (i - size) (take i s)) at 1.
      rewrite take_take. f_equal. f_equal. lia. }
    rewrite Hsplit, <- app_assoc. apply IH; [lia|lia|done].
Qed.

Lemma TrimRightFunc_nonempty t :
  t ≠ [] → unicode.IsSpace (DecodeRuneInString t).1 = false →
  strings.TrimRightFunc t unicode.IsSpace ≠ [].
Proof.
  intros Ht Hfirst. unfold strings.TrimRightFunc, strings.lastIndexFunc.
  assert (Hlen : 0 < length t) by (destruct t; [done|simpl; lia]).
  pose proof (lastIndexFunc_loop_range (length t) t (length t)) as Hrange.
  set (i := strings.lastIndexFunc_loop _ _ _ _ _) in *.
  assert (Hi : (i ≠ -1)%Z).
  { intros Hi.
    pose proof (lastIndexFunc_loop_all_space (length t) t (length t) []
                  (le_n _) ltac:(lia) Hi) as Hsp.
    rewrite firstn_all, app_nil_r in Hsp. congruence. }
  match goal with
  | |- context [slice t 0 (Z.to_nat ?x)] => set (i' := x)
  end.
  assert (Hi' : (1 ≤ i')%Z).
  { unfold i'. destruct (_ && _); [|lia].
    destruct (decide (i = 0%Z)) as [Hz|Hnz].
    - rewrite Hz. simpl Z.to_nat. unfold slice.
      rewrite drop_0, Nat.sub_0_r, firstn_all.
      pose proof (Decode_size t Ht) as Hsz.
      destruct (DecodeRuneInString t) as [? wid]. simpl in Hsz. lia.
    - destruct (DecodeRuneInString (slice _ _ _)) as [? wid]. lia. }
  unfold slice. rewrite drop_0, Nat.sub_0_r.
  intros Hnil. apply (f_equal length) in Hnil. rewrite length_take in Hnil.
  simpl in Hnil. lia.
Qed.

Lemma TrimRightFunc_nil : strings.TrimRightFunc [] unicode.IsSpace = [].
Proof. reflexivity. Qed.

Lemma TrimFunc_nil_iff s :
  strings.TrimFunc s unicode.IsSpace = []
  ↔ forallb unicode.IsSpace (runes s) = true.
Proof.
  unfold strings.TrimFunc.
  destruct (TrimLeftFunc_spec s) as [[-> Hall]|(t & -> & Ht & Hns & Hall)].
  - by rewrite TrimRightFunc_nil.
  - pose proof (TrimRightFunc_nonempty t Ht Hns). rewrite Hall.
    split; [done|congruence].
Qed.

(** The first loop of [TrimSpace] stops after a run of ASCII spaces. *)
Lemma TrimSpace_start_spec rest start :
  Forall is_byte rest →
  ∃ pre post,
    rest = pre ++ post
    ∧ forallb unicode.IsSpace (runes rest)
      = forallb unicode.IsSpace (runes post)
    ∧ match strings.TrimSpace_start rest start with
      | inl k => k = start + length pre
                 ∧ ∃ c post', post = c :: post' ∧ (RuneSelf ≤ c)%Z
      | inr k => k = start + length pre
                 ∧ (post = []
                    ∨ ∃ c post', post = c :: post' ∧ (0 ≤ c < RuneSelf)%Z
                                 ∧ strings.asciiSpace c = false)
      end.
Proof.
  intros Hb. revert start.
  induction Hb as [|c rest Hc Hb IH]; intros start.
  - exists [], []. split; [done|]. split; [done|]. simpl.
    split; [lia|by left].
  - cbn [strings.TrimSpace_start]. unfold is_byte in Hc.
    destruct (Z.leb_spec RuneSelf c) as [Hge|Hlt].
    { exists [], (c :: rest). split; [done|]. split; [done|]. simpl.
      split; [lia|]. eauto. }
    destruct (strings.asciiSpace c) eqn:Hsp; simpl.
    + destruct (IH (S start)) as (pre & post & -> & Hall & Hres).
      exists (c :: pre), post. split; [done|]. split.
      * unfold RuneSelf in Hlt. rewrite runes_ascii by lia. cbn [forallb].
        rewrite IsSpace_ascii, Hsp by lia. done.
      * destruct (strings.TrimSpace_start _ _); simpl;
          (split; [lia|apply Hres]).
    + exists [], (c :: rest). split; [done|]. split; [done|]. simpl.
      split; [lia|]. right. exists c, rest. split; [done|]. split; [lia|done].
Qed.

(** The second loop stops above [start] when the byte at [start] is not
    a space. *)
Lemma TrimSpace_stop_spec fuel s start stop c :
  s !! start = Some c → (c < RuneSelf)%Z → strings.asciiSpace c = false →
  start < stop → stop - start ≤ fuel →
  match strings.TrimSpace_stop fuel s start stop with
  | inl k | inr k => start < k ≤ stop
  end.
Proof.
  intros Hc Hlt Hsp. revert stop.
  induction fuel as [|fuel IH]; intros stop Hstop Hfuel; [lia|].
  cbn [strings.TrimSpace_stop].
  destruct (Nat.ltb_spec start stop) as [_|]; [|lia].
  destruct (Z.leb_spec RuneSelf (s !!! (stop - 1))) as [Hge|Hlt']; [lia|].
  destruct (strings.asciiSpace (s !!! (stop - 1))) eqn:Hsp'; simpl; [|lia].
  destruct (decide (stop - 1 = start)) as [Heq|Hne].
  { rewrite Heq, (list_lookup_total_correct _ _ _ Hc) in Hsp'. congruence. }
  specialize (IH (stop - 1) ltac:(lia) ltac:(lia)).
  destruct (strings.TrimSpace_stop _ _ _ _); lia.
Qed.

Lemma slice_nonempty (s : list Z) lo hi :
  lo < hi → lo < length s → slice s lo hi ≠ [].
Proof.
  intros Hlt Hlen Hnil. apply (f_equal length) in Hnil. unfold slice in Hnil.
  rewrite length_take, length_drop in Hnil. simpl in Hnil. lia.
Qed.

Lemma TrimSpace_bytes_nil_iff s :
  Forall is_byte s →
  strings.TrimSpace_bytes s = []
  ↔ forallb unicode.IsSpace (runes s) = true.
Proof.
  intros Hb. unfold strings.TrimSpace_bytes.
  destruct (TrimSpace_start_spec s 0 Hb) as (pre & post & -> & -> & Hres).
  destruct (strings.TrimSpace_start _ _) as [k|k]; destruct Hres as [-> Hpost];
    cbn [Nat.add].
  - unfold slice. rewrite drop_app_length, take_ge by (rewrite length_app; lia).
    apply TrimFunc_nil_iff.
  - destruct Hpost as [->|(c & post' & -> & Hc & Hsp)].
    + rewrite app_nil_r. simpl.
      assert (Hstop : ∀ fuel, strings.TrimSpace_stop fuel pre (length pre)
                                (length pre) = inr (length pre)).
      { intros [|fuel]; [done|]. simpl. by rewrite Nat.ltb_irrefl. }
      rewrite Hstop. unfold slice. by rewrite Nat.sub_diag, take_0.
    + assert (Hc' : (0 ≤ c < 128)%Z) by (unfold RuneSelf in Hc; lia).
      rewrite runes_ascii by lia. cbn [forallb].
      rewrite IsSpace_ascii, Hsp by lia. simpl.
      split; [|done]. intros Hnil. exfalso. revert Hnil.
      assert (Hlook : (pre ++ c :: post') !! (length pre) = Some c).
      { by rewrite list_lookup_middle. }
      assert (Hlen : length pre < length (pre ++ c :: post')).
      { rewrite length_app. simpl. lia. }
      pose proof (TrimSpace_stop_spec (length (pre ++ c :: post'))
                    (pre ++ c :: post') (length pre)
                    (length (pre ++ c :: post')) c Hlook
                    (proj2 Hc) Hsp Hlen ltac:(lia)) as Hstop.
      destruct (strings.TrimSpace_stop _ _ _ _) as [k|k].
      * apply TrimRightFunc_nonempty; [apply slice_nonempty; lia|].
        unfold slice. rewrite drop_app_length.
        destruct (k - length pre) as [|m] eqn:Hk; [lia|]. simpl.
        rewrite Decode_ascii by lia. simpl.
        rewrite IsSpace_ascii by lia. done.
      * apply slice_nonempty; lia.
Qed.

Lemma bytes_of_string_is_byte s : Forall is_byte (bytes_of_string s).
Proof.
  unfold bytes_of_string. apply Forall_map, Forall_forall. intros a _.
  unfold is_byte. simpl. pose proof (N_ascii_bounded a). lia.
Qed.

Lemma string_of_bytes_nil l : string_of_bytes l = "" ↔ l = [].
Proof. destruct l; [done|]. simpl. split; intros; discriminate. Qed.

Lemma TrimSpace_empty_iff s :
  strings.TrimSpace s = "" ↔ onlyWhitespace s = true.
Proof.
  unfold strings.TrimSpace, onlyWhitespace. rewrite string_of_bytes_nil.
  apply TrimSpace_bytes_nil_iff, bytes_of_string_is_byte.
Qed.
End Utf8.


(** C9: a permalink made of white space only (the empty string included)
    is rejected by [ValidateProjectPermalink] with a [ValidationError]
    for the field project_permalink, and any permalink with a rune that
    is not white space is accepted; [ValidateToolArguments] gives a
    [ValidationError] when the argument project_permalink is absent or
    is not a string, and validates the string otherwise. *)
Theorem ValidateProjectPermalink_rejects_blank :
  (∀ permalink,
     ValidateProjectPermalink permalink
     = if onlyWhitespace permalink
       then Some (ValidationError "project_permalink" "cannot be empty")
       else None)
  ∧ (∀ arguments : gmap string any,
       (∀ p, arguments !! "project_permalink" ≠ Some (any_string p)) →
       ValidateToolArguments arguments
       = ("", Some (ValidationError "project_permalink" "must be a string")))
  ∧ (∀ (arguments : gmap string any) p,
       arguments !! "project_permalink" = Some (any_string p) →
       ValidateToolArguments arguments = (p, ValidateProjectPermalink p)).
Proof.
  split_and!.
  - intros permalink. unfold ValidateProjectPermalink.
    pose proof (TrimSpace_empty_iff permalink) as Hiff.
    case_decide as Ht; destruct (onlyWhitespace permalink); try done.
    + by apply Hiff in Ht.
    + by destruct Ht; apply Hiff.
  - intros arguments Hno. unfold ValidateToolArguments.
    destruct (arguments !! "project_permalink") as [[]|] eqn:Hv; try done.
    by destruct (Hno s).
  - intros arguments p Hp. unfold ValidateToolArguments. by rewrite Hp.
Qed.

(** ** The goroutines of [fetchDependenciesAsync] *)

Section Invariant.
Context `{Collaborators}.
Implicit Types σ : State World.

Lemma lookup_middle {A} (l : list A) (j : nat) (x : A) :
  l !! j = Some x →
  ∃ l1 l2, l = l1 ++ x :: l2 ∧ length l1 = j
           ∧ (∀ y, <[j := y]> l = l1 ++ y :: l2) ∧ delete j l = l1 ++ l2.
Proof.
  intros Hj. exists (take j l), (drop (S j) l).
  pose proof (lookup_lt_Some _ _ _ Hj) as Hlt.
  assert (Hlen : length (take j l) = j) by (rewrite length_take; lia).
  split; [by rewrite take_drop_middle|]. split; [done|]. split.
  - intros y. rewrite <- (take_drop_middle l j x Hj) at 1.
    rewrite <- Hlen at 1. by rewrite insert_app_r_alt, Nat.sub_diag by lia.
  - apply delete_take_drop.
Qed.

Lemma elem_of_middle_replace {A} (l1 l2 : list A) (x y z : A) :
  z ∈ l1 ++ y :: l2 → z = y ∨ z ∈ l1 ++ x :: l2.
Proof.
  rewrite !elem_of_app, !elem_of_cons. intros [?|[?|?]]; auto.
Qed.

Lemma wf_init n c deps : wf (fetchDependenciesAsync_init n c deps).
Proof.
  split; simpl; try done.
  - by rewrite length_replicate.
  - lia.
  - constructor.
  - intros g Hg. by apply elem_of_nil in Hg.
  - intros k d Hg. by apply elem_of_nil in Hg.
Qed.

Lemma Inv_refl Q σ : wf σ → Inv Q σ σ.
Proof.
  intros Hwf. split; try done.
  - intros k d Hk. right. by exists d.
  - intros k r Hk.
    pose proof (wf_spawned _ Hwf _ Hk) as Hlt. simpl in Hlt.
    pose proof (wf_loop _ Hwf) as Hle.
    destruct (lookup_lt_is_Some_2 (dependencies σ) k) as [d Hd]; [lia|].
    exists d. split; [done|]. right. by left.
  - intros k d Hd Hst.
    destruct (lookup_lt_is_Some_2 (results σ) k) as [r Hr].
    { rewrite (wf_length _ Hwf). by apply lookup_lt_Some in Hd. }
    exists r. split; [done|]. right. by right.
Qed.


Lemma exec_app s sched1 sched2 σ :
  exec s (sched1 ++ sched2) σ
  = match exec s sched1 σ with
    | Some σ' => exec s sched2 σ'
    | None => None
    end.
Proof.
  revert σ. induction sched1 as [|a sched1 IH]; intros σ; simpl; [done|].
  destruct (step s a σ); by rewrite ?IH.
Qed.

#[local] Arguments Nat.min : simpl never.

Lemma exec_Spawn_loop s m σ σ' :
  exec s (replicate m Spawn) σ = Some σ' →
  loop_i σ ≤ length (dependencies σ) →
  dependencies σ' = dependencies σ
  ∧ loop_i σ' = (loop_i σ + m) `min` length (dependencies σ).
Proof.
  revert σ. induction m as [|m IH]; intros σ Hex Hle; simpl in Hex.
  - simplify_eq. split; [done|lia].
  - destruct (dependencies σ !! loop_i σ) as [d|] eqn:Hd.
    + apply lookup_lt_Some in Hd. apply IH in Hex as [-> ->]; simpl; [|lia].
      split; [done|lia].
    + apply lookup_ge_None in Hd. apply IH in Hex as [-> ->]; [|done].
      split; [done|lia].
Qed.

Lemma exec_Run0_work s m σ σ' :
  exec s (replicate m (Run 0)) σ = Some σ' →
  dependencies σ' = dependencies σ ∧ loop_i σ' = loop_i σ
  ∧ work σ' = work σ - m.
Proof.
  revert σ. induction m as [|m IH]; intros σ Hex; simpl in Hex.
  - simplify_eq. repeat split; lia.
  - destruct (goroutines σ) as [|[k d|k r] gs] eqn:Hgs; simpl in Hex.
    + apply IH in Hex as (-> & -> & ->). unfold work. rewrite Hgs. done.
    + destruct (fetchDependenciesAsync_func1 s (net σ) (ctx σ) k d)
        as [n' res].
      apply IH in Hex as (-> & -> & ->). unfold work. simpl. rewrite Hgs.
      simpl. repeat split; lia.
    + repeat case_decide; try done.
      apply IH in Hex as (-> & -> & ->). unfold work. simpl. rewrite Hgs.
      simpl. repeat split; lia.
Qed.

Lemma work_bounds σ :
  length (goroutines σ) ≤ work σ ≤ 2 * length (goroutines σ).
Proof.
  unfold work. induction (goroutines σ) as [|[] gs IH]; csimpl; lia.
Qed.

Section Preservation.
Variable s : ProjectService.
Variable Q : nat → ProjectDependency.t → dependencyResult → Prop.
Variable J : State World → Prop.
Variable A : Action → Prop.
Variable σ1 : State World.
Hypothesis A_Spawn : A Spawn.
Hypothesis A_Run : ∀ k, A (Run k).
Hypothesis J_step : ∀ a σ σ', A a → J σ → step s a σ = Stepped σ' → J σ'.
Hypothesis J_Q : ∀ σ k d,
  J σ → Q k d (fetchDependenciesAsync_func1 s (net σ) (ctx σ) k d).2.

Lemma step_Spawn_Inv σ d :
  Inv Q σ1 σ → dependencies σ !! loop_i σ = Some d →
  Inv Q σ1 {| results := results σ; dependencies := dependencies σ;
              loop_i := S (loop_i σ);
              goroutines := goroutines σ ++ [Started (loop_i σ) d];
              wg := (wg σ + 1)%Z; ctx := ctx σ; net := net σ |}.
Proof using All.
  intros [Hwf Hdeps Hloop Hst Hho Hsto] Hd.
  destruct Hwf as [W1 W2 W3 W4 W5 W6 W7].
  pose proof (lookup_lt_Some _ _ _ Hd) as Hlt.
  split; [split|..]; simpl.
  - done.
  - lia.
  - rewrite length_app; simpl; lia.
  - rewrite length_app; simpl; lia.
  - rewrite fmap_app. apply NoDup_app. split; [done|]. split.
    + intros x Hx Hx'. apply list_elem_of_fmap in Hx as (g & -> & Hg).
      apply W6 in Hg. simpl in Hx'. apply list_elem_of_singleton in Hx'. lia.
    + simpl. apply NoDup_singleton.
  - intros g [Hg|Hg]%elem_of_app.
    + apply W6 in Hg. lia.
    + apply list_elem_of_singleton in Hg as ->. simpl. lia.
  - intros k d' [Hg|Hg]%elem_of_app; [by apply W7|].
    apply list_elem_of_singleton in Hg. by simplify_eq.
  - done.
  - lia.
  - intros k d' [Hg|Hg]%elem_of_app; [by eapply Hst|].
    apply list_elem_of_singleton in Hg. simplify_eq. by left.
  - intros k r [Hg|Hg]%elem_of_app; [by apply Hho|].
    apply list_elem_of_singleton in Hg. simplify_eq.
  - intros k d' Hk [Hk1 Hk2]. simpl in *. apply Hsto; [done|].
    rewrite fmap_app in Hk2. apply not_elem_of_app in Hk2 as [Hk2 Hk3].
    simpl in Hk3. apply not_elem_of_cons in Hk3 as [Hk3 _].
    split; [lia|done].
Qed.

Lemma step_Run_Started_Inv σ j k d n' res :
  Inv Q σ1 σ → J σ → goroutines σ !! j = Some (Started k d) →
  fetchDependenciesAsync_func1 s (net σ) (ctx σ) k d = (n', res) →
  Inv Q σ1 {| results := results σ; dependencies := dependencies σ;
              loop_i := loop_i σ;
              goroutines := <[j := Responded k res]> (goroutines σ);
              wg := wg σ; ctx := ctx σ; net := n' |}.
Proof using All.
  intros [Hwf Hdeps Hloop Hst Hho Hsto] HJ Hj Hres.
  destruct Hwf as [W1 W2 W3 W4 W5 W6 W7].
  destruct (lookup_middle _ _ _ Hj) as (l1 & l2 & Hgs & Hl1 & Hins & _).
  assert (HQ : Q k d res).
  { pose proof (J_Q σ k d HJ) as HQ. by rewrite Hres in HQ. }
  assert (Hidx : gindex <$> <[j := Responded k res]> (goroutines σ)
                 = gindex <$> goroutines σ).
  { rewrite Hins, Hgs, !fmap_app. done. }
  assert (Hin : Started k d ∈ goroutines σ).
  { by eapply list_elem_of_lookup_2. }
  split; [split|..]; simpl.
  - done.
  - done.
  - by rewrite length_insert.
  - by rewrite length_insert.
  - by rewrite Hidx.
  - intros g Hg. rewrite Hins in Hg.
    destruct (elem_of_middle_replace l1 l2 (Started k d) _ _ Hg) as [->|Hg'].
    + by apply (W6 (Started k d)).
    + apply W6. by rewrite Hgs.
  - intros k' d' Hg. rewrite Hins in Hg.
    destruct (elem_of_middle_replace l1 l2 (Started k d) _ _ Hg) as [?|Hg']; [done|].
    apply W7. by rewrite Hgs.
  - done.
  - done.
  - intros k' d' Hg. rewrite Hins in Hg.
    destruct (elem_of_middle_replace l1 l2 (Started k d) _ _ Hg) as [?|Hg']; [done|].
    apply (Hst k' d'). by rewrite Hgs.
  - intros k' r Hg. rewrite Hins in Hg.
    destruct (elem_of_middle_replace l1 l2 (Started k d) _ _ Hg) as [Heq|Hg'].
    + injection Heq as -> ->. exists d. split; [by apply W7|].
      left. split; [|done]. by eapply Hst.
    + apply Hho. by rewrite Hgs.
  - intros k' d' Hk [Hk1 Hk2]. simpl in *. rewrite Hidx in Hk2.
    by apply Hsto.
Qed.

Lemma step_Run_Responded_Inv σ j k r :
  Inv Q σ1 σ → goroutines σ !! j = Some (Responded k r) →
  (k < length (results σ)) ∧ (0 < wg σ)%Z ∧
  Inv Q σ1 {| results := <[k := r]> (results σ);
              dependencies := dependencies σ; loop_i := loop_i σ;
              goroutines := delete j (goroutines σ);
              wg := (wg σ - 1)%Z; ctx := ctx σ; net := net σ |}.
Proof using All.
  intros [Hwf Hdeps Hloop Hst Hho Hsto] Hj.
  destruct Hwf as [W1 W2 W3 W4 W5 W6 W7].
  destruct (lookup_middle _ _ _ Hj) as (l1 & l2 & Hgs & Hl1 & _ & Hdel).
  assert (Hin : Responded k r ∈ goroutines σ).
  { by eapply list_elem_of_lookup_2. }
  pose proof (W6 _ Hin) as Hk. simpl in Hk.
  assert (Hlen : 0 < length (goroutines σ)).
  { rewrite Hgs, length_app. simpl. lia. }
  split; [lia|]. split; [lia|].
  assert (Hsub : ∀ g, g ∈ delete j (goroutines σ) → g ∈ goroutines σ).
  { intros g. apply list_elem_of_delete_inv. }
  split; [split|..]; simpl.
  - by rewrite length_insert.
  - done.
  - rewrite length_delete by eauto. lia.
  - rewrite length_delete by eauto. lia.
  - rewrite list_fmap_delete. eapply sublist_NoDup; [done|apply sublist_delete].
  - intros g Hg. by apply W6, Hsub.
  - intros k' d' Hg. by apply W7, Hsub.
  - done.
  - done.
  - intros k' d' Hg. by eapply Hst, Hsub.
  - intros k' r' Hg. by apply Hho, Hsub.
  - intros k' d' Hk' [Hk1 Hk2]. simpl in *.
    destruct (decide (k' = k)) as [->|Hne].
    + exists r. split; [apply list_lookup_insert_eq; lia|].
      destruct (Hho _ _ Hin) as (d'' & Hd'' & Hset). by simplify_eq.
    + rewrite list_lookup_insert_ne by done. apply Hsto; [done|].
      split; [done|]. intros Hmem. apply Hk2.
      rewrite Hdel. rewrite Hgs in Hmem.
      rewrite fmap_app, elem_of_app in *. rewrite fmap_cons in Hmem.
      rewrite elem_of_cons in Hmem. simpl in Hmem.
      destruct Hmem as [?|[?|?]]; [by left|done|by right].
Qed.

Lemma step_Cancel_Inv σ cause :
  Inv Q σ1 σ →
  Inv Q σ1 {| results := results σ; dependencies := dependencies σ;
              loop_i := loop_i σ; goroutines := goroutines σ; wg := wg σ;
              ctx := {| Err := Some cause |}; net := net σ |}.
Proof using All.
  intros [Hwf Hdeps Hloop Hst Hho Hsto]. destruct Hwf.
  split; [split|..]; done.
Qed.

Lemma step_Inv σ a :
  A a → Inv Q σ1 σ → J σ →
  match step s a σ with
  | Stepped σ' => Inv Q σ1 σ' ∧ J σ'
  | Disabled => True
  | Panicked => False
  end.
Proof using All.
  intros HA HI HJ. destruct (step s a σ) as [σ'| |] eqn:Hstep; [|done|].
  - split; [|by eapply J_step]. clear HA. destruct a as [|j|cause]; simpl in Hstep.
    + destruct (dependencies σ !! loop_i σ) as [d|] eqn:Hd; [|done].
      simplify_eq. by apply step_Spawn_Inv.
    + destruct (goroutines σ !! j) as [[k d|k r]|] eqn:Hj; [| |done].
      * destruct (fetchDependenciesAsync_func1 s (net σ) (ctx σ) k d)
          as [n' res] eqn:Hres.
        simplify_eq. by eapply step_Run_Started_Inv.
      * destruct (step_Run_Responded_Inv σ j k r HI Hj) as (? & ? & ?).
        repeat case_decide; by simplify_eq.
    + destruct (Err (ctx σ)); [done|]. simplify_eq.
      by apply step_Cancel_Inv.
  - destruct a as [|j|cause]; simpl in Hstep.
    + by destruct (dependencies σ !! loop_i σ).
    + destruct (goroutines σ !! j) as [[k d|k r]|] eqn:Hj; [| |done].
      * by destruct (fetchDependenciesAsync_func1 s (net σ) (ctx σ) k d).
      * destruct (step_Run_Responded_Inv σ j k r HI Hj) as (? & ? & ?).
        repeat case_decide; done.
    + by destruct (Err (ctx σ)).
Qed.

Lemma exec_Inv sched σ :
  Forall A sched → Inv Q σ1 σ → J σ →
  ∃ σ', exec s sched σ = Some σ' ∧ Inv Q σ1 σ' ∧ J σ'.
Proof using All.
  intros HA. revert σ.
  induction HA as [|a sched Ha _ IH]; intros σ HI HJ; simpl.
  - by exists σ.
  - pose proof (step_Inv σ a Ha HI HJ) as Hstep.
    destruct (step s a σ) as [σ'| |]; [|by apply IH|done].
    destruct Hstep. by apply IH.
Qed.

Lemma completion_allowed deps : Forall A (completion deps).
Proof using All.
  unfold completion. apply Forall_app. split; by apply Forall_replicate.
Qed.


Lemma completion_returns σ :
  Inv Q σ1 σ → J σ →
  ∃ σ', exec s (completion (dependencies σ)) σ = Some σ'
        ∧ Inv Q σ1 σ' ∧ J σ'
        ∧ loop_i σ' = length (dependencies σ') ∧ goroutines σ' = [].
Proof using All.
  intros HI HJ. unfold completion. rewrite exec_app.
  destruct (exec_Inv (replicate (length (dependencies σ)) Spawn) σ
              (Forall_replicate _ _ _ A_Spawn) HI HJ)
    as (σa & Ha & HIa & HJa).
  rewrite Ha.
  destruct (exec_Spawn_loop _ _ _ _ Ha (wf_loop _ (inv_wf _ _ _ HI)))
    as [Hda Hla].
  destruct (exec_Inv (replicate (2 * length (dependencies σ)) (Run 0)) σa
              (Forall_replicate _ _ _ (A_Run 0)) HIa HJa)
    as (σb & Hb & HIb & HJb).
  exists σb. split; [done|]. split; [done|]. split; [done|].
  destruct (exec_Run0_work _ _ _ _ Hb) as (Hdb & Hlb & Hwb).
  pose proof (work_bounds σa) as Hwa. pose proof (work_bounds σb) as Hwb'.
  pose proof (wf_live _ (inv_wf _ _ _ HIa)) as Hlive.
  split; [rewrite Hlb, Hla, Hdb, Hda; lia|].
  apply length_zero_iff_nil. lia.
Qed.

Lemma returned_results σ :
  Inv Q σ1 σ → loop_i σ = length (dependencies σ) → goroutines σ = [] →
  returned σ ∧ length (results σ) = length (dependencies σ1)
  ∧ ∀ k d, dependencies σ1 !! k = Some d →
      ∃ r, results σ !! k = Some r ∧ settles Q σ1 k d r.
Proof using All.
  intros HI Hloop Hgs. pose proof (inv_wf _ _ _ HI) as Hwf.
  split; [|split].
  - split; [done|]. rewrite (wf_wg _ Hwf), Hgs. done.
  - rewrite (wf_length _ Hwf). by rewrite (inv_deps _ _ _ HI).
  - intros k d Hd. rewrite <- (inv_deps _ _ _ HI) in Hd.
    apply (inv_stored _ _ _ HI); [done|]. split.
    + rewrite Hloop. by apply lookup_lt_Some in Hd.
    + rewrite Hgs. simpl. apply not_elem_of_nil.
Qed.

(** A whole run from [σ], driven by any schedule and then to its end. *)
Lemma run_settles sched σ :
  Forall A sched → Inv Q σ1 σ → J σ →
  ∃ σ', exec s (sched ++ completion (dependencies σ)) σ = Some σ'
        ∧ returned σ' ∧ J σ'
        ∧ length (results σ') = length (dependencies σ1)
        ∧ ∀ k d, dependencies σ1 !! k = Some d →
            ∃ r, results σ' !! k = Some r ∧ settles Q σ1 k d r.
Proof using All.
  intros HA HI HJ. rewrite exec_app.
  destruct (exec_Inv sched σ HA HI HJ) as (σa & Ha & HIa & HJa). rewrite Ha.
  assert (Hda : dependencies σ = dependencies σa).
  { by rewrite (inv_deps _ _ _ HI), (inv_deps _ _ _ HIa). }
  rewrite Hda.
  destruct (completion_returns σa HIa HJa) as (σb & Hb & HIb & HJb & Hl & Hg).
  exists σb. split; [done|].
  destruct (returned_results σb HIb Hl Hg) as (? & ? & ?). done.
Qed.

End Preservation.

End Invariant.

(** ** The resolver *)

Section Resolver.
Context `{Collaborators}.

Implicit Types (s : ProjectService) (n : Net World) (c : Context)
  (d : ProjectDependency.t) (r : dependencyResult) (k : nat).

Lemma func1_fields s n c k d :
  let r := (fetchDependenciesAsync_func1 s n c k d).2 in
  index r = k ∧ dep r = d
  ∧ (is_Some (err r) → providingProject r = None).
Proof.
  unfold fetchDependenciesAsync_func1.
  destruct (makeRequest _ _ _ _) as [n' [e|resp]]; simpl; [done|].
  destruct (Projects resp); simpl; split_and!; try done.
  all: by intros [? ?].
Qed.

Lemma makeRequest_stable (cl : CerebroClient) n n' c u :
  stable → (makeRequest cl n c u).2 = (makeRequest cl n' c u).2.
Proof.
  intros Hst. unfold makeRequest.
  destruct (http_NewRequestWithContext c "GET" u) as [e|req]; [done|].
  match goal with
  | |- context [http_Client_Do (world n) ?q] =>
      pose proof (Hst (world n) (world n') q) as Hq;
      destruct (http_Client_Do (world n) q) as [w1 a1];
      destruct (http_Client_Do (world n') q) as [w2 a2]
  end.
  simpl in Hq. subst a2. destruct a1 as [e|resp]; [done|].
  destruct (Body resp); [done|].
  destruct (_ || _); [done|]. by destruct (json_Unmarshal _).
Qed.

Lemma func1_stable s n n' c k d :
  stable →
  (fetchDependenciesAsync_func1 s n c k d).2
  = (fetchDependenciesAsync_func1 s n' c k d).2.
Proof.
  intros Hst. unfold fetchDependenciesAsync_func1.
  pose proof (makeRequest_stable (client s) n n' c
    (buildURL (client s)
       {| searchKey := "id";
          searchValue := pretty (ProjectDependency.ProvidingProjectID d);
          inlines := ""; includes := "" |}) Hst) as Hm.
  destruct (makeRequest _ n _ _) as [n1 a1].
  destruct (makeRequest _ n' _ _) as [n2 a2].
  simpl in Hm. subst a2. destruct a1 as [e|resp]; [done|].
  by destruct (Projects resp).
Qed.

Lemma settles_init Q n c deps k d r :
  settles Q (fetchDependenciesAsync_init n c deps) k d r → Q k d r.
Proof.
  intros [[_ HQ]|[Hh|[[Hlt _] _]]]; [done| |].
  - unfold holding in Hh. simpl in Hh. by apply elem_of_nil in Hh.
  - simpl in Hlt. lia.
Qed.

(** Every run returns, and slot [k] holds what the goroutine of edge [k]
    made of its lookup. *)
Lemma fetchDependenciesAsync_slots s sched n c deps :
  ∃ n' c' rs,
    fetchDependenciesAsync s sched n c deps = Some (n', c', rs)
    ∧ length rs = length deps
    ∧ ∀ k d, deps !! k = Some d →
        ∃ nk ck, rs !! k = Some (fetchDependenciesAsync_func1 s nk ck k d).2.
Proof.
  set (Q := λ k d r, ∃ nk ck, r = (fetchDependenciesAsync_func1 s nk ck k d).2).
  assert (HQ : ∀ (σ : State World) k d, True →
            Q k d (fetchDependenciesAsync_func1 s (net σ) (ctx σ) k d).2).
  { intros σ k d _. by exists (net σ), (ctx σ). }
  destruct (run_settles s Q (λ _, True) (λ _, True)
              (fetchDependenciesAsync_init n c deps) I (λ _, I)
              (λ _ _ _ _ _ _, I) HQ sched
              (fetchDependenciesAsync_init n c deps)
              (Forall_true _ _ (λ _, I)) (Inv_refl _ _ (wf_init n c deps)) I)
    as (σ' & Hex & _ & _ & Hlen & Hres).
  unfold fetchDependenciesAsync. simpl in Hex. rewrite Hex.
  exists (net σ'), (ctx σ'), (results σ'). split; [done|]. split; [done|].
  intros k d Hd. destruct (Hres k d Hd) as (r & Hr & Hset).
  apply settles_init in Hset as (nk & ck & ->). by exists nk, ck.
Qed.

(** C1: for an input list of N dependencies, [fetchDependenciesAsync]
    returns, whatever the schedule, a list of exactly N results, and the
    result at index [k] is what the goroutine of the [k]-th edge made
    of its own lookup, whichever lookups succeed or fail.  When the
    transport answers a request the same way at any time and the
    context is not canceled during the run, the list is the list of the
    lookups of the edges, in the order of the input, for every
    schedule: the order of completion does not show. *)
Theorem fetchDependenciesAsync_order s sched n c deps :
  (∃ n' c' rs,
     fetchDependenciesAsync s sched n c deps = Some (n', c', rs)
     ∧ length rs = length deps
     ∧ ∀ k d, deps !! k = Some d →
         ∃ nk ck,
           rs !! k = Some (fetchDependenciesAsync_func1 s nk ck k d).2)
  ∧ (stable → Forall (λ a, ¬ is_Cancel a) sched →
     ∃ n' rs,
       fetchDependenciesAsync s sched n c deps = Some (n', c, rs)
       ∧ rs = imap (λ k d, (fetchDependenciesAsync_func1 s n c k d).2) deps).
Proof.
  split; [apply fetchDependenciesAsync_slots|].
  intros Hst Hsched.
  set (Q := λ k d r, r = (fetchDependenciesAsync_func1 s n c k d).2).
  set (J := λ σ : State World, ctx σ = c).
  set (A := λ a, ¬ is_Cancel a).
  assert (HJ : ∀ a σ σ', A a → J σ → step s a σ = Stepped σ' → J σ').
  { intros a σ σ' Ha HJ Hstep. unfold J in *.
    destruct a as [|j|cause]; simpl in Hstep.
    - destruct (dependencies σ !! loop_i σ); by simplify_eq.
    - destruct (goroutines σ !! j) as [[k d|k r]|]; [| |done].
      + destruct (fetchDependenciesAsync_func1 _ _ _ _ _). by simplify_eq.
      + repeat case_decide; by simplify_eq.
    - by destruct Ha. }
  assert (HQ : ∀ σ k d, J σ →
            Q k d (fetchDependenciesAsync_func1 s (net σ) (ctx σ) k d).2).
  { intros σ k d Hc. unfold Q, J in *. rewrite Hc. by apply func1_stable. }
  destruct (run_settles s Q J A (fetchDependenciesAsync_init n c deps)
              (λ x, x) (λ _ x, x) HJ HQ sched
              (fetchDependenciesAsync_init n c deps) Hsched
              (Inv_refl _ _ (wf_init n c deps)) eq_refl)
    as (σ' & Hex & _ & Hc & Hlen & Hres).
  unfold fetchDependenciesAsync. simpl in Hex. rewrite Hex.
  exists (net σ'), (results σ'). rewrite Hc. split; [done|].
  apply list_eq. intros k. rewrite list_lookup_imap.
  destruct (deps !! k) as [d|] eqn:Hd; simpl.
  - destruct (Hres k d Hd) as (r & Hr & Hset).
    apply settles_init in Hset. by rewrite Hr, Hset.
  - apply lookup_ge_None. apply lookup_ge_None in Hd. simpl in Hlen. lia.
Qed.


Lemma exec_Disabled s l (σ : State World) :
  Forall (λ a, step s a σ = Disabled) l → exec s l σ = Some σ.
Proof.
  induction 1 as [|a l Ha _ IH]; simpl; [done|]. by rewrite Ha.
Qed.

(** The schedules stand for all the runs: a schedule that ends in a state
    where [wg.Wait()] returns gives the results of that state. *)
Lemma fetchDependenciesAsync_complete_run s sched n c deps (σ : State World) :
  exec s sched (fetchDependenciesAsync_init n c deps) = Some σ →
  returned σ →
  fetchDependenciesAsync s sched n c deps = Some (net σ, ctx σ, results σ).
Proof.
  intros Hex [Hloop Hwg].
  assert (Hwf : wf σ ∧ dependencies σ = deps).
  { destruct (exec_Inv s (λ _ _ _, True) (λ _, True) (λ _, True)
                (fetchDependenciesAsync_init n c deps)
                I (λ _, I) (λ _ _ _ _ _ _, I) (λ _ _ _ _, I) sched
                (fetchDependenciesAsync_init n c deps)
                (Forall_true _ _ (λ _, I)) (Inv_refl _ _ (wf_init n c deps)) I)
      as (σ' & Hex' & HI & _).
    rewrite Hex in Hex'. injection Hex' as <-.
    split; [apply HI|]. by rewrite (inv_deps _ _ _ HI). }
  destruct Hwf as [Hwf Hdeps].
  assert (Hgs : goroutines σ = []).
  { apply length_zero_iff_nil. pose proof (wf_wg _ Hwf). lia. }
  unfold fetchDependenciesAsync. rewrite exec_app, Hex.
  rewrite exec_Disabled; [done|].
  unfold completion. apply Forall_app. split; apply Forall_replicate; simpl.
  - rewrite Hloop. by rewrite (lookup_ge_None_2 (dependencies σ)).
  - by rewrite Hgs.
Qed.

(** C10: for every input list and every index [k], the result in slot
    [k] has its [index] field equal to [k] and its [dep] field equal to
    the [k]-th input dependency, in the three cases of the outcome. *)
Theorem fetchDependenciesAsync_carries_edge s sched n c deps :
  ∃ n' c' rs,
    fetchDependenciesAsync s sched n c deps = Some (n', c', rs)
    ∧ ∀ k d, deps !! k = Some d →
        ∃ r, rs !! k = Some r ∧ index r = k ∧ dep r = d.
Proof.
  destruct (fetchDependenciesAsync_slots s sched n c deps)
    as (n' & c' & rs & Hf & _ & Hres).
  exists n', c', rs. split; [done|]. intros k d Hd.
  destruct (Hres k d Hd) as (nk & ck & Hr).
  destruct (func1_fields s nk ck k d) as (Hi & Hdep & _).
  eauto.
Qed.

(** C3: every [dependencyResult] produced by [fetchDependenciesAsync] is
    in exactly one of three states: no error and a providing project,
    no error and no providing project (not found), an error and no
    providing project (failure); it never carries both an error and a
    providing project. *)
Theorem dependencyResult_three_states s sched n c deps :
  ∃ n' c' rs,
    fetchDependenciesAsync s sched n c deps = Some (n', c', rs)
    ∧ ∀ r, r ∈ rs →
        ((err r = None ∧ is_Some (providingProject r))
         ∨ (err r = None ∧ providingProject r = None)
         ∨ (is_Some (err r) ∧ providingProject r = None))
        ∧ ¬ (is_Some (err r) ∧ is_Some (providingProject r)).
Proof.
  destruct (fetchDependenciesAsync_slots s sched n c deps)
    as (n' & c' & rs & Hf & Hlen & Hres).
  exists n', c', rs. split; [done|]. intros r Hr.
  apply list_elem_of_lookup_1 in Hr as [k Hk].
  destruct (lookup_lt_is_Some_2 deps k) as [d Hd].
  { rewrite <- Hlen. by eapply lookup_lt_Some. }
  destruct (Hres k d Hd) as (nk & ck & Hr).
  destruct (func1_fields s nk ck k d) as (_ & _ & Hex).
  rewrite Hk in Hr. injection Hr as ->.
  destruct (err _) as [e|], (providingProject _) as [p|] eqn:Hp.
  - by specialize (Hex (mk_is_Some _ _ eq_refl)).
  - split; [right; right; eauto|]. by intros [_ [? ?]].
  - split; [left; eauto|]. by intros [[? ?] _].
  - split; [right; left; eauto|]. by intros [[? ?] _].
Qed.

(** C4: for every edge, the result stored for it classifies the answer
    of its lookup: an error gives a failure (the error, no project), a
    success with no project gives not found (no project, no error), a
    success with at least one project gives the first project returned
    and no error. *)
Theorem fetchDependenciesAsync_classification s sched n c deps :
  ∃ n' c' rs,
    fetchDependenciesAsync s sched n c deps = Some (n', c', rs)
    ∧ ∀ k d, deps !! k = Some d →
        ∃ nk ck,
          match (makeRequest (client s) nk ck (lookupURL s d)).2 with
          | inl e =>
              rs !! k = Some {| index := k; dep := d;
                                providingProject := None; err := Some e |}
          | inr response =>
              match Projects response with
              | [] =>
                  rs !! k = Some {| index := k; dep := d;
                                    providingProject := None; err := None |}
              | project :: _ =>
                  rs !! k = Some {| index := k; dep := d;
                                    providingProject := Some project;
                                    err := None |}
              end
          end.
Proof.
  destruct (fetchDependenciesAsync_slots s sched n c deps)
    as (n' & c' & rs & Hf & _ & Hres).
  exists n', c', rs. split; [done|]. intros k d Hd.
  destruct (Hres k d Hd) as (nk & ck & Hr). exists nk, ck.
  rewrite Hr. unfold fetchDependenciesAsync_func1, lookupURL.
  destruct (makeRequest _ _ _ _) as [n1 [e|resp]]; simpl; [done|].
  by destruct (Projects resp).
Qed.

Lemma makeRequest_success_calls (cl : CerebroClient) n c u n' resp :
  makeRequest cl n c u = (n', inr resp) →
  ∃ req, URL req = u ∧ req_ctx req = c ∧ calls n' = calls n ++ [req].
Proof.
  unfold makeRequest, http_NewRequestWithContext.
  destruct (url_Parse u); [done|].
  destruct (http_Client_Do _ _) as [w [e|rsp]]; [done|].
  destruct (Body rsp); [done|]. destruct (_ || _); [done|].
  destruct (json_Unmarshal _); [done|]. intros [= <- <-]. simpl.
  eexists. split_and!; [| |reflexivity]; done.
Qed.

Lemma exec_no_dependencies s sched n c :
  ∃ c', exec s sched (fetchDependenciesAsync_init n c [])
        = Some (fetchDependenciesAsync_init n c' []).
Proof.
  revert c. induction sched as [|a sched IH]; intros c; simpl.
  - by exists c.
  - destruct a as [|j|cause]; simpl; [apply IH..|].
    destruct (Err c); apply IH.
Qed.

(** C5: for the empty list of dependencies, [fetchDependenciesAsync]
    returns the empty list and leaves the network as it found it (no
    request is made); the length of the output is the length of the
    input for every input; and [GetProjectDependencies] makes no request
    after the root query when the root project has no dependency of its
    own. *)
Theorem fetchDependenciesAsync_no_dependencies :
  (∀ s sched n c,
     ∃ c', fetchDependenciesAsync s sched n c [] = Some (n, c', []))
  ∧ (∀ s sched n c deps,
       ∃ n' c' rs, fetchDependenciesAsync s sched n c deps = Some (n', c', rs)
                   ∧ length rs = length deps)
  ∧ (∀ s sched n c permalink n1 resp project rest,
       ValidateProjectPermalink permalink = None →
       makeRequest (client s) n c (dependenciesURL s permalink)
         = (n1, inr resp) →
       Projects resp = project :: rest →
       filterDependencies (ProjectDependencies resp) (Project.ID project) = [] →
       ∃ res, GetProjectDependencies s sched n c permalink = Some (n1, inr res)
              ∧ pdsr_ProjectDependencies res = []).
Proof.
  split_and!.
  - intros s sched n c. unfold fetchDependenciesAsync, completion. simpl.
    rewrite app_nil_r.
    destruct (exec_no_dependencies s sched n c) as [c' ->]. by exists c'.
  - intros s sched n c deps.
    destruct (fetchDependenciesAsync_slots s sched n c deps)
      as (n' & c' & rs & Hf & Hlen & _). eauto.
  - intros s sched n c permalink n1 resp project rest Hv Hreq Hp Hfil.
    unfold GetProjectDependencies. rewrite Hv.
    unfold dependenciesURL in Hreq. rewrite Hreq, Hp.
    case_decide as Hlen; [eauto|].
    rewrite Hfil. unfold fetchDependenciesAsync, completion. simpl.
    rewrite app_nil_r.
    destruct (exec_no_dependencies s sched n1 c) as [c' ->]. simpl. eauto.
Qed.

(** C6: when the root query of a valid permalink succeeds with no
    project, [GetProjectDependencies] returns a [ProjectNotFoundError]
    and the network is as the root query left it: the root request is
    the only request made, and no lookup of a dependency is started. *)
Theorem GetProjectDependencies_root_not_found s sched n c permalink n1 resp :
  ValidateProjectPermalink permalink = None →
  makeRequest (client s) n c (dependenciesURL s permalink) = (n1, inr resp) →
  Projects resp = [] →
  GetProjectDependencies s sched n c permalink
    = Some (n1, inl (ProjectNotFoundError permalink))
  ∧ ∃ req, URL req = dependenciesURL s permalink
           ∧ calls n1 = calls n ++ [req].
Proof.
  intros Hv Hreq Hp. split.
  - unfold GetProjectDependencies. rewrite Hv.
    unfold dependenciesURL in Hreq. by rewrite Hreq, Hp.
  - apply makeRequest_success_calls in Hreq as (req & ? & _ & ?). eauto.
Qed.

(** C7: for a permalink that [ValidateProjectPermalink] rejects, both
    [GetProjectDetails] and [GetProjectDependencies] return the
    [ValidationError] and leave the network untouched: no request of any
    kind is made. *)
Theorem validation_precedes_network s sched n c permalink e :
  ValidateProjectPermalink permalink = Some e →
  e = ValidationError "project_permalink" "cannot be empty"
  ∧ GetProjectDetails s n c permalink = (n, inl e)
  ∧ GetProjectDependencies s sched n c permalink = Some (n, inl e).
Proof.
  intros Hv. split_and!.
  - unfold ValidateProjectPermalink in Hv. case_decide; by simplify_eq.
  - unfold GetProjectDetails. by rewrite Hv.
  - unfold GetProjectDependencies. by rewrite Hv.
Qed.


Lemma errors_Is_wrap prefix e target :
  errors_Is e target = true → errors_Is (Errorf_w prefix e) target = true.
Proof. intros He. simpl. by case_decide. Qed.

Lemma func1_canceled s n c k d cause :
  honours_context → Err c = Some cause →
  canceled_failure s cause k d (fetchDependenciesAsync_func1 s n c k d).2.
Proof.
  intros Hhon Hc. unfold canceled_failure.
  unfold fetchDependenciesAsync_func1, makeRequest, http_NewRequestWithContext.
  fold (lookupURL s d).
  destruct (url_Parse (lookupURL s d)) as [pe|] eqn:Hparse; simpl.
  { split_and!; [done..|]. eexists. split; [done|]. done. }
  match goal with
  | |- context [http_Client_Do (world n) ?q] =>
      destruct (Hhon (world n) q cause Hc) as (e & He & His);
      destruct (http_Client_Do (world n) q) as [w a]
  end.
  simpl in He. subst a. simpl. split_and!; [done..|].
  eexists. split; [done|]. intros _. by apply errors_Is_wrap.
Qed.

Lemma NoDup_fmap_elem_inj {A B} (f : A → B) (l : list A) x y :
  NoDup (f <$> l) → x ∈ l → y ∈ l → f x = f y → x = y.
Proof.
  intros Hnd [i Hi]%list_elem_of_lookup_1 [j Hj]%list_elem_of_lookup_1 Hf.
  assert (i = j) as ->.
  { eapply (NoDup_lookup (f <$> l) i j (f x)); [done|..].
    - by rewrite list_lookup_fmap, Hi.
    - by rewrite list_lookup_fmap, Hj, Hf. }
  congruence.
Qed.

Lemma status_exclusive (σ : State World) k :
  wf σ →
  (outstanding σ k → ∀ r, ¬ holding σ k r)
  ∧ (outstanding σ k → ¬ stored σ k)
  ∧ (∀ r, holding σ k r → ¬ stored σ k)
  ∧ (∀ r r', holding σ k r → holding σ k r' → r = r').
Proof.
  intros [W1 W2 W3 W4 W5 W6 W7]. unfold outstanding, holding, stored.
  split_and!.
  - intros [Hle|[d Hd]] r Hr.
    + apply W6 in Hr. simpl in Hr. lia.
    + by pose proof (NoDup_fmap_elem_inj gindex _ _ _ W5 Hd Hr eq_refl).
  - intros [Hle|[d Hd]] [Hlt Hni]; [lia|].
    apply Hni. by apply (list_elem_of_fmap_2 gindex) in Hd.
  - intros r Hr [_ Hni]. apply Hni.
    by apply (list_elem_of_fmap_2 gindex) in Hr.
  - intros r r' Hr Hr'.
    pose proof (NoDup_fmap_elem_inj gindex _ _ _ W5 Hr Hr' eq_refl).
    congruence.
Qed.

Lemma reachable_wf s sched n c deps (σ : State World) :
  exec s sched (fetchDependenciesAsync_init n c deps) = Some σ →
  wf σ ∧ dependencies σ = deps.
Proof.
  intros Hex.
  destruct (exec_Inv s (λ _ _ _, True) (λ _, True) (λ _, True)
              (fetchDependenciesAsync_init n c deps)
              I (λ _, I) (λ _ _ _ _ _ _, I) (λ _ _ _ _, I) sched
              (fetchDependenciesAsync_init n c deps)
              (Forall_true _ _ (λ _, I)) (Inv_refl _ _ (wf_init n c deps)) I)
    as (σ' & Hex' & HI & _).
  rewrite Hex in Hex'. injection Hex' as <-.
  split; [apply HI|]. by rewrite (inv_deps _ _ _ HI).
Qed.

(** The run after a state in which the context is done. *)
Lemma run_after_cancellation s pre post n c deps σ1 cause :
  honours_context →
  exec s pre (fetchDependenciesAsync_init n c deps) = Some σ1 →
  Err (ctx σ1) = Some cause →
  ∃ n' c' rs,
    fetchDependenciesAsync s (pre ++ post) n c deps = Some (n', c', rs)
    ∧ length rs = length deps
    ∧ ∀ k d, deps !! k = Some d →
        ∃ r, rs !! k = Some r
             ∧ (outstanding σ1 k → canceled_failure s cause k d r)
             ∧ (∀ r1, holding σ1 k r1 → r = r1)
             ∧ (stored σ1 k → results σ1 !! k = Some r).
Proof.
  intros Hhon Hpre Hc.
  destruct (reachable_wf s pre n c deps σ1 Hpre) as [Hwf Hdeps].
  set (J := λ σ : State World, Err (ctx σ) = Some cause).
  assert (HJ : ∀ a σ σ', True → J σ → step s a σ = Stepped σ' → J σ').
  { intros a σ σ' _ HJ Hstep. unfold J in *.
    destruct a as [|j|cause']; simpl in Hstep.
    - destruct (dependencies σ !! loop_i σ); by simplify_eq.
    - destruct (goroutines σ !! j) as [[k d|k r]|]; [| |done].
      + destruct (fetchDependenciesAsync_func1 _ _ _ _ _). by simplify_eq.
      + repeat case_decide; by simplify_eq.
    - by rewrite HJ in Hstep. }
  assert (HQ : ∀ σ k d, J σ →
            canceled_failure s cause k d
              (fetchDependenciesAsync_func1 s (net σ) (ctx σ) k d).2).
  { intros σ k d HJσ. by apply func1_canceled. }
  destruct (run_settles s (canceled_failure s cause) J (λ _, True) σ1
              I (λ _, I) HJ HQ post σ1
              (Forall_true _ _ (λ _, I)) (Inv_refl _ _ Hwf) Hc)
    as (σ' & Hex & _ & _ & Hlen & Hres).
  unfold fetchDependenciesAsync. rewrite <- app_assoc, exec_app, Hpre.
  rewrite Hdeps in Hex, Hlen, Hres. rewrite Hex.
  exists (net σ'), (ctx σ'), (results σ'). split; [done|]. split; [done|].
  intros k d Hd. destruct (Hres k d Hd) as (r & Hr & Hset).
  exists r. split; [done|].
  destruct (status_exclusive σ1 k Hwf) as (E1 & E2 & E3 & E4).
  destruct Hset as [[Hout HQr]|[Hhold|[Hsto Hr1]]].
  - split_and!; [done|..].
    + intros r1 Hr1. by destruct (E1 Hout r1).
    + intros Hsto. by destruct (E2 Hout).
  - split_and!.
    + intros Hout. by destruct (E1 Hout r).
    + intros r1 Hr1. by apply (E4 r r1).
    + intros Hsto. by destruct (E3 r Hhold).
  - split_and!; [|  |done].
    + intros Hout. by destruct (E2 Hout).
    + intros r1 Hh1. by destruct (E3 r1 Hh1).
Qed.

(** C8: when the transport fails the requests of a done context, and the
    context is done in a state [σ1] of a run, the run still returns N
    results, and for every edge: if its lookup was still to be made in
    [σ1], its result is a failure of its own with no project (wrapping
    the cause of the context when the request could be built); if its
    goroutine held a result in [σ1], that result is kept; and if its
    result was stored in [σ1], it is kept.  In particular, when the
    context is done before the call, all N results are such failures
    and none holds a project. *)
Theorem fetchDependenciesAsync_cancellation s n deps cause :
  honours_context →
  (∀ sched c, Err c = Some cause →
     ∃ n' c' rs,
       fetchDependenciesAsync s sched n c deps = Some (n', c', rs)
       ∧ length rs = length deps
       ∧ ∀ k d, deps !! k = Some d →
           ∃ r, rs !! k = Some r ∧ canceled_failure s cause k d r)
  ∧ (∀ pre post c σ1,
       exec s pre (fetchDependenciesAsync_init n c deps) = Some σ1 →
       Err (ctx σ1) = Some cause →
       ∃ n' c' rs,
         fetchDependenciesAsync s (pre ++ post) n c deps = Some (n', c', rs)
         ∧ length rs = length deps
         ∧ ∀ k d, deps !! k = Some d →
             ∃ r, rs !! k = Some r
                  ∧ (outstanding σ1 k → canceled_failure s cause k d r)
                  ∧ (∀ r1, holding σ1 k r1 → r = r1)
                  ∧ (stored σ1 k → results σ1 !! k = Some r)).
Proof.
  intros Hhon. split.
  - intros sched c Hc.
    destruct (run_after_cancellation s [] sched n c deps
                (fetchDependenciesAsync_init n c deps) cause Hhon eq_refl Hc)
      as (n' & c' & rs & Hf & Hlen & Hres).
    exists n', c', rs. split; [done|]. split; [done|].
    intros k d Hd. destruct (Hres k d Hd) as (r & Hr & Hout & _).
    exists r. split; [done|]. apply Hout. left. simpl. lia.
  - intros pre post c σ1 Hpre Hc.
    by apply run_after_cancellation.
Qed.


End Resolver.

(** ** Failure isolation *)

Section Isolation.
Context `{H : Collaborators}.
Variable Do' : World → Request → World * (error + Response).
Variable u : string.
Variable s : ProjectService.
Hypothesis same_world : ∀ w req, (Do' w req).1 = (http_Client_Do w req).1.
Hypothesis same_elsewhere :
  ∀ w req, URL req ≠ u → Do' w req = http_Client_Do w req.

#[local] Abbreviation H' := (with_transport Do').

Lemma agree_refl r : agree u s r r.
Proof using Type. by left. Qed.

Lemma makeRequest_lockstep (cl : CerebroClient) (n : Net World) c url :
  (@makeRequest H cl n c url).1 = (@makeRequest H' cl n c url).1
  ∧ (url ≠ u → @makeRequest H cl n c url = @makeRequest H' cl n c url).
Proof using same_world same_elsewhere.
  unfold makeRequest, http_NewRequestWithContext. simpl.
  destruct (url_Parse url); [done|].
  match goal with
  | |- context [http_Client_Do (world n) ?q] =>
      pose proof (same_world (world n) q) as Hw;
      pose proof (same_elsewhere (world n) q) as He;
      destruct (http_Client_Do (world n) q) as [w1 a1];
      destruct (Do' (world n) q) as [w2 a2]
  end.
  simpl in Hw, He. subst w2. split.
  - destruct a1 as [|r1], a2 as [|r2]; simpl; try done.
    + destruct (Body r2); [done|]. destruct (_ || _); [done|].
      by destruct (json_Unmarshal _).
    + destruct (Body r1); [done|]. destruct (_ || _); [done|].
      by destruct (json_Unmarshal _).
    + destruct (Body r1); [|destruct (_ || _); [|destruct (json_Unmarshal _)]];
      (destruct (Body r2); [|destruct (_ || _); [|destruct (json_Unmarshal _)]]);
      done.
  - intros Hne. specialize (He Hne). by simplify_eq.
Qed.

Lemma func1_lockstep (n : Net World) c k d :
  (@fetchDependenciesAsync_func1 H s n c k d).1
  = (@fetchDependenciesAsync_func1 H' s n c k d).1
  ∧ agree u s (@fetchDependenciesAsync_func1 H s n c k d).2
          (@fetchDependenciesAsync_func1 H' s n c k d).2.
Proof using same_world same_elsewhere.
  unfold fetchDependenciesAsync_func1.
  change (@buildURL H' (client s) ?p) with (@buildURL H (client s) p).
  fold (lookupURL s d).
  destruct (makeRequest_lockstep (client s) n c (lookupURL s d)) as [Hn Ha].
  destruct (decide (lookupURL s d = u)) as [Hu|Hne].
  - destruct (@makeRequest H _ _ _ _) as [n1 a1],
             (@makeRequest H' _ _ _ _) as [n2 a2].
    simpl in Hn. subst n2. split.
    + destruct a1 as [|r1], a2 as [|r2]; simpl; try done;
        repeat (match goal with |- context [Projects ?r] =>
                  destruct (Projects r) end); done.
    + right.
      destruct a1 as [|r1], a2 as [|r2]; simpl;
        repeat (match goal with |- context [Projects ?r] =>
                  destruct (Projects r) end); done.
  - rewrite <- (Ha Hne). split; [done|apply agree_refl].
Qed.


Lemma gagree_lookup gs gs' j :
  Forall2 (gagree u s) gs gs' →
  match gs !! j, gs' !! j with
  | Some g, Some g' => gagree u s g g'
  | None, None => True
  | _, _ => False
  end.
Proof using Type.
  intros Hgs. revert j. induction Hgs as [|g g' gs gs' Hg _ IH]; intros [|j];
    simpl; try done. apply IH.
Qed.

Lemma step_lockstep a (σ σ' : State World) :
  lockstep u s σ σ' →
  match @step H s a σ, @step H' s a σ' with
  | Stepped τ, Stepped τ' => lockstep u s τ τ'
  | Disabled, Disabled => True
  | Panicked, Panicked => True
  | _, _ => False
  end.
Proof using same_world same_elsewhere.
  intros [Hr Hd Hl Hg Hw Hc Hn]. destruct a as [|j|cause]; simpl.
  - rewrite <- Hd, <- Hl. destruct (dependencies σ !! loop_i σ); [|done].
    split; simpl; try done; try congruence.
    apply Forall2_app; [done|]. by repeat constructor.
  - pose proof (gagree_lookup _ _ j Hg) as Hj.
    destruct (goroutines σ !! j) as [[k d|k r]|],
             (goroutines σ' !! j) as [[k' d'|k' r']|]; simpl in Hj; try done.
    + destruct Hj as [<- <-]. rewrite <- Hn, <- Hc.
      destruct (func1_lockstep (net σ) (ctx σ) k d) as [Hn1 Ha].
      destruct (@fetchDependenciesAsync_func1 H _ _ _ _ _) as [n1 r1],
               (@fetchDependenciesAsync_func1 H' _ _ _ _ _) as [n2 r2].
      simpl in Hn1, Ha. subst n2. split; simpl; try done.
      by apply Forall2_insert.
    + destruct Hj as [<- Ha].
      rewrite <- (Forall2_length _ _ _ Hr), <- Hw.
      repeat case_decide; try done. split; simpl; try done; try congruence.
      * by apply Forall2_insert.
      * by apply Forall2_delete.
  - rewrite <- Hc. destruct (Err (ctx σ)); [done|]. by split.
Qed.

Lemma exec_lockstep sched (σ σ' : State World) :
  lockstep u s σ σ' →
  match @exec H s sched σ, @exec H' s sched σ' with
  | Some τ, Some τ' => lockstep u s τ τ'
  | None, None => True
  | _, _ => False
  end.
Proof using same_world same_elsewhere.
  revert σ σ'. induction sched as [|a sched IH]; intros σ σ' Hls; simpl.
  - done.
  - pose proof (step_lockstep a σ σ' Hls) as Hstep.
    destruct (@step H s a σ), (@step H' s a σ'); try done; by apply IH.
Qed.

Lemma lockstep_init (n : Net World) c deps :
  lockstep u s (@fetchDependenciesAsync_init H n c deps)
           (@fetchDependenciesAsync_init H' n c deps).
Proof using Type.
  split; simpl; try done.
  apply Forall_Forall2_diag, Forall_forall. intros; apply agree_refl.
Qed.

Lemma fetchDependenciesAsync_lockstep sched (n : Net World) c deps :
  ∃ n' c' rs rs',
    @fetchDependenciesAsync H s sched n c deps = Some (n', c', rs)
    ∧ @fetchDependenciesAsync H' s sched n c deps = Some (n', c', rs')
    ∧ length rs = length deps ∧ length rs' = length deps
    ∧ ∀ k d, deps !! k = Some d → lookupURL s d ≠ u → rs !! k = rs' !! k.
Proof using same_world same_elsewhere.
  destruct (@fetchDependenciesAsync_slots H s sched n c deps)
    as (n1 & c1 & rs & Hf & Hlen & Hres).
  pose proof (exec_lockstep (sched ++ completion deps) _ _
                (lockstep_init n c deps)) as Hls.
  unfold fetchDependenciesAsync in *.
  destruct (@exec H _ _ _) as [σ|]; [|done].
  destruct (@exec H' _ _ _) as [σ'|]; [|done].
  destruct Hls as [Hr _ _ _ _ Hc Hn]. simplify_eq.
  exists (net σ), (ctx σ), (results σ), (results σ').
  rewrite Hc, Hn. split; [done|]. split; [done|]. split; [done|].
  split.
  { transitivity (length (results σ)); [|done].
    symmetry. exact (Forall2_length _ _ _ Hr). }
  intros k d Hd Hne. destruct (Hres k d Hd) as (nk & ck & Hk).
  destruct (func1_fields s nk ck k d) as (_ & Hdep & _).
  destruct (Forall2_lookup_l _ _ _ _ _ Hr Hk) as (r' & Hk' & Ha).
  destruct Ha as [Heq|(_ & _ & Hu)].
  - rewrite <- Heq in Hk'. exact (eq_trans Hk (eq_sym Hk')).
  - rewrite Hdep in Hu. done.
Qed.

End Isolation.

Section IsolationTheorem.
Context `{H : Collaborators}.

(** C2: a step changes slot [k] of the results only when it is the store
    of the goroutine of edge [k]; and two runs under the same schedule
    with two transports that differ only in how they answer the
    requests of one URL (one failing them, say) both return, with the
    same network and context, and the same result in the slot of every
    edge whose lookup goes to another URL.  The function has no error
    result: a failed lookup shows in its own slot only. *)
Theorem fetchDependenciesAsync_failure_isolation
    (Do' : World → Request → World * (error + Response)) (u : string)
    (s : ProjectService) :
  (∀ w req, (Do' w req).1 = (http_Client_Do w req).1) →
  (∀ w req, URL req ≠ u → Do' w req = http_Client_Do w req) →
  (∀ a (σ σ' : State World) k,
     step s a σ = Stepped σ' → results σ' !! k ≠ results σ !! k →
     ∃ j r, a = Run j ∧ goroutines σ !! j = Some (Responded k r))
  ∧ (∀ sched (n : Net World) c deps,
       ∃ n' c' rs rs',
         @fetchDependenciesAsync H s sched n c deps = Some (n', c', rs)
         ∧ @fetchDependenciesAsync (with_transport Do') s sched n c deps
           = Some (n', c', rs')
         ∧ length rs = length deps ∧ length rs' = length deps
         ∧ ∀ k d, deps !! k = Some d → lookupURL s d ≠ u →
             rs !! k = rs' !! k).
Proof.
  intros Hw He. split.
  - intros a σ σ' k Hstep Hk. destruct a as [|j|cause]; simpl in Hstep.
    + destruct (dependencies σ !! loop_i σ); by simplify_eq.
    + destruct (goroutines σ !! j) as [[i d|i r]|] eqn:Hj; [| |done].
      * destruct (fetchDependenciesAsync_func1 _ _ _ _ _). by simplify_eq.
      * repeat case_decide; simplify_eq. simpl in Hk.
        destruct (decide (i = k)) as [->|Hne]; [eauto|].
        by rewrite list_lookup_insert_ne in Hk.
    + destruct (Err (ctx σ)); by simplify_eq.
  - intros sched n c deps.
    exact (fetchDependenciesAsync_lockstep Do' u s Hw He sched n c deps).
Qed.

End IsolationTheorem.

(** ** The properties on the small catalog *)

Section OnCatalog.
#[local] Existing Instance Catalog.collaborators.

Lemma errors_Is_refl e : errors_Is e e = true.
Proof. destruct e; simpl; by case_decide. Qed.

Lemma Catalog_honours_context : @honours_context Catalog.collaborators.
Proof.
  intros w req cause Hc. simpl. rewrite Hc. eexists. split; [done|].
  apply errors_Is_wrap, errors_Is_refl.
Qed.

Lemma fetchDependenciesAsync_order_witness :
  stable
  ∧ Forall (λ a, ¬ is_Cancel a) Catalog.sched
  ∧ ∃ n' rs,
      fetchDependenciesAsync Catalog.service Catalog.sched Catalog.net0
        context_Background Catalog.edges
      = Some (n', context_Background, rs)
      ∧ rs = imap (λ k d,
                     (fetchDependenciesAsync_func1 Catalog.service Catalog.net0
                        context_Background k d).2) Catalog.edges.
Proof.
  assert (Hst : @stable Catalog.collaborators) by (by intros w w' req).
  assert (Hsched : Forall (λ a, ¬ is_Cancel a) Catalog.sched).
  { unfold Catalog.sched. repeat constructor; by intros []. }
  split; [done|]. split; [done|].
  exact (proj2 (fetchDependenciesAsync_order Catalog.service Catalog.sched
                  Catalog.net0 context_Background Catalog.edges) Hst Hsched).
Defined.

Lemma fetchDependenciesAsync_failure_isolation_witness :
  (∀ w req, (Catalog.flaky w req).1 = (http_Client_Do w req).1)
  ∧ (∀ w req, URL req ≠ Catalog.url10 →
              Catalog.flaky w req = http_Client_Do w req)
  ∧ ∃ n' c' rs rs',
      fetchDependenciesAsync Catalog.service Catalog.sched Catalog.net0
        context_Background Catalog.edges = Some (n', c', rs)
      ∧ @fetchDependenciesAsync (with_transport Catalog.flaky)
          Catalog.service Catalog.sched Catalog.net0 context_Background
          Catalog.edges = Some (n', c', rs')
      ∧ length rs = length Catalog.edges ∧ length rs' = length Catalog.edges
      ∧ ∀ k d, Catalog.edges !! k = Some d →
          lookupURL Catalog.service d ≠ Catalog.url10 → rs !! k = rs' !! k.
Proof.
  assert (H1 : ∀ w req, (Catalog.flaky w req).1 = (http_Client_Do w req).1).
  { intros w req. unfold Catalog.flaky. by case_bool_decide. }
  assert (H2 : ∀ w req, URL req ≠ Catalog.url10 →
                        Catalog.flaky w req = http_Client_Do w req).
  { intros w req Hne. unfold Catalog.flaky. by case_bool_decide. }
  split; [done|]. split; [done|].
  exact (proj2 (fetchDependenciesAsync_failure_isolation Catalog.flaky
                  Catalog.url10 Catalog.service H1 H2)
           Catalog.sched Catalog.net0 context_Background Catalog.edges).
Defined.

Lemma fetchDependenciesAsync_no_dependencies_witness :
  ValidateProjectPermalink "lonely" = None
  ∧ makeRequest (client Catalog.service) Catalog.net0 context_Background
      (dependenciesURL Catalog.service "lonely")
    = ((makeRequest (client Catalog.service) Catalog.net0 context_Background
          (dependenciesURL Catalog.service "lonely")).1,
       inr Catalog.lonely_response)
  ∧ ∃ res,
      GetProjectDependencies Catalog.service Catalog.sched Catalog.net0
        context_Background "lonely"
      = Some ((makeRequest (client Catalog.service) Catalog.net0
                 context_Background
                 (dependenciesURL Catalog.service "lonely")).1, inr res)
      ∧ pdsr_ProjectDependencies res = [].
Proof.
  assert (Hv : ValidateProjectPermalink "lonely" = None)
    by (vm_compute; reflexivity).
  assert (Hreq : makeRequest (client Catalog.service) Catalog.net0
                   context_Background
                   (dependenciesURL Catalog.service "lonely")
                 = ((makeRequest (client Catalog.service) Catalog.net0
                       context_Background
                       (dependenciesURL Catalog.service "lonely")).1,
                    inr Catalog.lonely_response))
    by (vm_compute; reflexivity).
  split; [done|]. split; [done|].
  exact (proj2 (proj2 fetchDependenciesAsync_no_dependencies)
           Catalog.service Catalog.sched Catalog.net0 context_Background
           "lonely" _ Catalog.lonely_response (Catalog.project 2 "lonely") []
           Hv Hreq eq_refl eq_refl).
Defined.

Lemma GetProjectDependencies_root_not_found_witness :
  ValidateProjectPermalink "missing-permalink" = None
  ∧ makeRequest (client Catalog.service) Catalog.net0 context_Background
      (dependenciesURL Catalog.service "missing-permalink")
    = ((makeRequest (client Catalog.service) Catalog.net0 context_Background
          (dependenciesURL Catalog.service "missing-permalink")).1,
       inr Catalog.empty_response)
  ∧ GetProjectDependencies Catalog.service Catalog.sched Catalog.net0
      context_Background "missing-permalink"
    = Some ((makeRequest (client Catalog.service) Catalog.net0
               context_Background
               (dependenciesURL Catalog.service "missing-permalink")).1,
            inl (ProjectNotFoundError "missing-permalink")).
Proof.
  assert (Hv : ValidateProjectPermalink "missing-permalink" = None)
    by (vm_compute; reflexivity).
  assert (Hreq : makeRequest (client Catalog.service) Catalog.net0
                   context_Background
                   (dependenciesURL Catalog.service "missing-permalink")
                 = ((makeRequest (client Catalog.service) Catalog.net0
                       context_Background
                       (dependenciesURL Catalog.service
                          "missing-permalink")).1,
                    inr Catalog.empty_response))
    by (vm_compute; reflexivity).
  split; [done|]. split; [done|].
  exact (proj1 (GetProjectDependencies_root_not_found Catalog.service
                  Catalog.sched Catalog.net0 context_Background
                  "missing-permalink" _ Catalog.empty_response
                  Hv Hreq eq_refl)).
Defined.

Lemma validation_precedes_network_witness :
  ValidateProjectPermalink "   "
  = Some (ValidationError "project_permalink" "cannot be empty")
  ∧ GetProjectDetails Catalog.service Catalog.net0 context_Background "   "
    = (Catalog.net0,
       inl (ValidationError "project_permalink" "cannot be empty"))
  ∧ GetProjectDependencies Catalog.service Catalog.sched Catalog.net0
      context_Background "   "
    = Some (Catalog.net0,
            inl (ValidationError "project_permalink" "cannot be empty")).
Proof.
  assert (Hv : ValidateProjectPermalink "   "
               = Some (ValidationError "project_permalink" "cannot be empty"))
    by (vm_compute; reflexivity).
  split; [done|].
  exact (proj2 (validation_precedes_network Catalog.service Catalog.sched
                  Catalog.net0 context_Background "   " _ Hv)).
Defined.

Lemma fetchDependenciesAsync_cancellation_witness :
  honours_context
  ∧ (∃ n' c' rs,
       fetchDependenciesAsync Catalog.service Catalog.sched Catalog.net0
         Catalog.canceled Catalog.edges = Some (n', c', rs)
       ∧ length rs = length Catalog.edges
       ∧ ∀ k d, Catalog.edges !! k = Some d →
           ∃ r, rs !! k = Some r
                ∧ canceled_failure Catalog.service context_Canceled k d r)
  ∧ ∃ σ1,
      exec Catalog.service Catalog.canceled_midway
        (fetchDependenciesAsync_init Catalog.net0 context_Background
           Catalog.edges) = Some σ1
      ∧ Err (ctx σ1) = Some context_Canceled
      ∧ ∃ n' c' rs,
          fetchDependenciesAsync Catalog.service
            (Catalog.canceled_midway ++ []) Catalog.net0 context_Background
            Catalog.edges = Some (n', c', rs)
          ∧ length rs = length Catalog.edges
          ∧ ∀ k d, Catalog.edges !! k = Some d →
              ∃ r, rs !! k = Some r
                   ∧ (outstanding σ1 k →
                      canceled_failure Catalog.service context_Canceled k d r)
                   ∧ (∀ r1, holding σ1 k r1 → r = r1)
                   ∧ (stored σ1 k → results σ1 !! k = Some r).
Proof.
  destruct (fetchDependenciesAsync_cancellation Catalog.service Catalog.net0
              Catalog.edges context_Canceled Catalog_honours_context)
    as [Hall Hmid].
  split; [exact Catalog_honours_context|]. split.
  - exact (Hall Catalog.sched Catalog.canceled eq_refl).
  - eexists. split; [vm_compute; reflexivity|]. split; [reflexivity|].
    apply Hmid; [vm_compute; reflexivity|reflexivity].
Defined.

Lemma ValidateProjectPermalink_rejects_blank_witness :
  ValidateProjectPermalink "  "
  = Some (ValidationError "project_permalink" "cannot be empty")
  ∧ ValidateProjectPermalink " classic " = None
  ∧ ValidateToolArguments ∅
    = ("", Some (ValidationError "project_permalink" "must be a string"))
  ∧ ValidateToolArguments {[ "project_permalink" := any_float64 0 ]}
    = ("", Some (ValidationError "project_permalink" "must be a string")).
Proof.
  destruct ValidateProjectPermalink_rejects_blank as (H1 & H2 & _).
  split_and!.
  - rewrite H1. vm_compute. reflexivity.
  - rewrite H1. vm_compute. reflexivity.
  - apply H2. intros p. by rewrite lookup_empty.
  - apply H2. intros p. by rewrite lookup_singleton_eq.
Defined.

End OnCatalog.

(** * More of the program *)

(** ** More of the service: [filterDependencies] *)

Lemma filterDependencies_filter deps projectID :
  filterDependencies deps projectID
  = filter (λ d, ProjectDependency.DependentProjectID d = projectID) deps.
Proof.
  induction deps as [|d deps IH]; simpl; [done|].
  rewrite filter_cons, IH. by case_decide.
Qed.

(** X1: [filterDependencies] keeps exactly the dependencies whose
    dependent project is [projectID], in the order of the input, and
    filtering again changes nothing. *)
Theorem filterDependencies_keeps_dependents deps projectID :
  filterDependencies deps projectID `sublist_of` deps
  ∧ (∀ d, d ∈ filterDependencies deps projectID
          ↔ d ∈ deps ∧ ProjectDependency.DependentProjectID d = projectID)
  ∧ filterDependencies (filterDependencies deps projectID) projectID
    = filterDependencies deps projectID.
Proof.
  rewrite !filterDependencies_filter. split_and!.
  - apply sublist_filter.
  - intros d. rewrite list_elem_of_filter. tauto.
  - rewrite list_filter_filter. apply list_filter_iff. tauto.
Qed.

(** ** config.go *)


(** ** The requests of the client *)

Section Requests.
Context `{Collaborators}.
Implicit Types (s : ProjectService) (n : Net World) (c : Context)
  (cl : CerebroClient) (σ : State World).

Lemma makeRequest_log cl n c u :
  calls (makeRequest cl n c u).1
  = calls n ++ (if decide (parses u) then [requestFor cl c u] else []).
Proof.
  destruct (decide (parses u)) as [Hp|Hp]; unfold parses in Hp;
    unfold makeRequest, http_NewRequestWithContext.
  - rewrite Hp. fold (requestFor cl c u).
    destruct (http_Client_Do _ _) as [w [e|resp]]; [done|].
    destruct (Body resp); [done|]. destruct (_ || _); [done|].
    by destruct (json_Unmarshal _).
  - destruct (url_Parse u); [|done]. simpl. by rewrite app_nil_r.
Qed.

Lemma makeRequest_unparsed cl n c u :
  ¬ parses u → (makeRequest cl n c u).1 = n.
Proof.
  unfold makeRequest, http_NewRequestWithContext, parses.
  by destruct (url_Parse u).
Qed.

Lemma errors_Is_self e : errors_Is e e = true.
Proof. destruct e; simpl; by case_decide. Qed.

Lemma errors_Is_wrapped prefix e : errors_Is (Errorf_w prefix e) e = true.
Proof. simpl. case_decide; [done|]. apply errors_Is_self. Qed.

(** X6: [makeRequest] gives a response only for a status from 200 to
    299 whose body decodes; a readable response of any other status
    always gives the [APIError] of that status and body, whether the
    body is JSON or not; and every error is such an [APIError] or wraps
    its cause, which [errors.Is] finds. *)
Theorem makeRequest_status cl n c u :
  (∀ r, (makeRequest cl n c u).2 = inr r →
     ∃ resp body,
       (http_Client_Do (world n) (requestFor cl c u)).2 = inr resp
       ∧ Body resp = inr body
       ∧ (200 ≤ StatusCode resp < 300)%Z
       ∧ json_Unmarshal body = inr r)
  ∧ (∀ resp body,
       parses u →
       (http_Client_Do (world n) (requestFor cl c u)).2 = inr resp →
       Body resp = inr body →
       ¬ (200 ≤ StatusCode resp < 300)%Z →
       (makeRequest cl n c u).2 = inl (APIError (StatusCode resp) body))
  ∧ (∀ e, (makeRequest cl n c u).2 = inl e →
       (∃ code msg, e = APIError code msg ∧ ¬ (200 ≤ code < 300)%Z)
       ∨ (∃ prefix cause, e = Errorf_w prefix cause
                          ∧ errors_Is e cause = true)).
Proof.
  unfold makeRequest, http_NewRequestWithContext, parses.
  fold (requestFor cl c u).
  destruct (url_Parse u) as [pe|]; simpl.
  { split_and!; [done|done|]. intros e [= <-]. right.
    eexists _, _. split; [done|]. apply errors_Is_wrapped. }
  change (Header_Set "Accept" "application/json"
            (Header_Set "Authorization" ("Token " +:+ token cl)
               {| req_ctx := c; Method := "GET"; URL := u; Header := ∅ |}))
    with (requestFor cl c u).
  destruct (http_Client_Do (world n) (requestFor cl c u)) as [w [e|resp]];
    simpl.
  { split_and!; [done|done|]. intros e' [= <-]. right.
    eexists _, _. split; [done|]. apply errors_Is_wrapped. }
  destruct (Body resp) as [e|body] eqn:Hbody; simpl.
  { split_and!; [done| |].
    - intros resp' body' _ [= <-]. congruence.
    - intros e' [= <-]. right.
      eexists _, _. split; [done|]. apply errors_Is_wrapped. }
  destruct (Z.ltb_spec (StatusCode resp) 200) as [Hlo|Hlo];
    destruct (Z.leb_spec 300 (StatusCode resp)) as [Hhi|Hhi]; simpl.
  1-3: split_and!;
    [done
    |intros resp' body' _ [= <-] Hb _; congruence
    |intros e' [= <-]; left; eexists _, _; split; [done|lia]].
  destruct (json_Unmarshal body) as [e|r] eqn:Hjson; simpl.
  - split_and!; [done| |].
    + intros resp' body' _ [= <-] _ Hst. lia.
    + intros e' [= <-]. right.
      eexists _, _. split; [done|]. apply errors_Is_wrapped.
  - split_and!; [| |done].
    + intros r' [= <-]. exists resp, body. split_and!; try done; lia.
    + intros resp' body' _ [= <-] _ Hst. lia.
Qed.

Lemma func1_net s n c k d :
  (fetchDependenciesAsync_func1 s n c k d).1
  = (makeRequest (client s) n c (lookupURL s d)).1.
Proof.
  unfold fetchDependenciesAsync_func1, lookupURL.
  destruct (makeRequest _ _ _ _) as [n' [e|resp]]; [done|].
  by destruct (Projects resp).
Qed.

Lemma request_of_requestFor cl c u : request_of cl (requestFor cl c u).
Proof. done. Qed.

Lemma log_inv_init s n c deps :
  log_inv s n deps (fetchDependenciesAsync_init n c deps).
Proof.
  split; [done|]. exists []. simpl. rewrite app_nil_r. done.
Qed.

Lemma step_log_inv s n0 deps a σ σ' :
  log_inv s n0 deps σ → step s a σ = Stepped σ' → log_inv s n0 deps σ'.
Proof.
  intros [Hdeps (L & Hcalls & Hreq & Hperm)] Hstep.
  destruct a as [|j|cause]; simpl in Hstep.
  - destruct (dependencies σ !! loop_i σ) as [d|] eqn:Hd; [|done].
    injection Hstep as <-. split; [done|]. exists L. simpl.
    split; [done|]. split; [done|]. rewrite <- Hperm. rewrite Hdeps in Hd.
    rewrite (drop_S _ _ _ Hd). unfold started_deps. rewrite omap_app.
    change (omap _ [Started (loop_i σ) d]) with [d].
    rewrite fmap_cons, !fmap_app, !filter_app.
    change (lookupURL s <$> [d]) with [lookupURL s d].
    rewrite (filter_cons _ (lookupURL s d) (lookupURL s <$> drop _ _)).
    rewrite (filter_cons _ (lookupURL s d) []), filter_nil.
    case_decide; by rewrite <- ?app_assoc, ?app_nil_r.
  - destruct (goroutines σ !! j) as [[k d|k r]|] eqn:Hj; [| |done].
    + pose proof (func1_net s (net σ) (ctx σ) k d) as Hnet.
      destruct (fetchDependenciesAsync_func1 s (net σ) (ctx σ) k d)
        as [n' res].
      injection Hstep as <-. simpl in Hnet. subst n'.
      destruct (lookup_middle _ _ _ Hj) as (l1 & l2 & Hgs & _ & Hins & _).
      split; [done|]. cbn [goroutines net loop_i]. rewrite Hins.
      rewrite Hgs in Hperm.
      unfold started_deps in *. rewrite omap_app in *.
      change (omap ?f (Started k d :: l2)) with (d :: omap f l2) in Hperm.
      change (omap ?f (Responded k res :: l2)) with (omap f l2).
      rewrite fmap_app, filter_app, fmap_cons, filter_cons in Hperm.
      rewrite fmap_app, filter_app.
      rewrite makeRequest_log, Hcalls.
      destruct (decide (parses (lookupURL s d))) as [Hp|Hp].
      * exists (L ++ [requestFor (client s) (ctx σ) (lookupURL s d)]).
        split; [by rewrite app_assoc|]. split.
        { apply Forall_app. split; [done|]. by constructor. }
        rewrite <- Hperm, fmap_app.
        change (URL <$> [requestFor (client s) (ctx σ) (lookupURL s d)])
          with [lookupURL s d].
        rewrite <- !app_assoc. apply Permutation_app_head.
        cbn [app]. apply Permutation_middle.
      * exists L. rewrite app_nil_r. split; [done|]. split; [done|].
        by rewrite <- Hperm.
    + repeat case_decide; try done. injection Hstep as <-.
      destruct (lookup_middle _ _ _ Hj) as (l1 & l2 & Hgs & _ & _ & Hdel).
      split; [done|]. exists L. cbn [goroutines net loop_i].
      split; [done|]. split; [done|].
      rewrite <- Hperm, Hdel, Hgs. unfold started_deps.
      by rewrite !omap_app.
  - destruct (Err (ctx σ)); [done|]. injection Hstep as <-.
    split; [done|]. by exists L.
Qed.

Lemma exec_log_inv s n0 deps sched σ σ' :
  log_inv s n0 deps σ → exec s sched σ = Some σ' → log_inv s n0 deps σ'.
Proof.
  revert σ. induction sched as [|a sched IH]; intros σ Hinv Hex;
    simpl in Hex; [by simplify_eq|].
  destruct (step s a σ) as [τ| |] eqn:Hstep; [|by eapply IH|done].
  eapply IH; [|done]. by eapply step_log_inv.
Qed.

(** Every run ends in a state where the loop is over and no goroutine
    is left. *)
Lemma run_ends s sched n c deps :
  ∃ σ', exec s (sched ++ completion deps)
          (fetchDependenciesAsync_init n c deps) = Some σ'
        ∧ loop_i σ' = length deps ∧ goroutines σ' = []
        ∧ dependencies σ' = deps.
Proof.
  set (σ0 := fetchDependenciesAsync_init n c deps).
  destruct (exec_Inv s (λ _ _ _, True) (λ _, True) (λ _, True) σ0
              I (λ _, I) (λ _ _ _ _ _ _, I) (λ _ _ _ _, I) sched σ0
              (Forall_true _ _ (λ _, I)) (Inv_refl _ _ (wf_init n c deps)) I)
    as (σa & Ha & HIa & _).
  destruct (completion_returns s (λ _ _ _, True) (λ _, True) (λ _, True) σ0
              I (λ _, I) (λ _ _ _ _ _ _, I) (λ _ _ _ _, I) σa HIa I)
    as (σb & Hb & HIb & _ & Hloop & Hgs).
  assert (Hda : dependencies σa = deps) by apply (inv_deps _ _ _ HIa).
  assert (Hdb : dependencies σb = deps) by apply (inv_deps _ _ _ HIb).
  exists σb. rewrite exec_app, Ha. rewrite Hda in Hb.
  split; [done|]. rewrite Hloop, Hdb. done.
Qed.

Lemma fetchDependenciesAsync_log s sched n c deps :
  ∃ n' c' rs L,
    fetchDependenciesAsync s sched n c deps = Some (n', c', rs)
    ∧ calls n' = calls n ++ L
    ∧ Forall (request_of (client s)) L
    ∧ URL <$> L ≡ₚ filter parses (lookupURL s <$> deps).
Proof.
  destruct (run_ends s sched n c deps) as (σ' & Hex & Hloop & Hgs & Hdeps).
  pose proof (exec_log_inv s n deps _ _ _ (log_inv_init s n c deps) Hex)
    as [_ (L & Hcalls & Hreq & Hperm)].
  unfold fetchDependenciesAsync. rewrite Hex.
  exists (net σ'), (ctx σ'), (results σ'), L.
  split; [done|]. split; [done|]. split; [done|].
  rewrite <- Hperm, Hgs, Hloop, drop_all. simpl. by rewrite app_nil_r.
Qed.

(** X3: whatever the schedule, [fetchDependenciesAsync] adds to the log
    of the network one request for each edge whose lookup URL parses,
    and nothing else: no lookup is repeated or left out, and every
    request is a GET with the token and the Accept header of the
    client.  So it makes at most as many requests as there are edges,
    and exactly as many when every URL parses. *)
Theorem fetchDependenciesAsync_requests s sched n c deps :
  ∃ n' c' rs L,
    fetchDependenciesAsync s sched n c deps = Some (n', c', rs)
    ∧ calls n' = calls n ++ L
    ∧ Forall (request_of (client s)) L
    ∧ URL <$> L ≡ₚ filter parses (lookupURL s <$> deps)
    ∧ length L ≤ length deps
    ∧ (Forall (λ d, parses (lookupURL s d)) deps → length L = length deps).
Proof.
  destruct (fetchDependenciesAsync_log s sched n c deps)
    as (n' & c' & rs & L & Hf & Hcalls & HL & Hperm).
  exists n', c', rs, L. split_and!; try done.
  - apply Permutation_length in Hperm. rewrite length_fmap in Hperm.
    rewrite Hperm. etrans; [apply length_filter|]. by rewrite length_fmap.
  - intros Hall. apply Permutation_length in Hperm.
    rewrite length_fmap in Hperm. rewrite Hperm.
    assert (∀ us, Forall parses us → filter parses us = us) as Hid.
    { induction 1 as [|u us Hu _ IH]; [done|].
      by rewrite filter_cons_True, IH. }
    rewrite Hid; [by rewrite length_fmap|]. by apply Forall_fmap.
Qed.

End Requests.

(** ** The query string of [buildURL] *)

Lemma string_le_iff a b :
  string_le a b ↔ a = b ∨ OrderedTypeEx.String_as_OT.lt a b.
Proof.
  unfold string_le, String.leb.
  change (String.compare a b) with (OrderedTypeEx.String_as_OT.cmp a b).
  destruct (OrderedTypeEx.String_as_OT.cmp a b) eqn:Hc.
  - apply OrderedTypeEx.String_as_OT.cmp_eq in Hc. split; [by left|done].
  - apply OrderedTypeEx.String_as_OT.cmp_lt in Hc. split; [by right|done].
  - split; [done|]. intros [->|Hlt].
    + by rewrite (proj2 (OrderedTypeEx.String_as_OT.cmp_eq b b) eq_refl) in Hc.
    + apply OrderedTypeEx.String_as_OT.cmp_lt in Hlt. congruence.
Qed.

#[local] Existing Instance string_le_dec.

#[local] Instance string_le_trans : Transitive string_le.
Proof.
  intros a b c [->|Hab]%string_le_iff [->|Hbc]%string_le_iff;
    apply string_le_iff; eauto.
  right. by eapply OrderedTypeEx.String_as_OT.lt_trans.
Qed.

#[local] Instance string_le_antisymm : AntiSymm (=) string_le.
Proof. intros a b Hab Hba. by apply String.leb_antisym. Qed.

#[local] Instance string_le_total : Total string_le.
Proof. intros a b. apply String.leb_total. Qed.

Lemma bind_ext_in {A B} (f g : A → list B) (l : list A) :
  (∀ x, x ∈ l → f x = g x) → l ≫= f = l ≫= g.
Proof.
  induction l as [|x l IH]; intros Hfg; [done|]. csimpl.
  rewrite (Hfg x) by left. f_equal. apply IH. intros y Hy. apply Hfg. by right.
Qed.

Ltac distinct_keys :=
  cbn [fmap list_fmap fst];
  repeat (apply NoDup_cons; split;
          [let Hin := fresh in
           intros Hin;
           repeat (apply elem_of_cons in Hin as [?|Hin]; [congruence|]);
           by apply elem_of_nil in Hin|]);
  apply NoDup_nil_2.

Section BuildURL.
Context `{Collaborators}.

(** [Encode] on the map of a list of keys in strictly increasing order
    writes the values in the order of the list. *)
Lemma Values_Encode_sorted (kvs : list (string * list string)) :
  Sorted string_le kvs.*1 → NoDup kvs.*1 →
  Values_Encode (list_to_map kvs)
  = join "&" (kvs ≫= λ kv, map (queryPair kv.1) kv.2).
Proof.
  intros Hsorted Hnodup. unfold Values_Encode.
  assert (Hkeys : merge_sort string_le
                    (map fst (map_to_list (list_to_map kvs
                                             : gmap string (list string))))
                  = kvs.*1).
  { apply (Sorted_unique string_le); [apply (Sorted_merge_sort _)|done|].
    rewrite merge_sort_Permutation.
    change (map fst ?l) with (l.*1). by rewrite map_to_list_to_map. }
  rewrite Hkeys. f_equal.
  rewrite list_fmap_bind. apply bind_ext_in. intros [k xs] Hin. simpl.
  by rewrite (elem_of_list_to_map_1 kvs k xs Hnodup Hin).
Qed.

(** The closed form of [buildURL]. *)
Lemma buildURL_closed c params :
  buildURL c params
  = baseURL c +:+ "?"
    +:+ join "&"
          ((if decide (includes params = "") then []
            else [queryPair "includes" (includes params)])
           ++ (if decide (inlines params = "") then []
               else [queryPair "inlines" (inlines params)])
           ++ [queryPair ("search[" +:+ searchKey params +:+ "]")
                 (searchValue params)]).
Proof.
  unfold buildURL, Values_Set, Values_Add. do 2 f_equal.
  set (sk := "search[" +:+ searchKey params +:+ "]").
  assert (Hinc : sk ≠ "includes") by done.
  assert (Hinl : sk ≠ "inlines") by done.
  assert (Hle1 : string_le "includes" "inlines") by done.
  assert (Hle2 : string_le "inlines" sk) by done.
  assert (Hle3 : string_le "includes" sk) by done.
  destruct (includes params) as [|a inc] eqn:Ei;
    destruct (inlines params) as [|b inl'] eqn:El; simpl.
  - etrans; [apply (Values_Encode_sorted
               [(sk, [searchValue params])])|done].
    + repeat constructor.
    + distinct_keys.
  - rewrite lookup_insert_ne by done. rewrite lookup_empty. simpl.
    etrans; [apply (Values_Encode_sorted
               [("inlines", [String b inl']); (sk, [searchValue params])])|done].
    + repeat constructor; done.
    + distinct_keys.
  - rewrite lookup_insert_ne by done. rewrite lookup_empty. simpl.
    etrans; [apply (Values_Encode_sorted
               [("includes", [String a inc]); (sk, [searchValue params])])|done].
    + repeat constructor; done.
    + distinct_keys.
  - rewrite !lookup_insert_ne by done. rewrite lookup_empty. simpl.
    rewrite (insert_insert_ne _ "inlines" "includes") by done.
    etrans; [apply (Values_Encode_sorted
               [("includes", [String a inc]); ("inlines", [String b inl']);
                (sk, [searchValue params])])|done].
    + repeat constructor; done.
    + distinct_keys.
Qed.

(** X7: the URL of [buildURL] is the base URL, a question mark and the
    query: the [includes] parameter when it is not empty, then the
    [inlines] parameter when it is not empty, then the search parameter,
    which is always there; keys and values are escaped and joined by
    ampersands.  So the lookup of an edge asks for [search[id]] alone,
    the details query for the inlines and the permalink, and the
    dependencies query for the includes, the inlines and the permalink,
    where the permalink is escaped as it was given. *)
Theorem buildURL_query c params s d permalink :
  buildURL c params
  = baseURL c +:+ "?"
    +:+ join "&"
          ((if decide (includes params = "") then []
            else [queryPair "includes" (includes params)])
           ++ (if decide (inlines params = "") then []
               else [queryPair "inlines" (inlines params)])
           ++ [queryPair ("search[" +:+ searchKey params +:+ "]")
                 (searchValue params)])
  ∧ lookupURL s d
    = baseURL (client s) +:+ "?"
      +:+ queryPair "search[id]"
            (pretty (ProjectDependency.ProvidingProjectID d))
  ∧ detailsURL s permalink
    = baseURL (client s) +:+ "?"
      +:+ queryPair "inlines" detailsInlines +:+ "&"
      +:+ queryPair "search[permalink]" permalink
  ∧ dependenciesURL s permalink
    = baseURL (client s) +:+ "?"
      +:+ queryPair "includes" "dependent_project_dependencies" +:+ "&"
      +:+ queryPair "inlines" detailsInlines +:+ "&"
      +:+ queryPair "search[permalink]" permalink.
Proof.
  split; [apply buildURL_closed|].
  unfold lookupURL, detailsURL, dependenciesURL.
  rewrite !buildURL_closed. done.
Qed.

(** The lookup of an edge. *)
Lemma lookupURL_closed s d :
  lookupURL s d
  = baseURL (client s) +:+ "?"
    +:+ queryPair "search[id]"
          (pretty (ProjectDependency.ProvidingProjectID d)).
Proof. unfold lookupURL. by rewrite buildURL_closed. Qed.

(** X8: when the escaping of net/url is injective, as that of
    [url.QueryEscape] is, two edges have the same lookup URL exactly
    when they have the same providing project. *)
Theorem lookupURL_inj s d d' :
  Inj (=) (=) url_QueryEscape →
  lookupURL s d = lookupURL s d'
  ↔ ProjectDependency.ProvidingProjectID d
    = ProjectDependency.ProvidingProjectID d'.
Proof.
  intros Hinj. rewrite !lookupURL_closed. unfold queryPair. split.
  - intros Heq. do 4 apply String.app_inj in Heq.
    by apply Hinj, (inj pretty) in Heq.
  - by intros ->.
Qed.

End BuildURL.
(** ** The join of [fetchDependenciesAsync] *)

Section Join.
Context `{Collaborators}.
Implicit Types (s : ProjectService) (n : Net World) (c : Context)
  (σ : State World).

Lemma stored_delete σ j k :
  k ∉ gindex <$> goroutines σ → k ∉ gindex <$> delete j (goroutines σ).
Proof.
  intros Hk Hin. apply Hk. apply list_elem_of_fmap in Hin as (g & -> & Hg).
  apply list_elem_of_fmap_2. by eapply list_elem_of_delete_inv.
Qed.

Lemma step_unwritten s a σ σ' :
  wf σ → unwritten σ → step s a σ = Stepped σ' → unwritten σ'.
Proof.
  intros Hwf Hun Hstep. destruct a as [|j|cause]; simpl in Hstep.
  - destruct (dependencies σ !! loop_i σ) as [d|]; [|done]. simplify_eq.
    intros k Hk Hns. unfold stored in *; cbn [results goroutines loop_i] in *. apply Hun; [done|].
    intros [Hlt Hni]. apply Hns. split; [lia|].
    rewrite fmap_app, elem_of_app. intros [?|Hin]; [done|].
    apply list_elem_of_singleton in Hin. simpl in Hin. lia.
  - destruct (goroutines σ !! j) as [[k d|k r]|] eqn:Hj; [| |done].
    + destruct (fetchDependenciesAsync_func1 s (net σ) (ctx σ) k d)
        as [n' res].
      simplify_eq. intros k' Hk' Hns. unfold stored in *; cbn [results goroutines loop_i] in *. apply Hun; [done|].
      intros [Hlt Hni]. apply Hns. split; [done|].
      rewrite list_fmap_insert. simpl.
      rewrite list_insert_id; [done|]. by rewrite list_lookup_fmap, Hj.
    + destruct (decide (k < length (results σ))) as [Hk|]; [|done].
      destruct (decide (0 < wg σ)%Z); [|done]. simplify_eq.
      intros k' Hk' Hns. unfold stored in *; cbn [results goroutines loop_i] in *. rewrite length_insert in Hk'.
      destruct (decide (k' = k)) as [->|Hne].
      * destruct Hns. split.
        -- apply (wf_spawned _ Hwf (Responded k r)).
           by eapply list_elem_of_lookup_2.
        -- rewrite list_fmap_delete. intros Hin.
           apply list_elem_of_lookup_1 in Hin as [i Hi].
           pose proof (wf_nodup _ Hwf) as Hnd.
           assert (Hjk : (gindex <$> goroutines σ) !! j = Some k).
           { by rewrite list_lookup_fmap, Hj. }
           destruct (decide (i < j)) as [Hlt|Hge].
           ++ rewrite list_lookup_delete_lt in Hi by done.
              pose proof (NoDup_lookup _ _ _ _ Hnd Hi Hjk). lia.
           ++ rewrite list_lookup_delete_ge in Hi by lia.
              pose proof (NoDup_lookup _ _ _ _ Hnd Hi Hjk). lia.
      * rewrite list_lookup_insert_ne by done. apply Hun; [done|].
        intros [Hlt Hni]. apply Hns. split; [done|]. by apply stored_delete.
  - destruct (Err (ctx σ)); [done|]. by simplify_eq.
Qed.

Lemma exec_unwritten s sched σ σ' :
  wf σ → unwritten σ → exec s sched σ = Some σ' → wf σ' ∧ unwritten σ'.
Proof.
  revert σ. induction sched as [|a sched IH]; intros σ Hwf Hun Hex;
    simpl in Hex.
  { by simplify_eq. }
  pose proof (step_Inv s (λ _ _ _, True) (λ _, True) (λ _, True) σ
                I (λ _, I) (λ _ _ _ _ _ _, I) (λ _ _ _ _, I) σ a I
                (Inv_refl _ _ Hwf) I) as Hstep.
  destruct (step s a σ) as [σa| |] eqn:Ha; [|by eapply IH|done].
  destruct Hstep as [HI _].
  eapply IH; [apply HI| |done]. by eapply step_unwritten.
Qed.

Lemma unwritten_init n c deps :
  unwritten (fetchDependenciesAsync_init n c deps).
Proof.
  intros k Hk _. simpl in *. rewrite length_replicate in Hk.
  by apply lookup_replicate_2.
Qed.

(** X15: a run of [fetchDependenciesAsync] never panics, whatever the
    schedule and however far it has gone: no store is out of range and
    the counter of the wait group, which counts the live goroutines,
    never becomes negative.  At every point of the run the slot of an
    edge holds the zero value until the goroutine of the edge has
    finished, and the result of that goroutine afterwards; and where
    [wg.Wait()] can return, every goroutine has finished. *)
Theorem fetchDependenciesAsync_join s sched n c deps :
  ∃ σ, exec s sched (fetchDependenciesAsync_init n c deps) = Some σ
    ∧ wg σ = Z.of_nat (length (goroutines σ))
    ∧ length (results σ) = length deps
    ∧ (∀ k d, deps !! k = Some d →
         (stored σ k →
          ∃ nk ck,
            results σ !! k = Some (fetchDependenciesAsync_func1 s nk ck k d).2)
         ∧ (¬ stored σ k → results σ !! k = Some dependencyResult_zero))
    ∧ (returned σ → ∀ k, k < length deps → stored σ k).
Proof.
  set (Q := λ k d r, ∃ nk ck, r = (fetchDependenciesAsync_func1 s nk ck k d).2).
  assert (HQ : ∀ σ k d, True →
            Q k d (fetchDependenciesAsync_func1 s (net σ) (ctx σ) k d).2).
  { intros σ k d _. by exists (net σ), (ctx σ). }
  destruct (exec_Inv s Q (λ _, True) (λ _, True)
              (fetchDependenciesAsync_init n c deps)
              I (λ _, I) (λ _ _ _ _ _ _, I) HQ sched (fetchDependenciesAsync_init n c deps)
              (Forall_true _ _ (λ _, I)) (Inv_refl _ _ (wf_init n c deps)) I)
    as (σ & Hex & HI & _).
  destruct (exec_unwritten s sched _ σ (wf_init n c deps)
              (unwritten_init n c deps) Hex) as [Hwf Hun].
  pose proof (inv_deps _ _ _ HI) as Hdeps. simpl in Hdeps.
  pose proof (wf_length _ Hwf) as Hlen. rewrite Hdeps in Hlen.
  exists σ. split_and!; [done|apply Hwf|done| |].
  - intros k d Hd. split.
    + intros Hst. rewrite <- Hdeps in Hd.
      destruct (inv_stored _ _ _ HI k d Hd Hst) as (r & Hr & Hset).
      apply settles_init in Hset as (nk & ck & ->). by exists nk, ck.
    + intros Hns. apply Hun; [|done]. rewrite Hlen.
      by apply lookup_lt_Some in Hd.
  - intros [Hloop Hwg] k Hk. split; [rewrite Hloop, Hdeps; lia|].
    pose proof (wf_wg _ Hwf) as Hw. rewrite Hwg in Hw.
    assert (goroutines σ = []) as -> by (apply length_zero_iff_nil; lia).
    apply not_elem_of_nil.
Qed.

(** A schedule without [Cancel] leaves the context as it is, and every
    request of the run is made under it. *)
Lemma exec_requests_ctx s sched σ σ' :
  Forall (λ a, ¬ is_Cancel a) sched → exec s sched σ = Some σ' →
  ctx σ' = ctx σ
  ∧ ∃ L, calls (net σ') = calls (net σ) ++ L
         ∧ Forall (λ req, req_ctx req = ctx σ) L.
Proof.
  intros HA. revert σ. induction HA as [|a sched Ha _ IH]; intros σ Hex;
    simpl in Hex.
  { simplify_eq. split; [done|]. exists []. by rewrite app_nil_r. }
  destruct a as [|j|cause]; simpl in Hex; [| |by destruct Ha].
  - destruct (dependencies σ !! loop_i σ); by apply IH in Hex.
  - destruct (goroutines σ !! j) as [[k d|k r]|] eqn:Hj;
      [| |by apply IH in Hex].
    + pose proof (func1_net s (net σ) (ctx σ) k d) as Hnet.
      destruct (fetchDependenciesAsync_func1 s (net σ) (ctx σ) k d)
        as [n' res].
      simpl in Hnet. apply IH in Hex as (Hc & L & Hcalls & HL).
      cbn [ctx net] in *.
      split; [done|]. rewrite Hcalls, Hnet, makeRequest_log, <- app_assoc.
      eexists. split; [done|]. apply Forall_app. split; [|done].
      by destruct (decide _); repeat constructor.
    + destruct (decide (k < length (results σ))); [|done].
      destruct (decide (0 < wg σ)%Z); [|done]. by apply IH in Hex.
Qed.

Lemma uncancelled_no_Cancel sched :
  Forall (λ a, ¬ is_Cancel a) (uncancelled sched).
Proof.
  unfold uncancelled. induction sched as [|a sched IH]; [done|].
  destruct a; simpl; [| |done]; (constructor; [by intros []|done]).
Qed.

Lemma completion_no_Cancel deps :
  Forall (λ a, ¬ is_Cancel a) (completion deps).
Proof.
  unfold completion. apply Forall_app.
  split; apply Forall_replicate; by intros [].
Qed.

End Join.
(** ** The two operations of the service *)

Section Operations.
Context `{Collaborators}.
Implicit Types (s : ProjectService) (n : Net World) (c : Context)
  (σ : State World).

(** The request of [GetProjectDetails]. *)
Lemma GetProjectDetails_log s n c permalink :
  calls (GetProjectDetails s n c permalink).1
  = calls n
    ++ (if decide (ValidateProjectPermalink permalink = None
                   ∧ parses (detailsURL s permalink))
        then [requestFor (client s) c (detailsURL s permalink)] else []).
Proof.
  unfold GetProjectDetails. fold (detailsURL s permalink).
  destruct (ValidateProjectPermalink permalink) as [e|] eqn:Hv.
  { rewrite decide_False by (by intros [? _]). by rewrite app_nil_r. }
  rewrite (decide_ext _ (parses (detailsURL s permalink))) by tauto.
  pose proof (makeRequest_log (client s) n c (detailsURL s permalink)) as Hlog.
  destruct (makeRequest _ _ _ _) as [n' [e|resp]]; simpl in *; [done|].
  by destruct (Projects resp).
Qed.

(** X4: [GetProjectDetails] makes one request when the permalink is
    valid and its URL parses, and none otherwise; the request is the
    authenticated GET of the details URL of the permalink as it was
    given (it is not trimmed); and a result holds the first project of
    the response with its report. *)
Theorem GetProjectDetails_one_request s n c permalink :
  calls (GetProjectDetails s n c permalink).1
  = calls n
    ++ (if decide (ValidateProjectPermalink permalink = None
                   ∧ parses (detailsURL s permalink))
        then [requestFor (client s) c (detailsURL s permalink)] else [])
  ∧ ∀ result, (GetProjectDetails s n c permalink).2 = inr result →
      ∃ response rest,
        (makeRequest (client s) n c (detailsURL s permalink)).2 = inr response
        ∧ Projects response = pdr_Project result :: rest
        ∧ pdr_FormattedText result
          = formatProjectDetails (pdr_Project result) permalink.
Proof.
  split; [apply GetProjectDetails_log|].
  unfold GetProjectDetails. fold (detailsURL s permalink).
  destruct (ValidateProjectPermalink permalink) as [e|]; [done|].
  destruct (makeRequest _ _ _ _) as [n' [e|resp]]; simpl; [done|].
  destruct (Projects resp) as [|project rest] eqn:Hp; simpl; [done|].
  intros result [= <-]. by exists resp, rest.
Qed.

(** Every run of the fan-out returns. *)
Lemma fetchDependenciesAsync_returns s sched n c deps :
  ∃ n' c' rs, fetchDependenciesAsync s sched n c deps = Some (n', c', rs).
Proof.
  destruct (run_ends s sched n c deps) as (σ' & Hex & _).
  unfold fetchDependenciesAsync. rewrite Hex. eauto.
Qed.

Lemma GetProjectDependencies_returns s sched n c permalink :
  ∃ n' out, GetProjectDependencies s sched n c permalink = Some (n', out).
Proof.
  unfold GetProjectDependencies.
  destruct (ValidateProjectPermalink permalink); [by eauto|].
  destruct (makeRequest _ _ _ _) as [n1 [e|resp]]; [by eauto|].
  destruct (Projects resp) as [|project rest]; [by eauto|].
  destruct (decide (length _ = 0)); [by eauto|].
  destruct (fetchDependenciesAsync_returns s sched n1 c
              (filterDependencies (ProjectDependencies resp)
                 (Project.ID project))) as (n2 & c2 & rs & ->).
  eauto.
Qed.

(** The requests of a call that fails. *)
Lemma GetProjectDependencies_error_log s sched n c permalink n' e :
  GetProjectDependencies s sched n c permalink = Some (n', inl e) →
  calls n'
  = calls n
    ++ (if decide (ValidateProjectPermalink permalink = None
                   ∧ parses (dependenciesURL s permalink))
        then [requestFor (client s) c (dependenciesURL s permalink)]
        else []).
Proof.
  unfold GetProjectDependencies. fold (dependenciesURL s permalink).
  destruct (ValidateProjectPermalink permalink) as [e'|] eqn:Hv.
  { intros [= <- <-]. rewrite decide_False by (by intros [? _]).
    by rewrite app_nil_r. }
  rewrite (decide_ext _ (parses (dependenciesURL s permalink))) by tauto.
  pose proof (makeRequest_log (client s) n c (dependenciesURL s permalink))
    as Hlog.
  destruct (makeRequest _ _ _ _) as [n1 [e'|resp]]; simpl in Hlog.
  { by intros [= <- <-]. }
  destruct (Projects resp) as [|project rest].
  { by intros [= <- <-]. }
  destruct (decide (length _ = 0)); [done|].
  by destruct (fetchDependenciesAsync s sched n1 c _) as [[[n2 c2] rs]|].
Qed.

(** The requests of a call that gives a result. *)
Lemma GetProjectDependencies_result_log s sched n c permalink n' result :
  GetProjectDependencies s sched n c permalink = Some (n', inr result) →
  ValidateProjectPermalink permalink = None
  ∧ ∃ L,
      calls n'
      = calls n ++ requestFor (client s) c (dependenciesURL s permalink) :: L
      ∧ Forall (request_of (client s)) L
      ∧ URL <$> L
        ≡ₚ filter parses (lookupURL s <$> pdsr_ProjectDependencies result)
      ∧ (Forall (λ a, ¬ is_Cancel a) sched →
         Forall (λ req, req_ctx req = c) L).
Proof.
  unfold GetProjectDependencies. fold (dependenciesURL s permalink).
  destruct (ValidateProjectPermalink permalink) as [e|] eqn:Hv; [done|].
  pose proof (makeRequest_log (client s) n c (dependenciesURL s permalink))
    as Hlog.
  destruct (makeRequest _ _ _ _) as [n1 [e|resp]] eqn:Hreq; simpl in Hlog;
    [done|].
  assert (Hparse : parses (dependenciesURL s permalink)).
  { destruct (decide (parses (dependenciesURL s permalink))) as [|Hp];
      [done|].
    unfold makeRequest, http_NewRequestWithContext in Hreq.
    unfold parses in Hp. by destruct (url_Parse _). }
  assert (Hroot : calls n1
            = calls n ++ [requestFor (client s) c (dependenciesURL s permalink)]).
  { by rewrite Hlog, decide_True. }
  destruct (Projects resp) as [|project rest]; [done|].
  destruct (decide (length _ = 0)) as [Hlen|Hlen].
  { intros [= <- <-]. split; [done|]. exists []. simpl. by rewrite Hroot. }
  destruct (fetchDependenciesAsync_log s sched n1 c
              (filterDependencies (ProjectDependencies resp)
                 (Project.ID project)))
    as (n2 & c2 & rs & L & Hf & Hcalls & HL & Hperm).
  rewrite Hf. intros [= <- <-]. split; [done|]. exists L. simpl.
  rewrite Hcalls, Hroot, <- app_assoc. split_and!; try done.
  intros Hsched. unfold fetchDependenciesAsync in Hf.
  destruct (exec s _ _) as [σ|] eqn:Hex; [|done].
  destruct (exec_requests_ctx s _ _ σ
              (Forall_app_2 _ _ _ Hsched (completion_no_Cancel _)) Hex)
    as (Hc & L' & Hcalls' & HL').
  simplify_eq. simpl in *. rewrite Hcalls in Hcalls'.
  apply app_inv_head in Hcalls'. by subst.
Qed.

(** X2: the dependencies that a result of [GetProjectDependencies]
    reports are dependencies of the response, in its order, and each
    has the reported project as its dependent. *)
Theorem GetProjectDependencies_relevant s sched n c permalink n' result :
  GetProjectDependencies s sched n c permalink = Some (n', inr result) →
  ∃ response rest,
    (makeRequest (client s) n c (dependenciesURL s permalink)).2
    = inr response
    ∧ Projects response = pdsr_Project result :: rest
    ∧ pdsr_ProjectDependencies result
      `sublist_of` ProjectDependencies response
    ∧ ∀ d, d ∈ pdsr_ProjectDependencies result
           ↔ d ∈ ProjectDependencies response
             ∧ ProjectDependency.DependentProjectID d
               = Project.ID (pdsr_Project result).
Proof.
  unfold GetProjectDependencies. fold (dependenciesURL s permalink).
  destruct (ValidateProjectPermalink permalink); [done|].
  destruct (makeRequest _ _ _ _) as [n1 [e|resp]]; simpl; [done|].
  destruct (Projects resp) as [|project rest] eqn:Hp; [done|].
  destruct (decide _) as [Hlen|Hlen].
  - intros [= <- <-]. exists resp, rest. simpl.
    apply length_zero_iff_nil in Hlen. rewrite Hlen.
    split_and!; [done..|]. intros d. split; [by intros ?%elem_of_nil|].
    by intros [?%elem_of_nil _].
  - destruct (fetchDependenciesAsync s sched n1 c _) as [[[n2 c2] rs]|];
      [|done].
    intros [= <- <-]. exists resp, rest. simpl.
    rewrite filterDependencies_filter. split_and!; [done..| |].
    + apply sublist_filter.
    + intros d. rewrite list_elem_of_filter. tauto.
Qed.

(** X5: [GetProjectDependencies] returns for every schedule.  When it
    returns an error, it has made at most the root request: nothing
    fails once the lookups of the dependencies have started.  When it
    returns a result, its requests are the root request followed by one
    lookup for each reported dependency whose URL parses. *)
Theorem GetProjectDependencies_requests s sched n c permalink :
  ∃ n' out,
    GetProjectDependencies s sched n c permalink = Some (n', out)
    ∧ match out with
      | inl e =>
          calls n'
          = calls n
            ++ (if decide (ValidateProjectPermalink permalink = None
                           ∧ parses (dependenciesURL s permalink))
                then [requestFor (client s) c (dependenciesURL s permalink)]
                else [])
      | inr result =>
          ∃ L,
            calls n'
            = calls n
              ++ requestFor (client s) c (dependenciesURL s permalink) :: L
            ∧ Forall (request_of (client s)) L
            ∧ URL <$> L
              ≡ₚ filter parses
                   (lookupURL s <$> pdsr_ProjectDependencies result)
      end.
Proof.
  destruct (GetProjectDependencies_returns s sched n c permalink)
    as (n' & out & Hget).
  exists n', out. split; [done|]. destruct out as [e|result].
  - by eapply GetProjectDependencies_error_log.
  - apply GetProjectDependencies_result_log in Hget
      as (_ & L & Hcalls & HL & Hperm & _).
    by exists L.
Qed.

(** The fan-out under a transport that answers a request the same way
    at any time and a context that nobody cancels. *)
Lemma fetchDependenciesAsync_stable_run s sched n c deps :
  stable → Forall (λ a, ¬ is_Cancel a) sched →
  ∃ n', fetchDependenciesAsync s sched n c deps
        = Some (n', c,
                imap (λ k d, (fetchDependenciesAsync_func1 s n c k d).2) deps).
Proof.
  intros Hst Hsched.
  set (Q := λ k d r, r = (fetchDependenciesAsync_func1 s n c k d).2).
  set (J := λ σ : State World, ctx σ = c).
  set (A := λ a, ¬ is_Cancel a).
  assert (HJ : ∀ a σ σ', A a → J σ → step s a σ = Stepped σ' → J σ').
  { intros a σ σ' Ha HJ Hstep. unfold J in *.
    destruct a as [|j|cause]; simpl in Hstep.
    - destruct (dependencies σ !! loop_i σ); by simplify_eq.
    - destruct (goroutines σ !! j) as [[k d|k r]|]; [| |done].
      + destruct (fetchDependenciesAsync_func1 _ _ _ _ _). by simplify_eq.
      + destruct (decide (k < length (results σ))); [|done].
        destruct (decide (0 < wg σ)%Z); by simplify_eq.
    - by destruct Ha. }
  assert (HQ : ∀ σ k d, J σ →
            Q k d (fetchDependenciesAsync_func1 s (net σ) (ctx σ) k d).2).
  { intros σ k d Hc. unfold Q, J in *. rewrite Hc. by apply func1_stable. }
  destruct (run_settles s Q J A (fetchDependenciesAsync_init n c deps)
              (λ x, x) (λ _ x, x) HJ HQ sched
              (fetchDependenciesAsync_init n c deps) Hsched
              (Inv_refl _ _ (wf_init n c deps)) eq_refl)
    as (σ' & Hex & _ & Hc & Hlen & Hres).
  unfold fetchDependenciesAsync. simpl in Hex. rewrite Hex.
  exists (net σ'). rewrite Hc. do 2 f_equal.
  apply list_eq. intros k. rewrite list_lookup_imap.
  destruct (deps !! k) as [d|] eqn:Hd; simpl.
  - destruct (Hres k d Hd) as (r & Hr & Hset).
    apply settles_init in Hset. by rewrite Hr, Hset.
  - apply lookup_ge_None. apply lookup_ge_None in Hd. simpl in Hlen. lia.
Qed.

(** X9: when the transport answers a request the same way at any time
    and nobody cancels the context, what [GetProjectDependencies]
    returns, the error or the project, its dependencies and the report,
    does not depend on the order in which the goroutines run. *)
Theorem GetProjectDependencies_schedule_independent
    s sched sched' n c permalink :
  stable →
  Forall (λ a, ¬ is_Cancel a) sched → Forall (λ a, ¬ is_Cancel a) sched' →
  ∃ n1 n2 out,
    GetProjectDependencies s sched n c permalink = Some (n1, out)
    ∧ GetProjectDependencies s sched' n c permalink = Some (n2, out)
    ∧ length (calls n1) = length (calls n2).
Proof.
  intros Hst Hs Hs'. unfold GetProjectDependencies.
  destruct (ValidateProjectPermalink permalink); [by eexists _, _, _|].
  destruct (makeRequest _ _ _ _) as [n1 [e|resp]]; [by eexists _, _, _|].
  destruct (Projects resp) as [|project rest]; [by eexists _, _, _|].
  destruct (decide (length _ = 0)); [by eexists _, _, _|].
  set (deps := filterDependencies (ProjectDependencies resp)
                 (Project.ID project)).
  destruct (fetchDependenciesAsync_stable_run s sched n1 c deps Hst Hs)
    as (na & Ha).
  destruct (fetchDependenciesAsync_stable_run s sched' n1 c deps Hst Hs')
    as (nb & Hb).
  destruct (fetchDependenciesAsync_log s sched n1 c deps)
    as (na' & ? & ? & La & Ha' & Hca & _ & Hpa).
  destruct (fetchDependenciesAsync_log s sched' n1 c deps)
    as (nb' & ? & ? & Lb & Hb' & Hcb & _ & Hpb).
  rewrite Ha in Ha'. rewrite Hb in Hb'. simplify_eq.
  rewrite Ha, Hb. eexists _, _, _. split; [done|]. split; [done|].
  rewrite Hca, Hcb, !length_app. f_equal.
  apply Permutation_length in Hpa, Hpb. rewrite length_fmap in Hpa, Hpb.
  congruence.
Qed.

(** X17: the report of a result of [GetProjectDependencies].  When the
    response holds no dependency at all, it is the line that says so;
    otherwise, and also when none of the dependencies of the response
    is one of the project, it is the report of a list of results that
    has one result for each reported dependency, in their order, each
    made by the lookup of that dependency. *)
Theorem GetProjectDependencies_report s sched n c permalink n' result :
  GetProjectDependencies s sched n c permalink = Some (n', inr result) →
  ∃ response,
    (makeRequest (client s) n c (dependenciesURL s permalink)).2
    = inr response
    ∧ (ProjectDependencies response = [] →
       pdsr_FormattedText result
       = "# No dependencies found for project: "
         +:+ Project.Name (pdsr_Project result) +:+ nl +:+ nl)
    ∧ (ProjectDependencies response ≠ [] →
       ∃ rs,
         pdsr_FormattedText result
         = formatDependencies (pdsr_Project result) rs
         ∧ length rs = length (pdsr_ProjectDependencies result)
         ∧ ∀ k d, pdsr_ProjectDependencies result !! k = Some d →
             ∃ nk ck,
               rs !! k = Some (fetchDependenciesAsync_func1 s nk ck k d).2).
Proof.
  unfold GetProjectDependencies. fold (dependenciesURL s permalink).
  destruct (ValidateProjectPermalink permalink); [done|].
  destruct (makeRequest _ _ _ _) as [n1 [e|resp]]; simpl; [done|].
  destruct (Projects resp) as [|project rest]; [done|].
  destruct (decide (length _ = 0)) as [Hlen|Hlen].
  - intros [= <- <-]. exists resp. simpl. split; [done|]. split; [done|].
    intros Hne. by apply length_zero_iff_nil in Hlen.
  - destruct (fetchDependenciesAsync_slots s sched n1 c
                (filterDependencies (ProjectDependencies resp)
                   (Project.ID project)))
      as (n2 & c2 & rs & Hf & Hrs & Hslots).
    rewrite Hf. intros [= <- <-]. exists resp. simpl.
    split; [done|]. split.
    + intros Hnil. by rewrite Hnil in Hlen.
    + intros _. by exists rs.
Qed.

End Operations.

(** ** The tool handlers *)

Lemma ValidateToolArguments_invalid (arguments : gmap string any) :
  (∀ p, arguments !! "project_permalink" = Some (any_string p) →
        strings.TrimSpace p = "") →
  ∃ p msg,
    ValidateToolArguments arguments
    = (p, Some (ValidationError "project_permalink" msg)).
Proof.
  intros Hinv. unfold ValidateToolArguments, ValidateProjectPermalink.
  destruct (arguments !! "project_permalink") as [[| | |p| |]|];
    try by eexists _, _.
  rewrite decide_True by by apply Hinv. by eexists _, _.
Qed.

Lemma ValidateToolArguments_valid (arguments : gmap string any) p :
  ValidateToolArguments arguments = (p, None) →
  arguments !! "project_permalink" = Some (any_string p)
  ∧ strings.TrimSpace p ≠ "" ∧ ValidateProjectPermalink p = None.
Proof.
  unfold ValidateToolArguments, ValidateProjectPermalink.
  destruct (arguments !! "project_permalink") as [[| | |q| |]|]; try done.
  destruct (decide (strings.TrimSpace q = "")) as [|Hne]; [done|].
  intros [= ->]. by rewrite decide_False.
Qed.

Section Handlers.
Context `{Collaborators}.
Implicit Types (s : ProjectService) (n : Net World) (c : Context)
  (ps : ProjectServer.t) (request : CallToolRequest).

Lemma makeRequest_error_cases (cl : CerebroClient) n c u e :
  (makeRequest cl n c u).2 = inl e →
  (∃ code msg, e = APIError code msg) ∨ (∃ prefix cause, e = Errorf_w prefix cause).
Proof.
  unfold makeRequest.
  destruct (http_NewRequestWithContext c "GET" u) as [e'|req]; simpl.
  { intros [= <-]. right. by eexists _, _. }
  destruct (http_Client_Do _ _) as [w [e'|resp]]; simpl.
  { intros [= <-]. right. by eexists _, _. }
  destruct (Body resp); simpl.
  { intros [= <-]. right. by eexists _, _. }
  destruct (_ || _); simpl.
  { intros [= <-]. left. by eexists _, _. }
  destruct (json_Unmarshal _); simpl; [|done].
  intros [= <-]. right. by eexists _, _.
Qed.

Lemma built_by_requestFor (cl : CerebroClient) c params :
  built_by cl (requestFor cl c (buildURL cl params)).
Proof. split; [apply request_of_requestFor|by exists params]. Qed.

Lemma request_of_ctx (cl : CerebroClient) c req :
  request_of cl req → req_ctx req = c → req = requestFor cl c (URL req).
Proof. unfold request_of. by intros -> <-. Qed.

(** What [handleGetProjectDetails] asks of the catalog and what it
    returns. *)
Lemma handleGetProjectDetails_log ps n c request n' out :
  handleGetProjectDetails ps n c request = (n', out) →
  ∃ L, calls n' = calls n ++ L
    ∧ (L ≠ [] →
       ∃ p, GetArguments request !! "project_permalink" = Some (any_string p)
            ∧ strings.TrimSpace p ≠ ""
            ∧ L = [requestFor (client (ProjectServer.service ps)) c
                     (detailsURL (ProjectServer.service ps) p)])
    ∧ match out with
      | inl e =>
          (∃ f m, e = ValidationError f m) →
          L = [] ∧ ∀ p, GetArguments request !! "project_permalink"
                        = Some (any_string p) → strings.TrimSpace p = ""
      | inr res => ∃ text, res = createMCPResult text
      end.
Proof.
  unfold handleGetProjectDetails.
  destruct (ValidateToolArguments (GetArguments request)) as [p [e|]] eqn:Hv.
  { intros [= <- <-]. exists []. rewrite app_nil_r. split_and!; try done.
    intros _. split; [done|]. intros q Hq.
    unfold ValidateToolArguments, ValidateProjectPermalink in Hv.
    rewrite Hq in Hv. by destruct (decide (strings.TrimSpace q = "")). }
  apply ValidateToolArguments_valid in Hv as (Harg & Hne & Hvp).
  pose proof (GetProjectDetails_log (ProjectServer.service ps) n c p) as Hlog.
  assert (Hout : ∀ e, (GetProjectDetails (ProjectServer.service ps) n c p).2
                      = inl e → ¬ ∃ f m, e = ValidationError f m).
  { intros e. unfold GetProjectDetails. rewrite Hvp.
    pose proof (makeRequest_error_cases (client (ProjectServer.service ps))
                  n c (detailsURL (ProjectServer.service ps) p)) as Hm.
    unfold detailsURL in Hm.
    destruct (makeRequest _ _ _ _) as [n1 [e'|resp]]; simpl in *.
    - intros [= <-] (f & m & ->).
      by destruct (Hm _ eq_refl) as [(? & ? & ?)|(? & ? & ?)].
    - destruct (Projects resp); simpl; [|done].
      by intros [= <-] (f & m & ?). }
  destruct (GetProjectDetails _ _ _ _) as [n1 [e|result]]; simpl in *;
    intros [= <- <-]; eexists; (split; [apply Hlog|]).
  - split.
    + intros HL. exists p. split_and!; [done..|].
      rewrite (decide_ext _ (parses (detailsURL (ProjectServer.service ps) p)))
        in * by tauto.
      by destruct (decide _).
    + intros Hve. by destruct (Hout e eq_refl).
  - split; [|by eexists].
    intros HL. exists p. split_and!; [done..|].
    rewrite (decide_ext _ (parses (detailsURL (ProjectServer.service ps) p)))
      in * by tauto.
    by destruct (decide _).
Qed.

(** What [handleGetProjectDependencies] asks of the catalog and what it
    returns. *)
Lemma handleGetProjectDependencies_log ps sched n c request :
  ∃ n' out L,
    handleGetProjectDependencies ps sched n c request = Some (n', out)
    ∧ calls n' = calls n ++ L
    ∧ Forall (built_by (client (ProjectServer.service ps))) L
    ∧ (Forall (λ a, ¬ is_Cancel a) sched → Forall (λ req, req_ctx req = c) L)
    ∧ (L ≠ [] →
       ∃ p L',
         GetArguments request !! "project_permalink" = Some (any_string p)
         ∧ strings.TrimSpace p ≠ ""
         ∧ L = requestFor (client (ProjectServer.service ps)) c
                 (dependenciesURL (ProjectServer.service ps) p) :: L')
    ∧ match out with
      | inl e =>
          (∃ f m, e = ValidationError f m) →
          L = [] ∧ ∀ p, GetArguments request !! "project_permalink"
                        = Some (any_string p) → strings.TrimSpace p = ""
      | inr res => ∃ text, res = createMCPResult text
      end.
Proof.
  unfold handleGetProjectDependencies.
  set (s := ProjectServer.service ps).
  destruct (ValidateToolArguments (GetArguments request)) as [p [e|]] eqn:Hv.
  { exists n, (inl e), []. rewrite app_nil_r. split_and!; try done.
    intros _. split; [done|]. intros q Hq.
    unfold ValidateToolArguments, ValidateProjectPermalink in Hv.
    rewrite Hq in Hv. by destruct (decide (strings.TrimSpace q = "")). }
  apply ValidateToolArguments_valid in Hv as (Harg & Hne & Hvp).
  destruct (GetProjectDependencies_returns s sched n c p)
    as (n' & out & Hget).
  rewrite Hget. destruct out as [e|result].
  - pose proof (GetProjectDependencies_error_log s sched n c p n' e Hget)
      as Hlog.
    rewrite (decide_ext _ (parses (dependenciesURL s p))) in Hlog by tauto.
    eexists n', (inl e), _. split; [done|]. split; [apply Hlog|].
    split_and!.
    + destruct (decide _); repeat constructor. apply built_by_requestFor.
    + intros _. by destruct (decide _); repeat constructor.
    + intros HL. exists p, []. split_and!; [done..|]. by destruct (decide _).
    + intros (f & m & Heq). exfalso. subst e. revert Hget.
      unfold GetProjectDependencies. rewrite Hvp.
      pose proof (makeRequest_error_cases (client s) n c
                    (dependenciesURL s p)) as Hm.
      unfold dependenciesURL in Hm.
      destruct (makeRequest _ _ _ _) as [n1 [e'|resp]]; simpl in *.
      * intros [= -> ->].
        by destruct (Hm _ eq_refl) as [(? & ? & ?)|(? & ? & ?)].
      * destruct (Projects resp); [done|].
        destruct (decide (length _ = 0)); [done|].
        by destruct (fetchDependenciesAsync _ _ _ _ _) as [[[? ?] ?]|].
  - apply GetProjectDependencies_result_log in Hget
      as (_ & L & Hcalls & HL & Hperm & Hctx).
    eexists n', (inr _), _. split; [done|]. split; [apply Hcalls|].
    split_and!.
    + constructor; [apply built_by_requestFor|].
      apply Forall_forall. intros req Hreq. split.
      * by eapply Forall_forall in HL.
      * assert (Hin : URL req ∈ URL <$> L) by by apply list_elem_of_fmap_2.
        rewrite Hperm in Hin. apply list_elem_of_filter in Hin as [_ Hin].
        apply list_elem_of_fmap in Hin as (d & -> & _). by eexists.
    + intros Hs. constructor; [done|]. by apply Hctx.
    + intros _. by exists p, L.
    + by eexists.
Qed.

(** X10: the two handlers reject arguments that do not hold a string
    permalink with something other than white space in it, with a
    validation error on [project_permalink] (the same for both) and
    without a request to the catalog; and a validation error of a
    handler always means this: the catalog and the service never make
    one for arguments that passed. *)
Theorem handlers_validate_arguments ps sched n c request :
  let invalid :=
    ∀ p, GetArguments request !! "project_permalink" = Some (any_string p) →
         strings.TrimSpace p = "" in
  (invalid →
   ∃ msg,
     handleGetProjectDetails ps n c request
     = (n, inl (ValidationError "project_permalink" msg))
     ∧ handleGetProjectDependencies ps sched n c request
       = Some (n, inl (ValidationError "project_permalink" msg)))
  ∧ (∀ n' f m,
       handleGetProjectDetails ps n c request
       = (n', inl (ValidationError f m)) → invalid ∧ calls n' = calls n)
  ∧ (∀ n' f m,
       handleGetProjectDependencies ps sched n c request
       = Some (n', inl (ValidationError f m)) → invalid ∧ calls n' = calls n).
Proof.
  intros invalid. split_and!.
  - intros Hinv.
    destruct (ValidateToolArguments_invalid _ Hinv) as (p & msg & Hv).
    exists msg. unfold handleGetProjectDetails, handleGetProjectDependencies.
    by rewrite Hv.
  - intros n' f m Hh.
    apply handleGetProjectDetails_log in Hh as (L & Hcalls & _ & Hve).
    destruct Hve as [-> Hinv]; [by eexists _, _|].
    by rewrite app_nil_r in Hcalls.
  - intros n' f m Hh.
    destruct (handleGetProjectDependencies_log ps sched n c request)
      as (n1 & out & L & Hh' & Hcalls & _ & _ & _ & Hve).
    rewrite Hh in Hh'. simplify_eq.
    destruct Hve as [-> Hinv]; [by eexists _, _|].
    by rewrite app_nil_r in Hcalls.
Qed.

End Handlers.
(** ** The HTTP mode *)

Section HTTP.
Context `{Collaborators}.
Variable json_Decode : string → error + HTTPRequest.
Implicit Types (n : Net World) (ps : ProjectServer.t) (w : ResponseWriter)
  (r : HTTPInput).

(** The five ways through [ServeHTTP]. *)
Lemma ServeHTTP_cases ps sched n w r :
  let s := ProjectServer.service ps in
  ∃ n' resp code L,
    ServeHTTP json_Decode ps sched n w r
    = Some (n', Encode resp
                  (WriteHeader code
                     (w_Header_Set "Content-Type" "application/json" w)))
    ∧ calls n' = calls n ++ L
    ∧ Forall (built_by (client s)) L
    ∧ Forall (λ req, req_ctx req = context_Background) L
    ∧ ((code = http_StatusMethodNotAllowed ∧ r_Method r ≠ "POST" ∧ L = []
        ∧ resp = {| Success := false; Data := None;
                    Error_ := "Only POST method is allowed" |})
       ∨ (code = http_StatusBadRequest ∧ r_Method r = "POST" ∧ L = []
          ∧ ∃ e, json_Decode (r_Body r) = inl e
                 ∧ resp = {| Success := false; Data := None;
                             Error_ := "Failed to parse request: "
                                       +:+ Error e |})
       ∨ (code = http_StatusNotFound ∧ r_Method r = "POST" ∧ L = []
          ∧ ∃ req, json_Decode (r_Body r) = inr req
                   ∧ Tool req ≠ ToolProjectGetDetails
                   ∧ Tool req ≠ ToolProjectGetDependencies
                   ∧ resp = {| Success := false; Data := None;
                               Error_ := "Tool not found: " +:+ Tool req |})
       ∨ (code = http_StatusInternalServerError ∧ r_Method r = "POST"
          ∧ ∃ req e,
              json_Decode (r_Body r) = inr req
              ∧ (Tool req = ToolProjectGetDetails
                 ∨ Tool req = ToolProjectGetDependencies)
              ∧ resp = {| Success := false; Data := None;
                          Error_ := "Tool execution failed: " +:+ Error e |}
              ∧ ((∃ f m, e = ValidationError f m) →
                 L = []
                 ∧ ∀ p, Arguments req !! "project_permalink"
                        = Some (any_string p) → strings.TrimSpace p = ""))
       ∨ (code = http_StatusOK ∧ r_Method r = "POST"
          ∧ ∃ req text,
              json_Decode (r_Body r) = inr req
              ∧ (Tool req = ToolProjectGetDetails
                 ∨ Tool req = ToolProjectGetDependencies)
              ∧ resp = {| Success := true;
                          Data := Some (createMCPResult text);
                          Error_ := "" |}))
    ∧ (L ≠ [] →
       ∃ req p L',
         json_Decode (r_Body r) = inr req
         ∧ Arguments req !! "project_permalink" = Some (any_string p)
         ∧ strings.TrimSpace p ≠ ""
         ∧ ((Tool req = ToolProjectGetDetails
             ∧ L = [requestFor (client s) context_Background
                      (detailsURL s p)])
            ∨ (Tool req = ToolProjectGetDependencies
               ∧ L = requestFor (client s) context_Background
                       (dependenciesURL s p) :: L'))).
Proof.
  intros s. unfold ServeHTTP.
  destruct (decide (r_Method r ≠ http_MethodPost)) as [Hm|Hm].
  { eexists n, _, _, []. rewrite app_nil_r.
    split_and!; [done..| |done]. by left. }
  apply dec_stable in Hm.
  destruct (json_Decode (r_Body r)) as [e|req] eqn:Hdec.
  { eexists n, _, _, []. rewrite app_nil_r.
    split_and!; [done..| |done]. right. left. split_and!; [done..|].
    by exists e. }
  destruct (decide (Tool req ≠ ToolProjectGetDetails
                    ∧ Tool req ≠ ToolProjectGetDependencies))
    as [[Ht1 Ht2]|Ht].
  { eexists n, _, _, []. rewrite app_nil_r.
    split_and!; [done..| |done]. do 2 right. left. split_and!; [done..|].
    by exists req. }
  set (mcpRequest := {| Params_Name := Tool req;
                        Params_Arguments := Some (Arguments req) |}).
  destruct (decide (Tool req = ToolProjectGetDetails)) as [Hdet|Hdet].
  - destruct (handleGetProjectDetails ps n context_Background mcpRequest)
      as [n' out] eqn:Hh.
    apply handleGetProjectDetails_log in Hh as (L & Hcalls & HL & Hout).
    assert (HL' : L ≠ [] →
              ∃ p, Arguments req !! "project_permalink" = Some (any_string p)
                   ∧ strings.TrimSpace p ≠ ""
                   ∧ L = [requestFor (client s) context_Background
                            (detailsURL s p)]) by done.
    assert (Hall : Forall (built_by (client s)) L
                   ∧ Forall (λ q, req_ctx q = context_Background) L).
    { destruct L as [|q L]; [done|].
      destruct HL' as (p & _ & _ & ->); [done|].
      split; repeat constructor. apply built_by_requestFor. }
    destruct Hall as [Hb Hc].
    assert (Hreqs : L ≠ [] →
       ∃ req0 p L',
         @inr error HTTPRequest req = inr req0
         ∧ Arguments req0 !! "project_permalink" = Some (any_string p)
         ∧ strings.TrimSpace p ≠ ""
         ∧ ((Tool req0 = ToolProjectGetDetails
             ∧ L = [requestFor (client s) context_Background
                      (detailsURL s p)])
            ∨ (Tool req0 = ToolProjectGetDependencies
               ∧ L = requestFor (client s) context_Background
                       (dependenciesURL s p) :: L'))).
    { intros Hne. destruct (HL' Hne) as (p & ? & ? & ?).
      exists req, p, []. split_and!; [done..|]. by left. }
    destruct out as [e|res].
    + eexists n', _, _, L. split_and!; [done..| |done].
      do 3 right. left. split_and!; [done..|]. exists req, e.
      split_and!; [done|by left|done|done].
    + destruct Hout as [text ->].
      eexists n', _, _, L. split_and!; [done..| |done].
      do 4 right. split_and!; [done..|]. exists req, text.
      split_and!; [done|by left|done].
  - assert (Hdep : Tool req = ToolProjectGetDependencies).
    { destruct (decide (Tool req = ToolProjectGetDependencies)); [done|].
      by destruct Ht. }
    rewrite decide_True by done.
    destruct (handleGetProjectDependencies_log ps (uncancelled sched) n
                context_Background mcpRequest)
      as (n' & out & L & Hh & Hcalls & Hb & Hc & HL & Hout).
    rewrite Hh. specialize (Hc (uncancelled_no_Cancel sched)).
    assert (Hreqs : L ≠ [] →
       ∃ req0 p L',
         @inr error HTTPRequest req = inr req0
         ∧ Arguments req0 !! "project_permalink" = Some (any_string p)
         ∧ strings.TrimSpace p ≠ ""
         ∧ ((Tool req0 = ToolProjectGetDetails
             ∧ L = [requestFor (client s) context_Background
                      (detailsURL s p)])
            ∨ (Tool req0 = ToolProjectGetDependencies
               ∧ L = requestFor (client s) context_Background
                       (dependenciesURL s p) :: L'))).
    { intros Hne. destruct (HL Hne) as (p & L' & ? & ? & ?).
      exists req, p, L'. split_and!; [done..|]. by right. }
    destruct out as [e|res].
    + eexists n', _, _, L. split_and!; [done..| |done].
      do 3 right. left. split_and!; [done..|]. exists req, e.
      split_and!; [done|by right|done|done].
    + destruct Hout as [text ->].
      eexists n', _, _, L. split_and!; [done..| |done].
      do 4 right. split_and!; [done..|]. exists req, text.
      split_and!; [done|by right|done].
Qed.

(** X11: [ServeHTTP] never panics and, on a writer to which nothing
    was written yet, it answers with one JSON value and one of five
    status codes: 405 exactly when the method is not POST, 400 exactly
    when the body of a POST does not decode, 404 exactly when the tool
    is neither of the two, and 500 or 200 otherwise.  The answer has
    [success] set exactly under 200, and then it carries a text result
    and no error message; under any other status it carries an error
    message and no data. *)
Theorem ServeHTTP_response ps sched n w r :
  w_Status w = None →
  ∃ n' w' resp code,
    ServeHTTP json_Decode ps sched n w r = Some (n', w')
    ∧ w_Header w' = <["Content-Type" := "application/json"]> (w_Header w)
    ∧ w_Status w' = Some code
    ∧ w_Body w' = w_Body w ++ [resp]
    ∧ code ∈ [200; 400; 404; 405; 500]%Z
    ∧ (code = 405%Z ↔ r_Method r ≠ "POST")
    ∧ (code = 400%Z
       ↔ r_Method r = "POST" ∧ ∃ e, json_Decode (r_Body r) = inl e)
    ∧ (code = 404%Z
       ↔ r_Method r = "POST"
         ∧ ∃ req, json_Decode (r_Body r) = inr req
                  ∧ Tool req ≠ ToolProjectGetDetails
                  ∧ Tool req ≠ ToolProjectGetDependencies)
    ∧ (Success resp = true ↔ code = 200%Z)
    ∧ (if Success resp
       then Error_ resp = "" ∧ ∃ text, Data resp = Some (createMCPResult text)
       else Error_ resp ≠ "" ∧ Data resp = None).
Proof.
  intros Hw.
  destruct (ServeHTTP_cases ps sched n w r)
    as (n' & resp & code & L & Hserve & _ & _ & _ & Hcases & _).
  eexists n', _, resp, code. split; [exact Hserve|].
  unfold Encode, WriteHeader, w_Header_Set. cbn [w_Header w_Status w_Body].
  rewrite Hw. split; [done|]. split; [done|]. split; [done|].
  unfold http_StatusMethodNotAllowed, http_StatusBadRequest,
    http_StatusNotFound, http_StatusInternalServerError, http_StatusOK
    in Hcases.
  destruct Hcases
    as [(-> & Hm & _ & ->)
       |[(-> & Hm & _ & e & He & ->)
        |[(-> & Hm & _ & req & Hreq & Ht1 & Ht2 & ->)
         |[(-> & Hm & req & e & Hreq & Ht & -> & _)
          |(-> & Hm & req & text & Hreq & Ht & ->)]]]];
    cbn [Success Data Error_].
  all: split_and!; try done; try (by repeat constructor).
  all: try (split; [by intros [=]|]).
  all: try (by intros [? _]).
  all: try (intros [_ (? & ?)]; congruence).
  all: try (intros [_ (? & ? & _)]; congruence).
  all: try (intros [_ (q & Hq & Hn1 & Hn2)];
            assert (q = req) as -> by congruence;
            destruct Ht as [Ht|Ht]; [by apply Hn1 in Ht|by apply Hn2 in Ht]).
  - split; [|done]. intros _. split; [done|]. by exists e.
  - split; [|done]. intros _. split; [done|]. by exists req.
  - by exists text.
Qed.

(** X12: every request that [ServeHTTP] makes is an authenticated GET of
    the client, for a URL of [buildURL], under [context.Background()]:
    nothing that happens to the HTTP request cancels it.  It makes
    requests only for a POST whose body decodes to one of the two tools
    with a string permalink that is not blank, and the first request is
    then the root query of that tool for that permalink; the details
    tool makes no other. *)
Theorem ServeHTTP_requests ps sched n w r :
  let s := ProjectServer.service ps in
  ∃ n' w' L,
    ServeHTTP json_Decode ps sched n w r = Some (n', w')
    ∧ calls n' = calls n ++ L
    ∧ Forall (λ req, ∃ params,
                req = requestFor (client s) context_Background
                        (buildURL (client s) params)) L
    ∧ (L ≠ [] →
       r_Method r = "POST"
       ∧ ∃ req p L',
           json_Decode (r_Body r) = inr req
           ∧ Arguments req !! "project_permalink" = Some (any_string p)
           ∧ strings.TrimSpace p ≠ ""
           ∧ ((Tool req = ToolProjectGetDetails
               ∧ L = [requestFor (client s) context_Background
                        (detailsURL s p)])
              ∨ (Tool req = ToolProjectGetDependencies
                 ∧ L = requestFor (client s) context_Background
                         (dependenciesURL s p) :: L'))).
Proof.
  intros s. subst s.
  destruct (ServeHTTP_cases ps sched n w r)
    as (n' & resp & code & L & Hserve & Hcalls & Hb & Hc & Hcases & HL).
  eexists n', _, L. split; [exact Hserve|]. split; [done|]. split.
  - apply Forall_forall. intros req Hreq.
    eapply Forall_forall in Hb; [|done]. eapply Forall_forall in Hc; [|done].
    destruct Hb as [Hof [params Hurl]]. exists params.
    rewrite <- Hurl. by apply request_of_ctx.
  - intros Hne. split; [|by apply HL].
    destruct Hcases
      as [(_ & _ & ? & _)|[(_ & ? & _)|[(_ & ? & _)|[(_ & ? & _)|(_ & ? & _)]]]];
      done.
Qed.

(** X16: a POST for one of the two tools whose arguments do not hold a
    string permalink with something other than white space in it is
    answered with status 500, not 400, and the message of the
    validation error, without a request to the catalog. *)
Theorem ServeHTTP_invalid_arguments ps sched n w r req :
  w_Status w = None →
  r_Method r = "POST" →
  json_Decode (r_Body r) = inr req →
  Tool req = ToolProjectGetDetails ∨ Tool req = ToolProjectGetDependencies →
  (∀ p, Arguments req !! "project_permalink" = Some (any_string p) →
        strings.TrimSpace p = "") →
  ∃ w' msg,
    ServeHTTP json_Decode ps sched n w r = Some (n, w')
    ∧ w_Status w' = Some 500%Z
    ∧ w_Body w'
      = w_Body w
        ++ [{| Success := false; Data := None;
               Error_ := "Tool execution failed: validation error for project_permalink: "
                         +:+ msg |}].
Proof.
  intros Hw Hm Hdec Ht Hinv.
  destruct (ValidateToolArguments_invalid _ Hinv) as (p & msg & Hv).
  unfold ServeHTTP. rewrite decide_False by (by intros ?). rewrite Hdec.
  rewrite decide_False by (intros [? ?]; by destruct Ht).
  unfold handleGetProjectDetails, handleGetProjectDependencies.
  change (GetArguments {| Params_Name := Tool req;
                          Params_Arguments := Some (Arguments req) |})
    with (Arguments req).
  rewrite Hv.
  destruct (decide (Tool req = ToolProjectGetDetails)) as [|Hnd].
  - eexists _, msg. split; [done|].
    unfold Encode, WriteHeader, w_Header_Set. cbn [w_Header w_Status w_Body].
    by rewrite Hw.
  - rewrite decide_True by (by destruct Ht).
    eexists _, msg. split; [done|].
    unfold Encode, WriteHeader, w_Header_Set. cbn [w_Header w_Status w_Body].
    by rewrite Hw.
Qed.

End HTTP.
(** ** The wiring of [main] *)

Section Wiring.
Context `{Collaborators}.
Implicit Types (n : Net World) (c : Context) (ps : ProjectServer.t).

Lemma built_by_authorized (cl : CerebroClient) req :
  built_by cl req → authorized (baseURL cl) (token cl) req.
Proof.
  intros [Hof [params Hurl]]. rewrite Hof. unfold authorized. simpl.
  split_and!; [done|done|done|].
  rewrite Hurl. unfold buildURL. by eexists.
Qed.

(** X14: with the values that [main] builds from the environment, every
    request that the two handlers make is a GET under the fixed base
    URL of the catalog that carries the token of CEREBRO_TOKEN, which
    is not empty, and asks for JSON. *)
Theorem main_dependencies_requests env ps sched n c request :
  main_dependencies env = inr ps →
  os_Getenv env "CEREBRO_TOKEN" ≠ ""
  ∧ (∃ L,
       calls (handleGetProjectDetails ps n c request).1 = calls n ++ L
       ∧ Forall (authorized "https://cerebro.zende.sk/projects.json"
                   (os_Getenv env "CEREBRO_TOKEN")) L)
  ∧ (∃ n' out L,
       handleGetProjectDependencies ps sched n c request = Some (n', out)
       ∧ calls n' = calls n ++ L
       ∧ Forall (authorized "https://cerebro.zende.sk/projects.json"
                   (os_Getenv env "CEREBRO_TOKEN")) L).
Proof.
  unfold main_dependencies, LoadConfig.
  destruct (decide (os_Getenv env "CEREBRO_TOKEN" = "")) as [|Htok]; [done|].
  intros [= <-]. split; [done|].
  set (ps := NewProjectServer _ _).
  change "https://cerebro.zende.sk/projects.json"
    with (baseURL (client (ProjectServer.service ps))).
  change (os_Getenv env "CEREBRO_TOKEN")
    with (token (client (ProjectServer.service ps))).
  split.
  - destruct (handleGetProjectDetails ps n c request) as [n' out] eqn:Hh.
    apply handleGetProjectDetails_log in Hh as (L & Hcalls & HL & _).
    exists L. split; [done|].
    destruct L as [|q L]; [done|].
    destruct HL as (p & _ & _ & ->); [done|].
    repeat constructor. apply built_by_authorized, built_by_requestFor.
  - destruct (handleGetProjectDependencies_log ps sched n c request)
      as (n' & out & L & Hh & Hcalls & Hb & _).
    exists n', out, L. split; [done|]. split; [done|].
    eapply Forall_impl; [done|]. apply built_by_authorized.
Qed.

End Wiring.

(** ** The properties on the small catalog *)

Section OnCatalogServer.
#[local] Existing Instance Catalog.collaborators.

Lemma Catalog_stable : @stable Catalog.collaborators.
Proof. by intros w w' req. Qed.

Lemma GetProjectDependencies_relevant_witness :
  ∃ n' result,
    GetProjectDependencies Catalog.service Catalog.sched Catalog.net0
      context_Background "classic" = Some (n', inr result)
    ∧ ∃ response rest,
        (makeRequest (client Catalog.service) Catalog.net0 context_Background
           (dependenciesURL Catalog.service "classic")).2 = inr response
        ∧ Projects response = pdsr_Project result :: rest
        ∧ pdsr_ProjectDependencies result
          `sublist_of` ProjectDependencies response
        ∧ ∀ d, d ∈ pdsr_ProjectDependencies result
               ↔ d ∈ ProjectDependencies response
                 ∧ ProjectDependency.DependentProjectID d
                   = Project.ID (pdsr_Project result).
Proof.
  eexists _, _. split; [vm_compute; reflexivity|].
  eapply (GetProjectDependencies_relevant Catalog.service Catalog.sched
            Catalog.net0 context_Background "classic").
  vm_compute. reflexivity.
Defined.

Lemma GetProjectDependencies_report_witness :
  ∃ n' result,
    GetProjectDependencies Catalog.service Catalog.sched Catalog.net0
      context_Background "classic" = Some (n', inr result)
    ∧ ∃ response,
        (makeRequest (client Catalog.service) Catalog.net0 context_Background
           (dependenciesURL Catalog.service "classic")).2 = inr response
        ∧ (ProjectDependencies response = [] →
           pdsr_FormattedText result
           = "# No dependencies found for project: "
             +:+ Project.Name (pdsr_Project result) +:+ nl +:+ nl)
        ∧ (ProjectDependencies response ≠ [] →
           ∃ rs,
             pdsr_FormattedText result
             = formatDependencies (pdsr_Project result) rs
             ∧ length rs = length (pdsr_ProjectDependencies result)
             ∧ ∀ k d, pdsr_ProjectDependencies result !! k = Some d →
                 ∃ nk ck,
                   rs !! k
                   = Some (fetchDependenciesAsync_func1 Catalog.service
                             nk ck k d).2).
Proof.
  eexists _, _. split; [vm_compute; reflexivity|].
  eapply (GetProjectDependencies_report Catalog.service Catalog.sched
            Catalog.net0 context_Background "classic").
  vm_compute. reflexivity.
Defined.

Lemma lookupURL_inj_witness :
  Inj (=) (=) (@url_QueryEscape Catalog.collaborators)
  ∧ (lookupURL Catalog.service (Catalog.edge 100 1 8)
     = lookupURL Catalog.service (Catalog.edge 104 3 8)
     ↔ ProjectDependency.ProvidingProjectID (Catalog.edge 100 1 8)
       = ProjectDependency.ProvidingProjectID (Catalog.edge 104 3 8)).
Proof.
  assert (Hinj : Inj (=) (=) (@url_QueryEscape Catalog.collaborators)).
  { by intros x y. }
  split; [done|].
  exact (lookupURL_inj Catalog.service (Catalog.edge 100 1 8)
           (Catalog.edge 104 3 8) Hinj).
Defined.

Lemma GetProjectDependencies_schedule_independent_witness :
  stable
  ∧ Forall (λ a, ¬ is_Cancel a) Catalog.sched
  ∧ Forall (λ a, ¬ is_Cancel a) []
  ∧ ∃ n1 n2 out,
      GetProjectDependencies Catalog.service Catalog.sched Catalog.net0
        context_Background "classic" = Some (n1, out)
      ∧ GetProjectDependencies Catalog.service [] Catalog.net0
          context_Background "classic" = Some (n2, out)
      ∧ length (calls n1) = length (calls n2).
Proof.
  assert (Hsched : Forall (λ a, ¬ is_Cancel a) Catalog.sched).
  { unfold Catalog.sched. repeat constructor; by intros []. }
  split; [exact Catalog_stable|]. split; [done|]. split; [done|].
  exact (GetProjectDependencies_schedule_independent Catalog.service
           Catalog.sched [] Catalog.net0 context_Background "classic"
           Catalog_stable Hsched (Forall_nil_2 _)).
Defined.

Lemma ServeHTTP_response_witness :
  w_Status fresh_writer = None
  ∧ ∃ n' w' resp code,
      ServeHTTP Catalog_json_Decode Catalog_server Catalog.sched Catalog.net0
        fresh_writer
        {| r_Method := "POST"; r_Body := "project_get_dependencies classic" |}
      = Some (n', w')
      ∧ w_Header w'
        = <["Content-Type" := "application/json"]> (w_Header fresh_writer)
      ∧ w_Status w' = Some code
      ∧ w_Body w' = w_Body fresh_writer ++ [resp]
      ∧ code ∈ [200; 400; 404; 405; 500]%Z
      ∧ (code = 405%Z ↔ "POST" ≠ "POST")
      ∧ (code = 400%Z
         ↔ "POST" = "POST"
           ∧ ∃ e, Catalog_json_Decode "project_get_dependencies classic"
                  = inl e)
      ∧ (code = 404%Z
         ↔ "POST" = "POST"
           ∧ ∃ req, Catalog_json_Decode "project_get_dependencies classic"
                    = inr req
                    ∧ Tool req ≠ ToolProjectGetDetails
                    ∧ Tool req ≠ ToolProjectGetDependencies)
      ∧ (Success resp = true ↔ code = 200%Z)
      ∧ (if Success resp
         then Error_ resp = ""
              ∧ ∃ text, Data resp = Some (createMCPResult text)
         else Error_ resp ≠ "" ∧ Data resp = None).
Proof.
  split; [reflexivity|].
  exact (ServeHTTP_response Catalog_json_Decode Catalog_server Catalog.sched
           Catalog.net0 fresh_writer
           {| r_Method := "POST";
              r_Body := "project_get_dependencies classic" |} eq_refl).
Defined.

Lemma ServeHTTP_invalid_arguments_witness :
  w_Status fresh_writer = None
  ∧ ∃ w' msg,
      ServeHTTP Catalog_json_Decode Catalog_server Catalog.sched Catalog.net0
        fresh_writer
        {| r_Method := "POST"; r_Body := "project_get_details " |}
      = Some (Catalog.net0, w')
      ∧ w_Status w' = Some 500%Z
      ∧ w_Body w'
        = w_Body fresh_writer
          ++ [{| Success := false; Data := None;
                 Error_ := "Tool execution failed: validation error for project_permalink: "
                           +:+ msg |}].
Proof.
  split; [reflexivity|].
  apply (ServeHTTP_invalid_arguments Catalog_json_Decode Catalog_server
           Catalog.sched Catalog.net0 fresh_writer
           {| r_Method := "POST"; r_Body := "project_get_details " |}
           {| Tool := "project_get_details";
              Arguments := {[ "project_permalink" := any_string "" ]} |}).
  - reflexivity.
  - reflexivity.
  - vm_compute. reflexivity.
  - by left.
  - intros p. cbn [Arguments]. rewrite lookup_singleton_eq. intros [= <-].
    vm_compute. reflexivity.
Defined.

Lemma main_dependencies_requests_witness :
  main_dependencies {[ "CEREBRO_TOKEN" := "secret" ]} = inr Catalog_server
  ∧ os_Getenv {[ "CEREBRO_TOKEN" := "secret" ]} "CEREBRO_TOKEN" ≠ ""
  ∧ (∃ L,
       calls (handleGetProjectDetails Catalog_server Catalog.net0
                context_Background
                {| Params_Name := ToolProjectGetDetails;
                   Params_Arguments :=
                     Some {[ "project_permalink" := any_string "classic" ]} |}).1
       = calls Catalog.net0 ++ L
       ∧ Forall (authorized "https://cerebro.zende.sk/projects.json"
                   (os_Getenv {[ "CEREBRO_TOKEN" := "secret" ]}
                      "CEREBRO_TOKEN")) L)
  ∧ (∃ n' out L,
       handleGetProjectDependencies Catalog_server Catalog.sched Catalog.net0
         context_Background
         {| Params_Name := ToolProjectGetDetails;
            Params_Arguments :=
              Some {[ "project_permalink" := any_string "classic" ]} |}
       = Some (n', out)
       ∧ calls n' = calls Catalog.net0 ++ L
       ∧ Forall (authorized "https://cerebro.zende.sk/projects.json"
                   (os_Getenv {[ "CEREBRO_TOKEN" := "secret" ]}
                      "CEREBRO_TOKEN")) L).
Proof.
  assert (Hmain : main_dependencies {[ "CEREBRO_TOKEN" := "secret" ]}
                  = inr Catalog_server) by (vm_compute; reflexivity).
  split; [exact Hmain|].
  exact (main_dependencies_requests {[ "CEREBRO_TOKEN" := "secret" ]}
           Catalog_server Catalog.sched Catalog.net0 context_Background
           {| Params_Name := ToolProjectGetDetails;
              Params_Arguments :=
                Some {[ "project_permalink" := any_string "classic" ]} |}
           Hmain).
Defined.

End OnCatalogServer.
